(** * Link resolution, heading anchors and slide embeds of the Webpage exporter

    A shallow embedding of [src/plugin/website/webpage.ts]:
    [Webpage.resolveLink], [Webpage.remapLinks], [Webpage.remapEmbedLinks]
    and the [processEmbed] closure of [Webpage.handleAdvancedSlidesEmbeds].

    Conventions of the model.
    - A JavaScript string is a [string]; each [ascii] stands for one code
      unit, so the model speaks about strings whose code units are below 256.
    - A value of type [string | undefined] (or [string | null]) is an
      [option string]; [None] is [undefined] (or [null]).
    - A JavaScript [Map] with string keys is a [gmap string _].
    - The document is a store of elements in document order; a node is
      named by its position in the store. *)

From Stdlib Require Import String Ascii List NArith Lia.
From Stdlib Require Import Decimal DecimalString DecimalN.
From stdpp Require Import base option list gmap strings relations.



(** ** JavaScript string primitives used by the source *)

Module Js.

(** [s.startsWith(p)] *)
Fixpoint startsWith (s p : string) {struct p} : bool :=
  match p, s with
  | EmptyString, _ => true
  | String a p', String b s' => if Ascii.eqb a b then startsWith s' p' else false
  | String _ _, EmptyString => false
  end.

(** [s.substring(1)] *)
Definition substring1 (s : string) : string :=
  match s with
  | String _ s' => s'
  | EmptyString => EmptyString
  end.

(** The class [\w] of a regular expression without the unicode flag. *)
Definition isWordChar (c : ascii) : bool :=
  let n := N_of_ascii c in
  ((48 <=? n) && (n <=? 57) || (65 <=? n) && (n <=? 90) ||
   (97 <=? n) && (n <=? 122) || (n =? 95))%N.

(** White space removed by [trim]: TAB, LF, VT, FF, CR, SP and NBSP (the
    ones below 256). *)
Definition isWhiteSpace (c : ascii) : bool :=
  let n := N_of_ascii c in
  ((9 <=? n) && (n <=? 13) || (n =? 32) || (n =? 160))%N.

Fixpoint trimStart (s : string) : string :=
  match s with
  | String c s' => if isWhiteSpace c then trimStart s' else s
  | EmptyString => EmptyString
  end.

Fixpoint trimEnd (s : string) : string :=
  match s with
  | String c s' =>
      match trimEnd s' with
      | EmptyString => if isWhiteSpace c then EmptyString else String c EmptyString
      | r => String c r
      end
  | EmptyString => EmptyString
  end.

(** [s.trim()] *)
Definition trim (s : string) : string := trimEnd (trimStart s).

Definition consHead (c : ascii) (l : list string) : list string :=
  match l with
  | h :: t => String c h :: t
  | [] => [String c EmptyString]
  end.

(** [s.split(sep)] for a separator of one character. *)
Fixpoint split (s : string) (sep : ascii) : list string :=
  match s with
  | EmptyString => [EmptyString]
  | String c s' =>
      if Ascii.eqb c sep then EmptyString :: split s' sep
      else consHead c (split s' sep)
  end.

(** [s.replaceAll(pat, rep)] for a non-empty pattern: the matches are
    taken left to right and do not overlap.  [skip] counts the
    characters of a match still to be passed over. *)
Fixpoint replaceAllFrom (skip : nat) (s pat rep : string) : string :=
  match s with
  | EmptyString => EmptyString
  | String c s' =>
      match skip with
      | S k => replaceAllFrom k s' pat rep
      | O =>
          if startsWith s pat
          then rep +:+ replaceAllFrom (String.length pat - 1) s' pat rep
          else String c (replaceAllFrom 0 s' pat rep)
      end
  end.

Definition replaceAll (s pat rep : string) : string := replaceAllFrom 0 s pat rep.

(** The regular expression [/\w+:(\/\/|\\\\)/]: one or more word
    characters, a colon, then two slashes or two backslashes.  A colon is
    not a word character, so the greedy [\w+] never has to give back. *)
Fixpoint schemeTail (s : string) : bool :=
  match s with
  | String c s' =>
      if isWordChar c then schemeTail s'
      else startsWith s "://" || startsWith s ":\\"
  | EmptyString => false
  end.

Definition schemeHere (s : string) : bool :=
  match s with
  | String c s' => isWordChar c && schemeTail s'
  | EmptyString => false
  end.

(** [/\w+:(\/\/|\\\\)/.exec(s)] is truthy: the expression matches
    somewhere in [s]. *)
Fixpoint schemeRegexExec (s : string) : bool :=
  schemeHere s ||
  match s with
  | String _ s' => schemeRegexExec s'
  | EmptyString => false
  end.

(** Truthiness of a [string | undefined]. *)
Definition truthy (v : option string) : bool :=
  match v with
  | Some EmptyString | None => false
  | Some _ => true
  end.

(** String conversion of a [string | undefined], as in ["#" + v]. *)
Definition toStr (v : option string) : string :=
  match v with
  | Some s => s
  | None => "undefined"
  end.

(** Decimal numeral of a natural number, [`${n}`]. *)
Definition numeral (n : N) : string := NilEmpty.string_of_uint (N.to_uint n).

(** [`${+s + 1}`] for a stored suffix [s].  The map only ever holds the
    numerals written by the allocation loop, and they stay far below the
    first integer a double cannot hold, so the sum is exact.  A string
    that is not a decimal numeral is never stored; for it the model
    answers ["NaN"]. *)
Definition increment (s : string) : string :=
  match NilEmpty.uint_of_string s with
  | Some d => numeral (N.succ (N.of_uint d))
  | None => "NaN"
  end.

End Js.

(** The normalisation applied to heading texts and to fragments:
    [.replaceAll(" ", "_").replaceAll(":", "").replaceAll("__", "_")]. *)
Definition normalizeHeading (s : string) : string :=
  Js.replaceAll (Js.replaceAll (Js.replaceAll s " " "_") ":" "") "__" "_".


(** ** Collaborators outside the source

    [Path] (src/plugin/utils/path), the [Website] with its [Index], the
    host application and the slide renderer are not part of the source
    under study.  The model takes them as interfaces; every theorem below
    holds for all implementations. *)

Class PathApi := {
  Path : Type;
  Path_eq_dec :: EqDecision Path;
  (** the properties [path], [pathname], [extensionName], [basename] *)
  path_path : Path → string;
  path_pathname : Path → string;
  path_extensionName : Path → string;
  path_basename : Path → string;
  (** string conversion of a [Path], as in [this.targetPath + hrefValue] *)
  path_toString : Path → string;
  (** [new Path(s)] and the fluent methods; each returns the path it
      leaves in the receiver *)
  path_new : string → Path;
  path_slugify : Path → bool → Path;
  path_setExtension : Path → string → Path;
  path_setFileName : Path → string → Path;
  path_setWorkingDirectory : Path → string → Path;
  path_joinString : Path → list string → Path;
  (** [Path.getRelativePath(from, to)] *)
  path_getRelativePath : Path → Path → Path;
  (** [AssetHandler.libraryPath] *)
  libraryPath : Path;
}.

(** [TFile]: only its [path] is read. *)
Record TFile := { file_path : string }.

(** The export options read by the code under study. *)
Record ExportOptions := {
  relativeHeaderLinks : bool;
  slugifyPaths : bool;
}.

(** *** The document

    An element carries what the passes read and write: its tag name (upper
    case, as [tagName] reports it), its attributes other than [class], its
    class list, its text content and the position of its parent. *)
Record Element := {
  tagName : string;
  attributes : gmap string string;
  classList : list string;
  textContent : string;
  parentNode : option nat;
}.

Abbreviation Document := (list Element).

Definition getAttribute (e : Element) (name : string) : option string :=
  attributes e !! name.

Definition hasAttribute (e : Element) (name : string) : bool :=
  bool_decide (is_Some (attributes e !! name)).

Definition setAttribute (name value : string) (e : Element) : Element :=
  {| tagName := tagName e;
     attributes := <[name := value]> (attributes e);
     classList := classList e;
     textContent := textContent e;
     parentNode := parentNode e |}.

Definition classList_contains (e : Element) (cls : string) : bool :=
  bool_decide (cls ∈ classList e).

(** [el.classList.toggle(cls, force)] *)
Definition classList_toggle (cls : string) (force : bool) (e : Element) : Element :=
  {| tagName := tagName e;
     attributes := attributes e;
     classList :=
       if force
       then (if classList_contains e cls then classList e else classList e ++ [cls])
       else filter (λ c, c ≠ cls) (classList e);
     textContent := textContent e;
     parentNode := parentNode e |}.

(** The chain of ancestors of a node, nearest first, as positions. *)
Fixpoint ancestorsFrom (doc : Document) (fuel : nat) (p : option nat) : list nat :=
  match fuel, p with
  | S fuel', Some i =>
      match doc !! i with
      | Some e => i :: ancestorsFrom doc fuel' (parentNode e)
      | None => []
      end
  | _, _ => []
  end.

Definition ancestors (doc : Document) (e : Element) : list nat :=
  ancestorsFrom doc (length doc) (parentNode e).

Definition anyAt (doc : Document) (P : Element → bool) (ns : list nat) : bool :=
  existsb (λ i, from_option P false (doc !! i)) ns.

(** [doc.querySelectorAll(sel)]: the positions of the matching elements in
    document order. *)
Definition querySelectorAll (doc : Document) (sel : Document → Element → bool) : list nat :=
  filter (λ i, from_option (sel doc) false (doc !! i)) (seq 0 (length doc)).

Definition tagIs (t : string) (e : Element) : bool := String.eqb (tagName e) t.

(** The element lies below an element of class [obsidian-document] and
    not below the [head] element. *)
Definition inObsidianDocument (doc : Document) (e : Element) : bool :=
  anyAt doc (λ a, classList_contains a "obsidian-document") (ancestors doc e) &&
  negb (anyAt doc (tagIs "HEAD") (ancestors doc e)).

(** The selector of [srcLinkElements]: a [src] attribute, below
    [.obsidian-document], outside [head]. *)
Definition selSrc (doc : Document) (e : Element) : bool :=
  hasAttribute e "src" && inObsidianDocument doc e.

(** The selector of [hrefLinkElements]: an [href] attribute, below
    [.obsidian-document], outside [head]. *)
Definition selHref (doc : Document) (e : Element) : bool :=
  hasAttribute e "href" && inObsidianDocument doc e.

(** ["h1, h2, h3, h4, h5, h6"] *)
Definition selHeading (_ : Document) (e : Element) : bool :=
  bool_decide (tagName e ∈ ["H1"; "H2"; "H3"; "H4"; "H5"; "H6"]).

Definition selIframe (_ : Document) (e : Element) : bool := tagIs "IFRAME" e.
Definition selModelViewer (_ : Document) (e : Element) : bool := tagIs "MODEL-VIEWER" e.
Definition selButton (_ : Document) (e : Element) : bool := tagIs "BUTTON" e.

Section Model.

Context {paths : PathApi}.

(** Modelled from the spec: the [Attachment] class (src/plugin/utils/downloadable
    is absent).  An attachment is one exportable artifact with a payload, a
    source location that may be missing and a target location.  [att_ref]
    is the identity of the object: two objects differ in it, so that to
    find a record in a list is to find the object, as [Array.includes]
    does. *)
Record Attachment := {
  att_ref : nat;
  att_data : string;
  att_targetPath : Path;
  att_sourcePath : option string;
}.

#[export] Instance Attachment_eq_dec : EqDecision Attachment.
Proof. solve_decision. Defined.

(** [this.website]: the resolver of a reference against the source file
    ([getFilePathFromSrc]), the Index lookup ([index.getFile]) and the
    destination folder. *)
Record Website := {
  getFilePathFromSrc : string → string → Path;
  index_getFile : string → bool → option Attachment;
  destination : Path;
}.

(** *** The page *)
Record Webpage := {
  source : TFile;
  targetPath : Path;
  website : Website;
  exportOptions : ExportOptions;
  pageDocument : Document;
  headerMap : gmap string string;
  attachments : list Attachment;
}.

Definition withDocument (this : Webpage) (doc : Document) (hm : gmap string string) : Webpage :=
  {| source := source this; targetPath := targetPath this; website := website this;
     exportOptions := exportOptions this; pageDocument := doc; headerMap := hm;
     attachments := attachments this |}.

Definition withAttachments (this : Webpage) (atts : list Attachment) : Webpage :=
  {| source := source this; targetPath := targetPath this; website := website this;
     exportOptions := exportOptions this; pageDocument := pageDocument this;
     headerMap := headerMap this; attachments := atts |}.

(** [srcLinkElements] (lines 477-481) and [hrefLinkElements] (482-486) *)
Definition srcLinkElements (doc : Document) : list nat :=
  filter
    (λ i, from_option
            (λ el, negb (tagIs "IFRAME" el &&
                         bool_decide (getAttribute el "data-advanced-slides-embed" = Some "true")))
            false (doc !! i))
    (querySelectorAll doc selSrc).

Definition hrefLinkElements (doc : Document) : list nat :=
  querySelectorAll doc selHref.

(** ** [Webpage.resolveLink] (lines 1042-1112) *)
Definition resolveLink (this : Webpage) (link : option string) (linkEl : Element)
    (preferAttachment : bool) : option string :=
  if negb (Js.truthy link) then Some ""
  else
    (* from here on [link] is a string, and not the empty one *)
    let link := default "" link in
    if negb (Js.startsWith link "app://") && Js.schemeRegexExec link then None
    else if Js.startsWith link "data:" then None
    else if Js.startsWith link "?" then None
    else if Js.startsWith link "mailto:" then None
    else if Js.startsWith link "#" then
      let headerText :=
        Js.substring1 (normalizeHeading (default link (getAttribute linkEl "data-href"))) in
      match headerMap this !! headerText with
      | Some suffix =>
          let hrefValue := "#" +:+ headerText +:+ "_" +:+ suffix in
          if relativeHeaderLinks (exportOptions this) then Some hrefValue
          else Some (path_toString (targetPath this) +:+ hrefValue)
      | None => Some link
      end
    else
      let querySplit := Js.split link "?" in
      let hashSplit := Js.split (default "" (querySplit !! 0)) "#" in
      let path := default "" (hashSplit !! 0) in
      let hash := Js.trim <$> hashSplit !! 1 in
      let query := Js.trim <$> querySplit !! 1 in
      let attachmentPath :=
        getFilePathFromSrc (website this) path (file_path (source this)) in
      match index_getFile (website this) (path_pathname attachmentPath) preferAttachment with
      | None =>
          let resolved :=
            path_setExtension
              (path_slugify attachmentPath (slugifyPaths (exportOptions this))) "html" in
          let resolvedPath := path_path resolved in
          let resolvedPath :=
            if Js.truthy query then resolvedPath +:+ "?" +:+ Js.toStr query else resolvedPath in
          let resolvedPath :=
            if Js.truthy hash then resolvedPath +:+ "#" +:+ Js.toStr hash else resolvedPath in
          Some resolvedPath
      | Some attachment =>
          let finalHash :=
            match hash with
            | Some EmptyString => ""
            | _ => "#" +:+ Js.toStr hash
            end in
          let finalHash :=
            if String.eqb (path_extensionName (att_targetPath attachment)) "html" then
              let headerText := Js.substring1 (normalizeHeading finalHash) in
              match headerMap this !! headerText with
              | Some headerId => "#" +:+ headerText +:+ "_" +:+ headerId
              | None => finalHash
              end
            else finalHash in
          let finalPath := path_path (att_targetPath attachment) in
          let finalPath :=
            if Js.truthy query then finalPath +:+ "?" +:+ Js.toStr query else finalPath in
          let finalPath :=
            if Js.truthy (Some finalHash) then finalPath +:+ finalHash else finalPath in
          Some finalPath
      end.

(** ** [Webpage.remapLinks] (lines 1115-1175) *)

(** The text a heading is filed under (line 1121). *)
Definition headingText (headerEl : Element) : string :=
  normalizeHeading (default (textContent headerEl) (getAttribute headerEl "data-heading")).

(** The body of the [forEach] over the headings (lines 1120-1135). *)
Definition allocateHeading (st : Document * gmap string string) (i : nat)
    : Document * gmap string string :=
  match st.1 !! i with
  | None => st
  | Some headerEl =>
      let headerText := headingText headerEl in
      let headerId :=
        match st.2 !! headerText with
        | Some old => if Js.truthy (Some old) then Js.increment old else "0"
        | None => "0"
        end in
      (alter (setAttribute "id" (headerText +:+ "_" +:+ headerId)) i st.1,
       <[headerText := headerId]> st.2)
  end.

Definition allocateHeadings (this : Webpage) : Webpage :=
  let st :=
    foldl allocateHeading (pageDocument this, headerMap this)
      (querySelectorAll (pageDocument this) selHeading) in
  withDocument this st.1 st.2.

(** The body of the loop over the links (lines 1138-1144). *)
Definition remapLink (this : Webpage) (link : Element) : Element :=
  let href := getAttribute link "href" in
  let newHref := resolveLink this href link false in
  let link := setAttribute "href" (default (default "" href) newHref) link in
  let link := setAttribute "target" "_self" link in
  classList_toggle "is-unresolved" (negb (Js.truthy newHref)) link.

Definition forEachElement (f : Element → Element) (doc : Document) (ns : list nat) : Document :=
  foldl (λ d i, alter f i d) doc ns.

(** The text of the [onclick] attribute (lines 1157-1170). *)
Definition openInBrowserOnclick : string := "
							const iframe = this.closest('.relative-iframe-container').querySelector('iframe');
							const src = iframe.getAttribute('src');
							if (src) {
								// Create a temporary link and click it to open in new window
								const tempLink = document.createElement('a');
								tempLink.href = src;
								tempLink.target = '_blank';
								tempLink.rel = 'noopener noreferrer';
								document.body.appendChild(tempLink);
								tempLink.click();
								document.body.removeChild(tempLink);
							}
						".

(** [button.closest('.relative-iframe-container')] *)
Definition closestIframeContainer (doc : Document) (i : nat) : option nat :=
  match doc !! i with
  | Some e =>
      head (filter
              (λ j, from_option (λ a, classList_contains a "relative-iframe-container")
                      false (doc !! j))
              (i :: ancestors doc e))
  | None => None
  end.

(** [container.querySelector('iframe')] finds something. *)
Definition containsIframe (doc : Document) (container : nat) : bool :=
  existsb
    (λ e, tagIs "IFRAME" e && bool_decide (container ∈ ancestors doc e))
    doc.

(** The body of the loop over the buttons (lines 1148-1174).  The first
    label of the test has code units above 255 and never equals a string
    of the model; the second is ["Open in Browser"]. *)
Definition remapButton (doc : Document) (i : nat) : Document :=
  match doc !! i with
  | Some button =>
      if String.eqb (textContent button) "Open in Browser" then
        match closestIframeContainer doc i with
        | Some container =>
            if containsIframe doc container
            then alter (setAttribute "onclick" openInBrowserOnclick) i doc
            else doc
        | None => doc
        end
      else doc
  | None => doc
  end.

Definition remapLinks (this : Webpage) : Webpage :=
  let this := allocateHeadings this in
  let doc := pageDocument this in
  let doc := forEachElement (remapLink this) doc (hrefLinkElements doc) in
  let doc := foldl remapButton doc (querySelectorAll doc selButton) in
  withDocument this doc (headerMap this).

(** ** [Webpage.remapEmbedLinks] (lines 1177-1209) *)

(** Lines 1182-1186 and 1193-1197. *)
Definition remapSrc (this : Webpage) (link : Element) : Element :=
  let src := getAttribute link "src" in
  let newSrc := resolveLink this src link true in
  let link := setAttribute "src" (default (default "" src) newSrc) link in
  let link := setAttribute "target" "_self" link in
  classList_toggle "is-unresolved" (negb (Js.truthy newSrc)) link.

(** Lines 1204-1207. *)
Definition remapModelViewer (this : Webpage) (modelViewer : Element) : Element :=
  let src := getAttribute modelViewer "src" in
  let newSrc := resolveLink this src modelViewer true in
  let modelViewer := setAttribute "src" (default (default "" src) newSrc) modelViewer in
  classList_toggle "is-unresolved" (negb (Js.truthy newSrc)) modelViewer.

Definition remapEmbedLinks (this : Webpage) : Webpage :=
  let doc := pageDocument this in
  let doc := forEachElement (remapSrc this) doc (srcLinkElements doc) in
  let doc := forEachElement (remapSrc this) doc (querySelectorAll doc selIframe) in
  let doc := forEachElement (remapModelViewer this) doc (querySelectorAll doc selModelViewer) in
  withDocument this doc (headerMap this).

End Model.

(** ** Slide embeds: [processEmbed] (lines 881-909)

    The renderer of the slides plugin and the host's file system adapter
    are collaborators.  The renderer may answer differently from one call
    to the next, so it carries a state of its own.  A page number is a
    JavaScript number of which only its string form is used.
    [rewriteAdvancedSlidesHtml] (lines 752-825) works on a fragment parsed
    by the browser and registers attachments through the [Website]; it
    never reads or writes the embed cache and never calls the renderer, so
    it appears here through its result: the rewritten text and the
    attachment list it leaves in the page. *)
Class SlidesHost {paths : PathApi} := {
  JsNumber : Type;
  numberToString : JsNumber → string;
  RendererState : Type;
  (** [renderer.renderFile(absPath, { embed: true })] *)
  renderFile : RendererState → string → option string * RendererState;
  (** [adapter.getFullPath] when the adapter is a [FileSystemAdapter] *)
  getFullPath : option (string → string);
  rewriteAdvancedSlidesHtml : Webpage → string → Path → TFile → string * list Attachment;
}.

Section Embeds.

Context {paths : PathApi} {host : SlidesHost}.

(** One call of [renderFile], kept for counting: the cache key it was made
    for, the path it was given, and whether it returned HTML. *)
Record RenderCall := {
  call_key : string;
  call_absPath : string;
  call_returnedHtml : bool;
}.

(** What the pages of one export run share: the static
    [advancedSlidesEmbedCache] (line 61), the renderer, the warnings
    logged, and the supply of fresh object identities. *)
Record ExportRun := {
  advancedSlidesEmbedCache : gmap string Attachment;
  renderer : RendererState;
  renderLog : list RenderCall;
  warnings : list string;
  nextRef : nat;
}.

(** [`${slideFile.path}#page=${page}`] (line 882) *)
Definition cacheKey (slideFile : TFile) (page : JsNumber) : string :=
  file_path slideFile +:+ "#page=" +:+ numberToString page.

(** [getAdvancedSlidesEmbedTargetPath] (lines 742-750) *)
Definition getAdvancedSlidesEmbedTargetPath (this : Webpage) (slideFile : TFile)
    (page : JsNumber) : Path :=
  let slidePath := path_new (file_path slideFile) in
  let embedRoot := path_joinString libraryPath ["advanced-slides"; "embeds"] in
  let target :=
    path_setWorkingDirectory
      (path_joinString embedRoot [path_path slidePath])
      (path_path (destination (website this))) in
  let target := path_setExtension target "html" in
  path_setFileName target (path_basename target +:+ "-page-" +:+ numberToString page).

(** Lines 903-908: the page takes the attachment and the iframe points at it. *)
Definition attachEmbed (this : Webpage) (embedAttachment : Attachment) (iframe : Element)
    : Webpage * Element :=
  let this :=
    if bool_decide (embedAttachment ∈ attachments this) then this
    else withAttachments this (attachments this ++ [embedAttachment]) in
  let iframeSrc :=
    Js.replaceAll
      (path_path (path_getRelativePath (targetPath this) (att_targetPath embedAttachment)))
      "\" "/" in
  let iframe := setAttribute "src" iframeSrc iframe in
  let iframe := setAttribute "loading" "lazy" iframe in
  let iframe := setAttribute "data-advanced-slides-embed" "true" iframe in
  (this, iframe).

(** The body of [processEmbed] from its first line to its last (lines
    882-908): what one call does when no other call runs while it is
    suspended.  Its pieces, between which other calls can run, follow. *)
Definition processEmbed (run : ExportRun) (this : Webpage) (slideFile : TFile)
    (page : JsNumber) (iframe : Element) : ExportRun * (Webpage * Element) :=
  let key := cacheKey slideFile page in
  match advancedSlidesEmbedCache run !! key with
  | Some embedAttachment => (run, attachEmbed this embedAttachment iframe)
  | None =>
      let absPath :=
        match getFullPath with
        | Some full => full (file_path slideFile)
        | None => file_path slideFile
        end in
      let (html, renderer') := renderFile (renderer run) absPath in
      let call :=
        {| call_key := key; call_absPath := absPath; call_returnedHtml := Js.truthy html |} in
      if negb (Js.truthy html) then
        ({| advancedSlidesEmbedCache := advancedSlidesEmbedCache run;
            renderer := renderer';
            renderLog := renderLog run ++ [call];
            warnings :=
              warnings run ++
              ["Advanced Slides embed rendering failed for " +:+ file_path slideFile];
            nextRef := nextRef run |},
         (this, iframe))
      else
        let targetPath := getAdvancedSlidesEmbedTargetPath this slideFile page in
        let (rewritten, atts) :=
          rewriteAdvancedSlidesHtml this (Js.toStr html) targetPath slideFile in
        let embedAttachment :=
          {| att_ref := nextRef run; att_data := rewritten;
             att_targetPath := targetPath; att_sourcePath := None |} in
        ({| advancedSlidesEmbedCache :=
              <[key := embedAttachment]> (advancedSlidesEmbedCache run);
            renderer := renderer';
            renderLog := renderLog run ++ [call];
            warnings := warnings run;
            nextRef := S (nextRef run) |},
         attachEmbed (withAttachments this atts) embedAttachment iframe)
  end.

(** [processEmbed] is an async function.  A call that misses the cache is
    suspended twice, at [await renderer.renderFile] (line 892) and at
    [await this.rewriteAdvancedSlidesHtml] (line 898), and while it is
    suspended the calls made for other pages run.  What a suspended call
    waits for: the answer of [renderFile], or the rewritten fragment for
    the target path it has computed. *)
Inductive Suspended :=
  | AtRenderFile (html : option string)
  | AtRewrite (targetPath : Path) (rewritten : string).

(** A suspended call: the variables of its closure and where it stopped. *)
Record EmbedCall := {
  embed_this : Webpage;
  embed_slideFile : TFile;
  embed_page : JsNumber;
  embed_iframe : Element;
  embed_at : Suspended;
}.

(** Lines 882-892: a call of [processEmbed] up to its first [await], or
    to its end when the cache holds the key.  The cache is read here. *)
Definition embedBegin (run : ExportRun) (this : Webpage) (slideFile : TFile)
    (page : JsNumber) (iframe : Element) : ExportRun * (EmbedCall + Webpage * Element) :=
  let key := cacheKey slideFile page in
  match advancedSlidesEmbedCache run !! key with
  | Some embedAttachment => (run, inr (attachEmbed this embedAttachment iframe))
  | None =>
      let absPath :=
        match getFullPath with
        | Some full => full (file_path slideFile)
        | None => file_path slideFile
        end in
      let (html, renderer') := renderFile (renderer run) absPath in
      let call :=
        {| call_key := key; call_absPath := absPath; call_returnedHtml := Js.truthy html |} in
      ({| advancedSlidesEmbedCache := advancedSlidesEmbedCache run;
          renderer := renderer';
          renderLog := renderLog run ++ [call];
          warnings := warnings run;
          nextRef := nextRef run |},
       inl {| embed_this := this; embed_slideFile := slideFile; embed_page := page;
              embed_iframe := iframe; embed_at := AtRenderFile html |})
  end.

(** Lines 893-908: a suspended call from where it stopped to its next
    [await], or to its end.  The cache is written at the end (line 900),
    in the state of the run at that time. *)
Definition embedResume (run : ExportRun) (call : EmbedCall)
    : ExportRun * (EmbedCall + Webpage * Element) :=
  let this := embed_this call in
  let slideFile := embed_slideFile call in
  let page := embed_page call in
  let iframe := embed_iframe call in
  match embed_at call with
  | AtRenderFile html =>
      if negb (Js.truthy html) then
        ({| advancedSlidesEmbedCache := advancedSlidesEmbedCache run;
            renderer := renderer run;
            renderLog := renderLog run;
            warnings :=
              warnings run ++
              ["Advanced Slides embed rendering failed for " +:+ file_path slideFile];
            nextRef := nextRef run |},
         inr (this, iframe))
      else
        let targetPath := getAdvancedSlidesEmbedTargetPath this slideFile page in
        let (rewritten, atts) :=
          rewriteAdvancedSlidesHtml this (Js.toStr html) targetPath slideFile in
        (run,
         inl {| embed_this := withAttachments this atts; embed_slideFile := slideFile;
                embed_page := page; embed_iframe := iframe;
                embed_at := AtRewrite targetPath rewritten |})
  | AtRewrite targetPath rewritten =>
      let embedAttachment :=
        {| att_ref := nextRef run; att_data := rewritten;
           att_targetPath := targetPath; att_sourcePath := None |} in
      ({| advancedSlidesEmbedCache :=
            <[cacheKey slideFile page := embedAttachment]> (advancedSlidesEmbedCache run);
          renderer := renderer run;
          renderLog := renderLog run;
          warnings := warnings run;
          nextRef := S (nextRef run) |},
       inr (attachEmbed this embedAttachment iframe))
  end.

(** An export run with the pages built side by side: the shared state,
    the calls of [processEmbed] that are suspended, and what the calls
    that have ended returned, in the order in which they ended. *)
Record Session := {
  shared : ExportRun;
  suspended : list EmbedCall;
  finished : list (Webpage * Element);
}.

(** The session after a piece of a call has run: the call is suspended
    again, or it has ended. *)
Definition settle (s : Session) (others : list EmbedCall)
    (outcome : ExportRun * (EmbedCall + Webpage * Element)) : Session :=
  match outcome.2 with
  | inl call =>
      {| shared := outcome.1; suspended := others ++ [call]; finished := finished s |}
  | inr result =>
      {| shared := outcome.1; suspended := others; finished := finished s ++ [result] |}
  end.

(** One step of an export run: some page starts a call of [processEmbed],
    or some suspended call goes on.  The scheduler picks any of them. *)
Inductive embedStep : Session → Session → Prop :=
  | embedStep_begin s this slideFile page iframe :
      embedStep s (settle s (suspended s) (embedBegin (shared s) this slideFile page iframe))
  | embedStep_resume s (k : nat) call :
      suspended s !! k = Some call →
      embedStep s (settle s (delete k (suspended s)) (embedResume (shared s) call)).

(** The state in which a run starts: nothing cached, nothing rendered. *)
Definition freshRun (r : RendererState) : ExportRun :=
  {| advancedSlidesEmbedCache := ∅; renderer := r; renderLog := [];
     warnings := []; nextRef := 0 |}.

(** A session in which no call is under way. *)
Definition idle (run : ExportRun) : Session :=
  {| shared := run; suspended := []; finished := [] |}.

(** The calls of [renderFile] made for a [(document, page)] pair, and those
    among them that returned HTML. *)
Definition rendersFor (run : ExportRun) (slideFile : TFile) (page : JsNumber)
    : list RenderCall :=
  filter (λ c, call_key c = cacheKey slideFile page) (renderLog run).

Definition successfulRendersFor (run : ExportRun) (slideFile : TFile) (page : JsNumber)
    : list RenderCall :=
  filter (λ c, call_returnedHtml c = true) (rendersFor run slideFile page).

End Embeds.


(** ** Further JavaScript primitives, used by the rest of the page code *)

Module JsMore.

(** [s.endsWith(p)] *)
Fixpoint endsWith (s p : string) : bool :=
  String.eqb s p ||
  match s with
  | String _ s' => endsWith s' p
  | EmptyString => false
  end.

(** [s.toLowerCase()] on code units below 256: the letters A-Z and the
    accented capitals of Latin-1. *)
Definition toLowerChar (c : ascii) : ascii :=
  let n := N_of_ascii c in
  if ((65 <=? n) && (n <=? 90) || (192 <=? n) && (n <=? 214) || (216 <=? n) && (n <=? 222))%N
  then ascii_of_N (n + 32)
  else c.

Fixpoint toLowerCase (s : string) : string :=
  match s with
  | EmptyString => EmptyString
  | String c s' => String (toLowerChar c) (toLowerCase s')
  end.

(** [s.substring(a, b)] for indices that are not negative: both are
    capped at the length and taken in increasing order. *)
Definition substring (s : string) (a b : nat) : string :=
  let a := a `min` String.length s in
  let b := b `min` String.length s in
  String.substring (a `min` b) ((a `max` b) - (a `min` b)) s.

(** The value of a digit in a radix, if it is one. *)
Definition digitValue (radix : N) (c : ascii) : option N :=
  let n := N_of_ascii c in
  let v :=
    if ((48 <=? n) && (n <=? 57))%N then Some (n - 48)%N
    else if ((97 <=? n) && (n <=? 102))%N then Some (n - 87)%N
    else if ((65 <=? n) && (n <=? 70))%N then Some (n - 55)%N
    else None in
  match v with
  | Some d => if (d <? radix)%N then Some d else None
  | None => None
  end.

(** The value of the longest run of digits a text starts with, on top of
    what has been read; [None] when [seen] is false and there is no digit. *)
Fixpoint parseDigits (radix : N) (seen : bool) (acc : N) (s : string) : option N :=
  match s with
  | String c s' =>
      match digitValue radix c with
      | Some d => parseDigits radix true (acc * radix + d) s'
      | None => if seen then Some acc else None
      end
  | EmptyString => if seen then Some acc else None
  end.

(** [Number.parseInt(s)] without a radix: leading white space, a sign, a
    [0x] prefix for radix 16, then the longest run of digits; [None] is
    [NaN].  The value is the exact integer, which is what JavaScript
    returns for a value below 2^53. *)
Definition parseInt (s : string) : option Z :=
  let s := Js.trimStart s in
  let (negative, s) :=
    match s with
    | String "-" r => (true, r)
    | String "+" r => (false, r)
    | _ => (false, s)
    end in
  let (radix, s) :=
    if Js.startsWith s "0x" || Js.startsWith s "0X"
    then (16%N, Js.substring1 (Js.substring1 s))
    else (10%N, s) in
  match parseDigits radix false 0 s with
  | Some n => Some (if negative then (- Z.of_N n)%Z else Z.of_N n)
  | None => None
  end.

End JsMore.

(** ** Tags (lines 212-250) *)

(** The [tags] entry of the frontmatter: a falsy value (none, [null],
    the empty string, zero, [false]), another value that is not an array,
    or an array.  A value that is not falsy stands for the string
    [String(value)] makes of it. *)
Inductive FrontmatterTags :=
  | TagsFalsy
  | TagsScalar (tag : string)
  | TagsArray (tags : list string).

(** [frontmatterTags] (lines 222-238) *)
Definition frontmatterTags (fm : FrontmatterTags) : list string :=
  let tags :=
    match fm with
    | TagsFalsy => []
    | TagsScalar tag => [tag]
    | TagsArray tags => tags
    end in
  (λ tag, if Js.startsWith tag "#" then tag else "#" +:+ tag) <$> tags.

(** [tags.indexOf(tag)] *)
Definition indexOf (tags : list string) (tag : string) : option nat :=
  fst <$> list_find (λ t, t = tag) tags.

(** [allTags] (lines 212-220): [inlineTags] are the tags of the file
    cache, in the order the cache gives them. *)
Definition allTags (fm : FrontmatterTags) (inlineTags : list string) : list string :=
  let tags := frontmatterTags fm ++ inlineTags in
  omap (λ '(index, tag), if decide (indexOf tags tag = Some index) then Some tag else None)
       (imap pair tags).

(** ** Slide embeds: reading the directive *)

(** [hash.replace(/^#\/?/, "")] *)
Definition stripHashSlash (hash : string) : string :=
  match hash with
  | String "#" (String "/" rest) => rest
  | String "#" rest => rest
  | _ => hash
  end.

(** [parseAdvancedSlidesPageFromHash] (lines 695-702) *)
Definition parseAdvancedSlidesPageFromHash (hash : string) : Z :=
  if negb (Js.truthy (Some hash)) then 0%Z
  else
    let cleaned := stripHashSlash hash in
    let parts := Js.split cleaned "/" in
    match JsMore.parseInt (default "" (parts !! 0)) with
    | Some page => page
    | None => 0%Z
    end.

(** [candidates.sort((a, b) => a.path.length - b.path.length)]: the sort
    is stable. *)
Fixpoint insertByPathLength (f : TFile) (l : list TFile) : list TFile :=
  match l with
  | [] => [f]
  | g :: l' =>
      if String.length (file_path f) <=? String.length (file_path g)
      then f :: g :: l'
      else g :: insertByPathLength f l'
  end.

Definition sortByPathLength (l : list TFile) : list TFile :=
  foldr insertByPathLength [] l.

(** The vault of the host application, as far as
    [resolveAdvancedSlidesFileFromSlide] asks it. *)
Class VaultApi := {
  vault_getFileByPath : string → option TFile;
  metadataCache_getFirstLinkpathDest : string → string → option TFile;
  vault_getFiles : list TFile;
}.

Section SlideFile.

Context {vault : VaultApi}.

(** The path a slide directive names: trimmed, and taken out of
    [[[ ]]] when it is written as a wiki link (lines 707-710). *)
Definition slidePathOf (slide : string) : string :=
  let slidePath := Js.trim slide in
  if Js.startsWith slidePath "[[" && JsMore.endsWith slidePath "]]"
  then Js.trim (JsMore.substring slidePath 2 (String.length slidePath - 2))
  else slidePath.

(** The files whose path is the slide path or ends with it (lines 729-732). *)
Definition slideCandidates (slidePath : string) : list TFile :=
  filter
    (λ f,
       let normalized := Js.replaceAll (file_path f) "\" "/" in
       normalized = slidePath ∨
       JsMore.endsWith normalized ("/" +:+ slidePath) = true ∨
       JsMore.endsWith normalized ("/" +:+ slidePath +:+ ".md") = true)
    vault_getFiles.

(** [resolveAdvancedSlidesFileFromSlide] (lines 704-740).  [getTFile] is
    [plugin?.obsidianUtils?.getTFile]; a call of it that throws counts as
    one that finds nothing.  [sourcePath] is [this.source.path]. *)
Definition resolveAdvancedSlidesFileFromSlide (sourcePath : string) (slide : string)
    (getTFile : option (string → option TFile)) : option TFile :=
  if negb (Js.truthy (Some slide)) then None
  else
    let slidePath := slidePathOf slide in
    match getTFile ≫= (λ get, get slidePath) with
    | Some pluginFile => Some pluginFile
    | None =>
        let file := vault_getFileByPath slidePath in
        let file :=
          match file with
          | None =>
              if negb (JsMore.endsWith (JsMore.toLowerCase slidePath) ".md")
              then vault_getFileByPath (slidePath +:+ ".md")
              else None
          | Some _ => file
          end in
        let file :=
          match file with
          | None => metadataCache_getFirstLinkpathDest slidePath sourcePath
          | Some _ => file
          end in
        match file with
        | None =>
            let candidates := slideCandidates slidePath in
            match candidates with
            | [] => None
            | [only] => Some only
            | _ => head (sortByPathLength candidates)
            end
        | Some _ => file
        end
    end.

End SlideFile.

(** ** Slide embeds: asset references of the rendered fragment *)

(** [assetBase] (line 757) *)
Definition assetBaseOf (assetPrefix : string) : string :=
  if JsMore.endsWith assetPrefix "/" then assetPrefix else assetPrefix +:+ "/".

(** [value.replace(/^\/?folder\//, "folder/")]: a slash before the folder
    name at the start of the text is dropped. *)
Definition dropLeadingSlash (value folder : string) : string :=
  if Js.startsWith value ("/" +:+ folder +:+ "/") then Js.substring1 value else value.

(** [replaceAssetPath] (lines 759-764) *)
Definition replaceAssetPath (assetBase value : string) : string :=
  if Js.startsWith value "/dist/" || Js.startsWith value "dist/"
  then assetBase +:+ dropLeadingSlash value "dist"
  else if Js.startsWith value "/plugin/" || Js.startsWith value "plugin/"
  then assetBase +:+ dropLeadingSlash value "plugin"
  else if Js.startsWith value "/css/" || Js.startsWith value "css/"
  then assetBase +:+ dropLeadingSlash value "css"
  else value.

(** The test under which the second loop over the [src] attributes passes
    an element by (lines 795-797). *)
Definition embedSrcIsSkipped (assetBase : string) (src : option string) : bool :=
  negb (Js.truthy src) ||
  let src := default "" src in
  Js.startsWith src "http" || Js.startsWith src "data:" || Js.startsWith src "mailto:" ||
  Js.startsWith src assetBase || Js.startsWith src "dist/" || Js.startsWith src "plugin/" ||
  Js.startsWith src "css/".

(** ** [getAttachments]: the loop over the sources (lines 1014-1039)

    [createAttachmentFromSrc] belongs to the [Website]; it may register
    what it creates, so the Index is read through the state of the world
    it leaves. *)
Class AttachmentStore {paths : PathApi} := {
  World : Type;
  (** [this.website.index.getFile(sourcePath)] *)
  world_getFile : World → string → option Attachment;
  (** [this.website.createAttachmentFromSrc(src, this.source)] *)
  world_createAttachmentFromSrc : World → string → TFile → option Attachment * World;
}.

Section Attachments.

Context {paths : PathApi} {store : AttachmentStore}.

(** [srcLinks] (lines 467-471) *)
Definition srcLinks (doc : Document) : list string :=
  omap (λ i, doc !! i ≫= λ el, getAttribute el "src") (srcLinkElements doc).

(** [hrefLinks] (lines 472-476) *)
Definition hrefLinks (doc : Document) : list string :=
  omap (λ i, doc !! i ≫= λ el, getAttribute el "href") (hrefLinkElements doc).

(** The test of lines 1017-1018: a URL other than [app://], or a data URL. *)
Definition isForeignSrc (src : string) : bool :=
  negb (Js.startsWith src "app://") && Js.schemeRegexExec src || Js.startsWith src "data:".

(** The attachments of the page, the world and the messages logged. *)
Record Collecting := {
  collected : list Attachment;
  world : World;
  logged : list string;
}.

(** The three places an attachment is looked for, in turn (lines
    1025-1027): the attachments of the page, the Index, and the creator,
    which is called only when the first two have nothing. *)
Definition findAttachment (this : Webpage) (st : Collecting) (src : string)
    : option Attachment * World :=
  let resolvedPath := getFilePathFromSrc (website this) src (file_path (source this)) in
  let sourcePath := path_pathname resolvedPath in
  match head (filter (λ a, att_sourcePath a = Some sourcePath) (collected st)) with
  | Some attachment => (Some attachment, world st)
  | None =>
      match world_getFile (world st) sourcePath with
      | Some attachment => (Some attachment, world st)
      | None => world_createAttachmentFromSrc (world st) src (source this)
      end
  end.

(** [ExportLog.log("Attachment source not found: " + src)] *)
Definition notFound (src : string) : string := "Attachment source not found: " +:+ src.

(** The body of the loop (lines 1017-1036). *)
Definition collectSrc (this : Webpage) (st : Collecting) (src : string) : Collecting :=
  if isForeignSrc src then st
  else
    let resolvedPath := getFilePathFromSrc (website this) src (file_path (source this)) in
    let sourcePath := path_pathname resolvedPath in
    let found := findAttachment this st src in
    match found.1 with
    | Some attachment =>
        if negb (Js.truthy (Some sourcePath)) then
          {| collected := collected st; world := found.2;
             logged := logged st ++ [notFound src] |}
        else if bool_decide (attachment ∈ collected st) then
          {| collected := collected st; world := found.2; logged := logged st |}
        else
          {| collected := collected st ++ [attachment]; world := found.2;
             logged := logged st |}
    | None =>
        {| collected := collected st; world := found.2;
           logged := logged st ++ [notFound src] |}
    end.

Definition collectSrcAttachments (this : Webpage) (w : World) : Collecting :=
  foldl (collectSrc this)
    {| collected := attachments this; world := w; logged := [] |}
    (srcLinks (pageDocument this)).

End Attachments.

(** ** The sidebars of the exported site ([src/frontend/main/sidebars.ts])

    [ObsidianSite] holds the size class of the device and the two
    sidebars; [document.body] holds the click listeners the sidebars
    register.  A sidebar is named by its side. *)
Module Sidebar.

Inductive Side := Left | Right.

#[export] Instance Side_eq_dec : EqDecision Side.
Proof. solve_decision. Defined.

Definition other (side : Side) : Side :=
  match side with
  | Left => Right
  | Right => Left
  end.

(** The fields of a [Sidebar] that the setter of [collapsed] reads and
    writes.  [_collapsed] is declared without a value: it is [undefined]
    until the setter runs.  [_isLeft] is what [isLeft] returns. *)
Record State := {
  _collapsed : option bool;
  _isLeft : bool;
  containerEl : Element;
}.

(** The constructor, for these fields (lines 98 and 112): [_isLeft] says
    whether the id of the container is [left-sidebar], whatever slot of
    [ObsidianSite] the sidebar is put in.  [container.id] is the empty
    string when the attribute is missing. *)
Definition create (container : Element) : State :=
  {| _collapsed := None;
     _isLeft := String.eqb (default "" (getAttribute container "id")) "left-sidebar";
     containerEl := container |}.

(** The slot whose sidebar a sidebar closes when it is opened on a phone
    (lines 38-46): [ObsidianSite.rightSidebar] if [this.isLeft], and
    [ObsidianSite.leftSidebar] if not. *)
Definition closes (sb : State) : Side :=
  if _isLeft sb then Right else Left.

Record Site := {
  deviceSize : string;
  leftSidebar : option State;
  rightSidebar : option State;
  (** the sidebars whose [clickOutsideCollapse] listens to clicks on the body *)
  bodyClickListeners : list Side;
}.

Definition sidebar (site : Site) (side : Side) : option State :=
  match side with
  | Left => leftSidebar site
  | Right => rightSidebar site
  end.

Definition withSidebar (site : Site) (side : Side) (sb : State) : Site :=
  match side with
  | Left =>
      {| deviceSize := deviceSize site; leftSidebar := Some sb;
         rightSidebar := rightSidebar site; bodyClickListeners := bodyClickListeners site |}
  | Right =>
      {| deviceSize := deviceSize site; leftSidebar := leftSidebar site;
         rightSidebar := Some sb; bodyClickListeners := bodyClickListeners site |}
  end.

Definition withListeners (site : Site) (listeners : list Side) : Site :=
  {| deviceSize := deviceSize site; leftSidebar := leftSidebar site;
     rightSidebar := rightSidebar site; bodyClickListeners := listeners |}.

(** [document.body.removeEventListener("click", this.clickOutsideCollapse)] *)
Definition removeListener (side : Side) (site : Site) : Site :=
  withListeners site (filter (λ s, s ≠ side) (bodyClickListeners site)).

(** [document.body.addEventListener("click", this.clickOutsideCollapse)]:
    a listener that is registered already is not registered again. *)
Definition addListener (side : Side) (site : Site) : Site :=
  if bool_decide (side ∈ bodyClickListeners site) then site
  else withListeners site (bodyClickListeners site ++ [side]).

(** [!sidebar.collapsed] *)
Definition notCollapsed (sb : State) : bool :=
  match _collapsed sb with
  | Some true => false
  | _ => true
  end.

(** The setter of [collapsed] (lines 22-63), run on the sidebar that sits
    in the slot [this] of [ObsidianSite].  Opening a sidebar on a phone
    runs the setter of the sidebar in the slot that [isLeft] selects;
    [fuel] bounds the depth of such calls, and [None] means it ran out.
    The setter is a method: on a slot without a sidebar there is nothing
    to run. *)
Fixpoint setCollapsed (fuel : nat) (site : Site) (this : Side) (collapse : bool)
    : option Site :=
  match fuel with
  | O => None
  | S fuel =>
      match sidebar site this with
      | None => Some site
      | Some sb =>
          if bool_decide (_collapsed sb = Some collapse) then Some site
          else
            let site :=
              withSidebar site this
                {| _collapsed := Some collapse; _isLeft := _isLeft sb;
                   containerEl := containerEl sb |} in
            let isPhone := String.eqb (deviceSize site) "phone" in
            let isTablet := String.eqb (deviceSize site) "tablet" in
            let after :=
              if negb collapse then
                let closed :=
                  if isPhone then
                    match sidebar site (closes sb) with
                    | Some o =>
                        if notCollapsed o then setCollapsed fuel site (closes sb) true
                        else Some site
                    | None => Some site
                    end
                  else Some site in
                (λ site,
                   if isPhone || isTablet then addListener this (removeListener this site)
                   else site) <$> closed
              else Some (removeListener this site) in
            (λ site,
               match sidebar site this with
               | Some sb =>
                   withSidebar site this
                     {| _collapsed := _collapsed sb; _isLeft := _isLeft sb;
                        containerEl := classList_toggle "is-collapsed" collapse (containerEl sb) |}
               | None => site
               end) <$> after
      end
  end.

(** The click listener of the collapse button (lines 119-122):
    [this.collapsed = !this.collapsed]. *)
Definition clickToggle (fuel : nat) (site : Site) (this : Side) : option Site :=
  match sidebar site this with
  | Some sb => setCollapsed fuel site this (notCollapsed sb)
  | None => Some site
  end.

(** [clickOutsideCollapse] (lines 210-232).  Of the target of the click it
    asks whether it lies in this sidebar and whether it lies in the topbar
    toggle of this sidebar. *)
Definition clickOutsideCollapse (fuel : nat) (site : Site) (this : Side)
    (inSidebar inToggle : bool) : option Site :=
  if inSidebar then Some site
  else if inToggle then Some site
  else if String.eqb (deviceSize site) "phone" || String.eqb (deviceSize site) "tablet"
  then setCollapsed fuel site this true
  else Some site.

(** What can happen to a site: the setter runs on a sidebar that exists, a
    collapse button is clicked, or a registered listener sees a click on
    the body. *)
Inductive step : Site → Site → Prop :=
  | step_set site this collapse site' :
      is_Some (sidebar site this) →
      setCollapsed 2 site this collapse = Some site' → step site site'
  | step_toggle site this site' :
      is_Some (sidebar site this) →
      clickToggle 2 site this = Some site' → step site site'
  | step_outside site this inSidebar inToggle site' :
      this ∈ bodyClickListeners site →
      clickOutsideCollapse 2 site this inSidebar inToggle = Some site' → step site site'.

(** *** Notions used to state the properties of the sidebars *)

(** What closing a sidebar that is not closed comes to. *)
Definition closeSidebar (site : Site) (this : Side) (sb : State) : Site :=
  withSidebar (removeListener this site) this
    {| _collapsed := Some true; _isLeft := _isLeft sb;
       containerEl := classList_toggle "is-collapsed" true (containerEl sb) |}.

(** What opening a sidebar that is not open comes to, when the sidebar it
    closes is the one in the other slot. *)
Definition openSidebar (site : Site) (this : Side) (sb : State) : Site :=
  let isPhone := String.eqb (deviceSize site) "phone" in
  let isTablet := String.eqb (deviceSize site) "tablet" in
  let site1 :=
    if isPhone then
      match sidebar site (other this) with
      | Some o => if notCollapsed o then closeSidebar site (other this) o else site
      | None => site
      end
    else site in
  let site2 :=
    if isPhone || isTablet then addListener this (removeListener this site1) else site1 in
  withSidebar site2 this
    {| _collapsed := Some false; _isLeft := _isLeft sb;
       containerEl := classList_toggle "is-collapsed" false (containerEl sb) |}.

Definition isOpen (site : Site) (side : Side) : Prop :=
  ∃ sb, sidebar site side = Some sb ∧ _collapsed sb = Some false.

(** The sidebars sit in their own slots: the sidebar whose container has
    the id [left-sidebar] is [ObsidianSite.leftSidebar], and the sidebar
    in [ObsidianSite.rightSidebar] has another id. *)
Definition placed (site : Site) : Prop :=
  ∀ side sb, sidebar site side = Some sb → closes sb = other side.

(** A site on which no setter has run yet. *)
Definition fresh (site : Site) : Prop :=
  bodyClickListeners site = [] ∧
  ∀ side sb, sidebar site side = Some sb → _collapsed sb = None.


(** The class [is-collapsed] of the container says what [_collapsed] says,
    once [_collapsed] has a value. *)
Definition classFollowsState (site : Site) : Prop :=
  ∀ side sb b,
    sidebar site side = Some sb → _collapsed sb = Some b →
    ("is-collapsed" ∈ classList (containerEl sb) ↔ b = true).

End Sidebar.
(** ** A small site

    An implementation of the interfaces on which the model can be run: a
    path is its text; the Index knows one page and one image. *)
Module Sample.

Fixpoint extensionOf (s : string) : option string :=
  match s with
  | EmptyString => None
  | String c s' =>
      match extensionOf s' with
      | Some e => Some e
      | None => if Ascii.eqb c "." then Some s' else None
      end
  end.

Fixpoint stemOf (s : string) : string :=
  match s with
  | EmptyString => EmptyString
  | String c s' =>
      match extensionOf s with
      | Some _ => match extensionOf s' with
                  | Some _ => String c (stemOf s')
                  | None => EmptyString
                  end
      | None => s
      end
  end.

#[export] Instance paths : PathApi := {|
  Path := string;
  path_path p := p;
  path_pathname p := p;
  path_extensionName p := default "" (extensionOf p);
  path_basename p := stemOf p;
  path_toString p := p;
  path_new s := s;
  path_slugify p _ := p;
  path_setExtension p ext := stemOf p +:+ "." +:+ ext;
  path_setFileName p name := name +:+ "." +:+ default "" (extensionOf p);
  path_setWorkingDirectory p _ := p;
  path_joinString p parts := foldl (λ acc part, acc +:+ "/" +:+ part) p parts;
  path_getRelativePath _ to := to;
  libraryPath := "site-lib";
|}.

Definition pageAttachment : Attachment :=
  {| att_ref := 100; att_data := ""; att_targetPath := "notes/page.html";
     att_sourcePath := Some "notes/page.md" |}.

Definition imageAttachment : Attachment :=
  {| att_ref := 101; att_data := ""; att_targetPath := "media/pic.png";
     att_sourcePath := Some "media/pic.png" |}.

Definition site : Website :=
  {| getFilePathFromSrc src _ := src;
     index_getFile p _ :=
       if String.eqb p "notes/page.md" then Some pageAttachment
       else if String.eqb p "media/pic.png" then Some imageAttachment
       else None;
     destination := "out" |}.

Definition element (tag : string) (attrs : list (string * string)) (classes : list string)
    (text : string) (parent : option nat) : Element :=
  {| tagName := tag; attributes := list_to_map attrs; classList := classes;
     textContent := text; parentNode := parent |}.

(** A document: a [head] with a stylesheet link, and a body whose
    [.obsidian-document] holds three headings, links, an image, an
    iframe and two [model-viewer] elements, the second without [src]. *)
Definition document : Document :=
  [ element "HTML" [] [] "" None;
    element "HEAD" [] [] "" (Some 0);
    element "LINK" [("href", "site-lib/styles.css")] [] "" (Some 1);
    element "BODY" [] [] "" (Some 0);
    element "DIV" [] ["obsidian-document"] "" (Some 3);
    element "H1" [("data-heading", "Intro")] [] "Intro" (Some 4);
    element "H2" [] [] "Setup" (Some 4);
    element "H2" [("data-heading", "Intro")] [] "Intro" (Some 4);
    element "A" [("href", "#Setup")] [] "setup" (Some 4);
    element "A" [("href", "https://example.com/x.png")] [] "external" (Some 4);
    element "A" [("href", "missing/note.md")] [] "missing" (Some 4);
    element "A" [("href", "")] [] "empty" (Some 4);
    element "IMG" [("src", "media/pic.png")] [] "" (Some 4);
    element "IFRAME" [("src", "https://example.com/frame")] [] "" (Some 4);
    element "MODEL-VIEWER" [("src", "media/pic.png")] [] "" (Some 4);
    element "MODEL-VIEWER" [("poster", "media/pic.png")] [] "" (Some 4) ].

(** A shorter document, with one heading of each text. *)
Definition shortDocument : Document :=
  [ element "DIV" [] ["obsidian-document"] "" None;
    element "H1" [] [] "Intro" (Some 0);
    element "H2" [] [] "Setup" (Some 0);
    element "A" [("href", "#Intro")] [] "intro" (Some 0) ].

Definition options : ExportOptions :=
  {| relativeHeaderLinks := true; slugifyPaths := false |}.

(** Header links are prefixed with the page's own path. *)
Definition absoluteOptions : ExportOptions :=
  {| relativeHeaderLinks := false; slugifyPaths := false |}.

Definition page (doc : Document) (hm : gmap string string) (opts : ExportOptions) : Webpage :=
  {| source := {| file_path := "notes/home.md" |};
     targetPath := "notes/home.html";
     website := site;
     exportOptions := opts;
     pageDocument := doc;
     headerMap := hm;
     attachments := [] |}.

Definition anchor : Element := element "A" [] [] "" None.

(** A renderer that succeeds from its [n]-th call on; its state counts
    the calls still to fail. *)
#[export] Instance host : SlidesHost := {|
  JsNumber := N;
  numberToString := Js.numeral;
  RendererState := nat;
  renderFile r absPath :=
    match r with
    | O => (Some ("<html>" +:+ absPath +:+ "</html>"), O)
    | S r' => (None, r')
    end;
  getFullPath := None;
  rewriteAdvancedSlidesHtml this html _ _ := ("<!DOCTYPE html> " +:+ html, attachments this);
|}.

(** A run whose renderer fails the given number of times first. *)
Definition startRun (failures : nat) : ExportRun := freshRun (host := host) failures.

Definition slides : TFile := {| file_path := "decks/talk.md" |}.

Definition iframe : Element := element "IFRAME" [] [] "" None.

End Sample.


(** A site with two sidebars, seen on a phone, before any click; the same
    site after the left sidebar was opened; and after the toggle of the
    right one was clicked then. *)
Module SampleSite.

Definition bar (id : string) : Sidebar.State :=
  Sidebar.create (Sample.element "DIV" [("id", id)] ["sidebar"] "" None).

Definition phone : Sidebar.Site :=
  {| Sidebar.deviceSize := "phone";
     Sidebar.leftSidebar := Some (bar "left-sidebar");
     Sidebar.rightSidebar := Some (bar "right-sidebar");
     Sidebar.bodyClickListeners := [] |}.

Definition opened : Sidebar.Site :=
  default phone (Sidebar.setCollapsed 2 phone Sidebar.Left false).

Definition switched : Sidebar.Site :=
  default opened (Sidebar.clickToggle 2 opened Sidebar.Right).

(** A phone whose sidebars carry other ids than [left-sidebar] and
    [right-sidebar]. *)
Definition renamed : Sidebar.Site :=
  {| Sidebar.deviceSize := "phone";
     Sidebar.leftSidebar := Some (bar "sidebar-a");
     Sidebar.rightSidebar := Some (bar "sidebar-b");
     Sidebar.bodyClickListeners := [] |}.

End SampleSite.

(** A page with two headings of one text and a link to that text. *)
Module SamplePage.

Definition document : Document :=
  [ Sample.element "DIV" [("data-kind", "note")] ["obsidian-document"; "markdown"] "" None;
    Sample.element "A" [("href", "#Intro")] [] "intro" (Some 0);
    Sample.element "H1" [] [] "Intro" (Some 0);
    Sample.element "H2" [] [] "Setup" (Some 0);
    Sample.element "H2" [] [] "Intro" (Some 0);
    Sample.element "IFRAME" [("src", "notes/page.md#Setup")] [] "" (Some 0);
    Sample.element "IMG" [("src", "media/pic.png")] [] "" (Some 0) ].

Definition page : Webpage := Sample.page document ∅ Sample.options.

End SamplePage.

(** A store whose Index is the one of the sample site and whose creator
    makes an attachment for every source but [missing.png]; its state
    counts the attachments created. *)
Module SampleStore.

#[export] Instance store : AttachmentStore (paths := Sample.paths) := {|
  World := nat;
  world_getFile _ sourcePath := index_getFile Sample.site sourcePath false;
  world_createAttachmentFromSrc created src _ :=
    if String.eqb src "missing.png" then (None, created)
    else (Some (@Build_Attachment Sample.paths (200 + created) "" src (Some src)), S created);
|}.

Definition document : Document :=
  [ Sample.element "DIV" [] ["obsidian-document"] "" None;
    Sample.element "IMG" [("src", "media/pic.png")] [] "" (Some 0);
    Sample.element "IMG" [("src", "https://example.com/a.png")] [] "" (Some 0);
    Sample.element "IMG" [("src", "media/new.png")] [] "" (Some 0);
    Sample.element "IMG" [("src", "missing.png")] [] "" (Some 0);
    Sample.element "IMG" [("src", "media/new.png")] [] "" (Some 0) ].

Definition page : Webpage :=
  withAttachments (Sample.page document ∅ Sample.options) [Sample.pageAttachment].

Definition result : Collecting := collectSrcAttachments (store := store) page 0.

End SampleStore.

(** A vault in which no file is found by its path or by the link
    resolver, so that a slide is looked for among all the files. *)
Module SampleVault.

Definition files : list TFile :=
  [ {| file_path := "archive/2023/decks/talk.md" |};
    {| file_path := "notes/home.md" |};
    {| file_path := "work/decks/talk.md" |};
    {| file_path := "home/decks/talk.md" |} ].

#[export] Instance vault : VaultApi := {|
  vault_getFileByPath _ := None;
  metadataCache_getFirstLinkpathDest _ _ := None;
  vault_getFiles := files;
|}.

End SampleVault.

(** A page with a slide frame and its two buttons. *)
Module SampleFrame.

Definition document : Document :=
  [ Sample.element "DIV" [] ["obsidian-document"] "" None;
    Sample.element "DIV" [] ["reveal-preview-view"; "relative-iframe-container"] "" (Some 0);
    Sample.element "IFRAME" [("src", "decks/talk.html")] [] "" (Some 1);
    Sample.element "BUTTON" [] [] "Open in Browser" (Some 1);
    Sample.element "BUTTON" [("onclick", "reload()")] [] "Reload" (Some 1);
    Sample.element "BUTTON" [] [] "Open in Browser" (Some 0) ].

Definition page : Webpage := Sample.page document ∅ Sample.options.

End SampleFrame.
(** ** Notions used to state the properties *)

(** Every character of the string is a word character. *)
Fixpoint wordString (w : string) : bool :=
  match w with
  | EmptyString => true
  | String c w' => Js.isWordChar c && wordString w'
  end.

(** The references [resolveLink] is meant to leave alone: a text holding
    [scheme://] or [scheme:\\] that does not begin with [app://], a data
    URI, a reference made of a query only, and a mailto reference. *)
Inductive LeftAsIs : string → Prop :=
  | LeftAsIs_external pre scheme sep rest :
      scheme ≠ "" → wordString scheme = true → sep = "//" ∨ sep = "\\" →
      Js.startsWith (pre +:+ scheme +:+ ":" +:+ sep +:+ rest) "app://" = false →
      LeftAsIs (pre +:+ scheme +:+ ":" +:+ sep +:+ rest)
  | LeftAsIs_data rest : LeftAsIs ("data:" +:+ rest)
  | LeftAsIs_query rest : LeftAsIs ("?" +:+ rest)
  | LeftAsIs_mailto rest : LeftAsIs ("mailto:" +:+ rest).

(** The test made by the four guards of [resolveLink] that return
    [undefined] (lines 1045-1052). *)
Definition leftAsIs (link : string) : bool :=
  negb (Js.startsWith link "app://") && Js.schemeRegexExec link
  || Js.startsWith link "data:" || Js.startsWith link "?" || Js.startsWith link "mailto:".

(** The string has no occurrence of the character. *)
Fixpoint lacksChar (c : ascii) (s : string) : bool :=
  match s with
  | EmptyString => true
  | String a s' => negb (Ascii.eqb a c) && lacksChar c s'
  end.


(** The number of occurrences of a text in a list of texts. *)
Definition occurrences (t : string) (ts : list string) : nat :=
  length (filter (λ x, x = t) ts).

(** The heading allocator taken off the document: the suffix the loop
    body computes for a text, and the ids and the map that a run over a
    list of texts produces. *)
Definition nextSuffix (hm : gmap string string) (t : string) : string :=
  match hm !! t with
  | Some old => if Js.truthy (Some old) then Js.increment old else "0"
  | None => "0"
  end.

Fixpoint allocTexts (hm : gmap string string) (ts : list string)
    : list string * gmap string string :=
  match ts with
  | [] => ([], hm)
  | t :: ts' =>
      let s := nextSuffix hm t in
      let r := allocTexts (<[t := s]> hm) ts' in
      ((t +:+ "_" +:+ s) :: r.1, r.2)
  end.

(** A header map agrees with a count of the headings seen so far: a text
    seen [k + 1] times is filed under the numeral of [k], a text never
    seen is absent. *)
Definition Counts (hm : gmap string string) (c : string → nat) : Prop :=
  ∀ t, hm !! t = match c t with
                 | O => None
                 | S k => Some (Js.numeral (N.of_nat k))
                 end.

(** One more heading of text [t] has been seen. *)
Definition bump (t : string) (c : string → nat) : string → nat :=
  λ x, if decide (x = t) then S (c x) else c x.

Section Notions.

Context {paths : PathApi}.

(** The texts of the elements at the given positions. *)
Definition textsOf (doc : Document) (ns : list nat) : list string :=
  (λ i, from_option headingText "" (doc !! i)) <$> ns.

(** The normalised texts of the headings of a page, in document order. *)
Definition headingTexts (this : Webpage) : list string :=
  textsOf (pageDocument this) (querySelectorAll (pageDocument this) selHeading).

(** The [id] attributes of the headings of a page, in document order. *)
Definition headingIds (this : Webpage) : list (option string) :=
  (λ i, pageDocument this !! i ≫= λ e, getAttribute e "id")
    <$> querySelectorAll (pageDocument this) selHeading.

(** The part of a reference before its query and fragment (lines
    1071-1073). *)
Definition pathPart (link : string) : string :=
  default "" (Js.split (default "" (Js.split link "?" !! 0)) "#" !! 0).

(** What a reference that the Index does not know keeps of its query and
    of its fragment (lines 1074-1075 and 1085-1088): the text after the
    first [?], up to the next one, and the text between the first [#]
    before that [?] and the next [#], both trimmed, each with its mark
    before it; nothing when that text is missing or empty. *)
Definition queryPart (link : string) : string :=
  let query := Js.trim <$> Js.split link "?" !! 1 in
  if Js.truthy query then "?" +:+ Js.toStr query else "".

Definition fragmentPart (link : string) : string :=
  let hash := Js.trim <$> Js.split (default "" (Js.split link "?" !! 0)) "#" !! 1 in
  if Js.truthy hash then "#" +:+ Js.toStr hash else "".

(** The document when the third loop of [remapEmbedLinks] starts, and the
    elements that loop goes over. *)
Definition documentBeforeModelViewers (this : Webpage) : Document :=
  let doc := pageDocument this in
  let doc := forEachElement (remapSrc this) doc (srcLinkElements doc) in
  forEachElement (remapSrc this) doc (querySelectorAll doc selIframe).

Definition modelViewerElements (this : Webpage) : list nat :=
  querySelectorAll (documentBeforeModelViewers this) selModelViewer.

(** The path a reference without query and fragment is looked up under,
    and the path synthesised for it when the Index does not know it. *)
Definition lookupPath (this : Webpage) (link : string) : Path :=
  getFilePathFromSrc (website this) link (file_path (source this)).

Definition synthesizedPath (this : Webpage) (link : string) : string :=
  path_path
    (path_setExtension
       (path_slugify (lookupPath this link) (slugifyPaths (exportOptions this))) "html").

End Notions.

(** Two elements that differ at most in their [onclick] attribute. *)
Definition sameButOnclick (e e' : Element) : Prop :=
  tagName e' = tagName e ∧ classList e' = classList e ∧
  textContent e' = textContent e ∧ parentNode e' = parentNode e ∧
  ∀ name, name ≠ "onclick" → getAttribute e' name = getAttribute e name.

Section EmbedNotions.

Context {paths : PathApi} {host : SlidesHost}.

(** The path handed to [renderFile] for a slide file (lines 886-890). *)
Definition absolutePath (slideFile : TFile) : string :=
  match getFullPath with
  | Some full => full (file_path slideFile)
  | None => file_path slideFile
  end.

(** The calls logged for a cache key that returned HTML. *)
Definition successes (key : string) (log : list RenderCall) : list RenderCall :=
  filter (λ c, call_returnedHtml c = true) (filter (λ c, call_key c = key) log).

(** The value [processEmbed] writes into the [src] of the iframe. *)
Definition iframeSrc (this : Webpage) (embedAttachment : Attachment) : string :=
  Js.replaceAll
    (path_path (path_getRelativePath (targetPath this) (att_targetPath embedAttachment)))
    "\" "/".

(** One call of [processEmbed] from its start to its end with no other
    call in between, put together from its pieces. *)
Definition uninterrupted (run : ExportRun) (this : Webpage) (slideFile : TFile)
    (page : JsNumber) (iframe : Element) : ExportRun * (Webpage * Element) :=
  match embedBegin run this slideFile page iframe with
  | (run1, inr result) => (run1, result)
  | (run1, inl call1) =>
      match embedResume run1 call1 with
      | (run2, inr result) => (run2, result)
      | (run2, inl call2) =>
          match embedResume run2 call2 with
          | (run3, inr result) => (run3, result)
          | (run3, inl _) => (run3, (this, iframe))
          end
      end
  end.

(** The entry of the log for a call of [renderFile] made for a pair. *)
Definition renderCall (slideFile : TFile) (page : JsNumber) (returnedHtml : bool)
    : RenderCall :=
  {| call_key := cacheKey slideFile page; call_absPath := absolutePath slideFile;
     call_returnedHtml := returnedHtml |}.

End EmbedNotions.

(** ** Notions used to state the further properties *)

(** An element after a pass, against the element before: the tag, the
    text and the parent are the same, the classes are the same but for
    [is-unresolved], and the attributes are the same but for the names
    listed. *)
Definition keepsElement (names : list string) (e e' : Element) : Prop :=
  tagName e' = tagName e ∧ textContent e' = textContent e ∧
  parentNode e' = parentNode e ∧
  (∀ c, c ≠ "is-unresolved" → c ∈ classList e' ↔ c ∈ classList e) ∧
  (∀ name, name ∉ names → getAttribute e' name = getAttribute e name).

(** The same, for every position of a document; no element is added and
    none is dropped. *)
Definition keepsDocument (names : list string) (doc doc' : Document) : Prop :=
  ∀ i : nat,
    match doc !! i, doc' !! i with
    | Some e, Some e' => keepsElement names e e'
    | None, None => True
    | _, _ => False
    end.

(** A decimal digit, and a text made of decimal digits. *)
Definition isDigit (c : ascii) : bool :=
  ((48 <=? N_of_ascii c) && (N_of_ascii c <=? 57))%N.

Fixpoint digitString (s : string) : bool :=
  match s with
  | EmptyString => true
  | String c s' => isDigit c && digitString s'
  end.

(** The length of the path of a file, by which the candidates for a slide
    are ordered. *)
Definition pathLength (f : TFile) : nat := String.length (file_path f).

(** The buttons the last loop of [remapLinks] gives a click handler: the
    text is ["Open in Browser"], and the closest
    [.relative-iframe-container] holds an [iframe]. *)
Definition opensInBrowser (doc : Document) (i : nat) : bool :=
  match doc !! i with
  | Some button =>
      tagIs "BUTTON" button && String.eqb (textContent button) "Open in Browser" &&
      match closestIframeContainer doc i with
      | Some container => containsIframe doc container
      | None => false
      end
  | None => false
  end.
(** ** Facts about the string primitives *)

Lemma append_nil_l (s : string) : "" +:+ s = s.
Proof. reflexivity. Qed.

Lemma append_cons (a : ascii) (s t : string) : String a s +:+ t = String a (s +:+ t).
Proof. reflexivity. Qed.

Ltac unfold_append := rewrite ?append_cons, ?append_nil_l in *.

Lemma append_assoc (s t u : string) : (s +:+ t) +:+ u = s +:+ t +:+ u.
Proof. induction s; unfold_append; [done|]. by f_equal. Qed.

Lemma startsWith_app (p r : string) : Js.startsWith (p +:+ r) p = true.
Proof.
  induction p as [|a p IH]; simpl; [done|].
  by rewrite Ascii.eqb_refl.
Qed.

Lemma startsWith_inv (s p : string) :
  Js.startsWith s p = true → ∃ r, s = p +:+ r.
Proof.
  revert s. induction p as [|a p IH]; intros s H; simpl in *.
  - by exists s.
  - destruct s as [|b s]; [done|].
    destruct (Ascii.eqb a b) eqn:E; [|done].
    apply Ascii.eqb_eq in E as ->.
    destruct (IH _ H) as [r ->]. by exists r.
Qed.

Lemma schemeTail_word (w sep rest : string) :
  wordString w = true → sep = "//" ∨ sep = "\\" →
  Js.schemeTail (w +:+ ":" +:+ sep +:+ rest) = true.
Proof.
  intros Hw Hsep. induction w as [|c w IH]; simpl in *.
  - by destruct Hsep as [-> | ->].
  - apply andb_prop in Hw as [Hc Hw]. rewrite Hc. by apply IH.
Qed.

Lemma schemeRegexExec_intro (pre scheme sep rest : string) :
  scheme ≠ "" → wordString scheme = true → sep = "//" ∨ sep = "\\" →
  Js.schemeRegexExec (pre +:+ scheme +:+ ":" +:+ sep +:+ rest) = true.
Proof.
  intros Hne Hw Hsep. induction pre as [|c pre IH].
  - destruct scheme as [|c w]; [done|]. simpl in *.
    apply andb_prop in Hw as [Hc Hw].
    rewrite Hc, (schemeTail_word w sep rest Hw Hsep). done.
  - simpl. rewrite IH. apply orb_true_r.
Qed.

(** The converse: where the scanner answers yes, the text does hold a
    word, a colon and one of the two separators. *)
Lemma schemeTail_inv (s : string) :
  Js.schemeTail s = true →
  ∃ w sep rest, s = w +:+ ":" +:+ sep +:+ rest ∧ wordString w = true ∧
                (sep = "//" ∨ sep = "\\").
Proof.
  induction s as [|c s IH]; simpl; [done|].
  destruct (Js.isWordChar c) eqn:Hc.
  - intros H. destruct (IH H) as (w & sep & rest & -> & Hw & Hsep).
    exists (String c w), sep, rest. simpl. by rewrite Hc, Hw.
  - intros H. apply orb_prop in H as [H|H].
    + apply (startsWith_inv (String c s) "://") in H as [r Hr].
      exists "", "//", r. simpl in *. auto.
    + apply (startsWith_inv (String c s) ":\\") in H as [r Hr].
      exists "", "\\", r. simpl in *. auto.
Qed.

Lemma schemeRegexExec_inv (s : string) :
  Js.schemeRegexExec s = true →
  ∃ pre scheme sep rest,
    s = pre +:+ scheme +:+ ":" +:+ sep +:+ rest ∧ scheme ≠ "" ∧
    wordString scheme = true ∧ (sep = "//" ∨ sep = "\\").
Proof.
  induction s as [|c s IH]; simpl; [done|].
  intros H. apply orb_prop in H as [H|H].
  - apply andb_prop in H as [Hc H].
    destruct (schemeTail_inv s H) as (w & sep & rest & -> & Hw & Hsep).
    exists "", (String c w), sep, rest. simpl. by rewrite Hc, Hw.
  - destruct (IH H) as (pre & scheme & sep & rest & -> & Hne & Hw & Hsep).
    by exists (String c pre), scheme, sep, rest.
Qed.


Lemma split_lacks (s : string) (c : ascii) :
  lacksChar c s = true → Js.split s c = [s].
Proof.
  induction s as [|a s IH]; simpl; [done|].
  intros H. apply andb_prop in H as [Ha Hs]. apply negb_true_iff in Ha.
  by rewrite Ha, (IH Hs).
Qed.

Lemma split_app_sep (p r : string) (c : ascii) :
  lacksChar c p = true → Js.split (p +:+ String c r) c = p :: Js.split r c.
Proof.
  induction p as [|a p IH]; intros H; unfold_append; simpl in *.
  - by rewrite Ascii.eqb_refl.
  - apply andb_prop in H as [Ha Hp]. apply negb_true_iff in Ha.
    by rewrite Ha, (IH Hp).
Qed.

Lemma lacksChar_app (c : ascii) (a b : string) :
  lacksChar c (a +:+ b) = lacksChar c a && lacksChar c b.
Proof.
  induction a as [|x a IH]; unfold_append; simpl; [done|].
  by rewrite IH, andb_assoc.
Qed.

(** What [trim] leaves of a text that holds a character other than white
    space is not empty. *)
Lemma trimStart_keeps (a b : string) (c : ascii) :
  Js.isWhiteSpace c = false →
  ∃ a', Js.trimStart (a +:+ String c b) = a' +:+ String c b.
Proof.
  intros Hc. induction a as [|x a IH]; unfold_append; simpl.
  - rewrite Hc. by exists "".
  - destruct (Js.isWhiteSpace x); [exact IH|].
    by exists (String x a).
Qed.

Lemma trimEnd_keeps (a b : string) (c : ascii) :
  Js.isWhiteSpace c = false → Js.trimEnd (a +:+ String c b) ≠ "".
Proof.
  intros Hc. induction a as [|x a IH]; unfold_append; simpl.
  - destruct (Js.trimEnd b); [by rewrite Hc|done].
  - by destruct (Js.trimEnd (a +:+ String c b)).
Qed.

Lemma trim_keeps (a b : string) (c : ascii) :
  Js.isWhiteSpace c = false → Js.trim (a +:+ String c b) ≠ "".
Proof.
  intros Hc. unfold Js.trim.
  destruct (trimStart_keeps a b c Hc) as [a' ->]. by apply trimEnd_keeps.
Qed.

Example split_examples :
  Js.split "notes/page.md?x=1#Section" "?" = ["notes/page.md"; "x=1#Section"] ∧
  Js.split "notes/page.md" "#" = ["notes/page.md"] ∧
  Js.split "" "?" = [""] ∧
  Js.split "a?b?c" "?" = ["a"; "b"; "c"].
Proof. repeat split; reflexivity. Qed.

Example normalizeHeading_examples :
  normalizeHeading "My  Heading: part  1" = "My_Heading_part_1" ∧
  normalizeHeading "a____b" = "a__b" ∧
  normalizeHeading "#undefined" = "#undefined".
Proof. repeat split; reflexivity. Qed.

Example schemeRegexExec_examples :
  Js.schemeRegexExec "https://example.com/x.png" = true ∧
  Js.schemeRegexExec "C:\\temp" = true ∧
  Js.schemeRegexExec "notes/page.md" = false ∧
  Js.schemeRegexExec "mailto:a@b.c" = false.
Proof. repeat split; reflexivity. Qed.

Example trim_example : Js.trim "  a b  " = "a b".
Proof. reflexivity. Qed.

Example increment_examples : Js.increment "0" = "1" ∧ Js.increment "9" = "10".
Proof. split; reflexivity. Qed.
(** ** Facts about elements *)

Lemma getAttribute_setAttribute_eq name value (el : Element) :
  getAttribute (setAttribute name value el) name = Some value.
Proof. unfold getAttribute, setAttribute; simpl. apply lookup_insert_eq. Qed.

Lemma getAttribute_setAttribute_ne name name' value (el : Element) :
  name ≠ name' →
  getAttribute (setAttribute name value el) name' = getAttribute el name'.
Proof. intros. unfold getAttribute, setAttribute; simpl. by apply lookup_insert_ne. Qed.

Lemma getAttribute_toggle cls force (el : Element) name :
  getAttribute (classList_toggle cls force el) name = getAttribute el name.
Proof. done. Qed.

(** ** Numerals and anchor ids *)

Lemma numeral_parse (n : N) :
  NilEmpty.uint_of_string (Js.numeral n) = Some (N.to_uint n).
Proof. apply NilEmpty.usu. Qed.

Lemma numeral_inj (n m : N) : Js.numeral n = Js.numeral m → n = m.
Proof.
  intros H. apply Unsigned.to_uint_inj.
  pose proof (numeral_parse n) as Hn. rewrite H, numeral_parse in Hn.
  congruence.
Qed.

Lemma numeral_nonempty (n : N) : Js.numeral n ≠ "".
Proof.
  intros H. pose proof (numeral_parse n) as Hn. rewrite H in Hn. simpl in Hn.
  assert (N.to_uint n = Nil) as E by congruence.
  pose proof (Unsigned.of_to n) as Hr. rewrite E in Hr. simpl in Hr. subst n.
  discriminate E.
Qed.

Lemma increment_numeral (n : N) : Js.increment (Js.numeral n) = Js.numeral (N.succ n).
Proof. unfold Js.increment. by rewrite numeral_parse, Unsigned.of_to. Qed.

Lemma string_of_uint_lacks_underscore (d : uint) :
  lacksChar "_" (NilEmpty.string_of_uint d) = true.
Proof. induction d; simpl; auto. Qed.

Lemma numeral_lacks_underscore (n : N) : lacksChar "_" (Js.numeral n) = true.
Proof. apply string_of_uint_lacks_underscore. Qed.

Lemma lacksChar_app_sep (c : ascii) (a b : string) :
  lacksChar c (a +:+ String c b) = false.
Proof.
  induction a as [|x a IH]; simpl.
  - by rewrite Ascii.eqb_refl.
  - rewrite IH. apply andb_false_r.
Qed.

(** An id is split at its last underscore: the text and the suffix of an
    id are determined by the id. *)
Lemma anchor_id_inj (t1 t2 d1 d2 : string) :
  lacksChar "_" d1 = true → lacksChar "_" d2 = true →
  t1 +:+ "_" +:+ d1 = t2 +:+ "_" +:+ d2 → t1 = t2 ∧ d1 = d2.
Proof.
  intros H1 H2. revert t2.
  induction t1 as [|a t1 IH]; intros [|b t2] E; unfold_append.
  - by inversion E.
  - inversion E as [[Ea Ed]]. subst.
    pose proof (lacksChar_app_sep "_" t2 d2). congruence.
  - inversion E as [[Ea Ed]]. subst.
    pose proof (lacksChar_app_sep "_" t1 d1). congruence.
  - inversion E as [[Ea Et]]. destruct (IH t2) as [-> ->]; [|done].
    by unfold_append.
Qed.

(** ** The allocator on texts *)

Lemma nextSuffix_Counts hm c t :
  Counts hm c → nextSuffix hm t = Js.numeral (N.of_nat (c t)).
Proof.
  intros H. unfold nextSuffix. rewrite (H t). destruct (c t) as [|k]; [done|].
  pose proof (numeral_nonempty (N.of_nat k)) as Hne.
  destruct (Js.numeral (N.of_nat k)) eqn:E; [done|]. simpl.
  rewrite <- E, increment_numeral. f_equal. lia.
Qed.

Lemma Counts_insert hm c t :
  Counts hm c → Counts (<[t := Js.numeral (N.of_nat (c t))]> hm) (bump t c).
Proof.
  intros H x. unfold bump. destruct (decide (x = t)) as [->|Hne].
  - by rewrite lookup_insert_eq.
  - rewrite lookup_insert_ne by done. apply H.
Qed.

Lemma Counts_empty : Counts ∅ (λ _, 0).
Proof. intros t. apply lookup_empty. Qed.

Lemma occurrences_cons t x ts :
  occurrences t (x :: ts) = (if decide (x = t) then 1 else 0) + occurrences t ts.
Proof.
  unfold occurrences. rewrite filter_cons. by destruct (decide (x = t)).
Qed.

Lemma occurrences_app t ts1 ts2 :
  occurrences t (ts1 ++ ts2) = occurrences t ts1 + occurrences t ts2.
Proof. unfold occurrences. by rewrite filter_app, length_app. Qed.

Lemma occurrences_take_le t ts (i j : nat) :
  i ≤ j → occurrences t (take i ts) ≤ occurrences t (take j ts).
Proof.
  intros Hij. rewrite <- (take_drop i (take j ts)), take_take, occurrences_app.
  replace (i `min` j) with i by lia. lia.
Qed.

Lemma occurrences_take_S t ts (i : nat) :
  ts !! i = Some t → occurrences t (take (S i) ts) = S (occurrences t (take i ts)).
Proof.
  intros H. rewrite (take_S_r _ _ _ H), occurrences_app.
  rewrite occurrences_cons. rewrite decide_True by done. unfold occurrences. simpl. lia.
Qed.

Lemma allocTexts_lookup hm c ts (j : nat) :
  Counts hm c →
  (allocTexts hm ts).1 !! j =
    (λ t, t +:+ "_" +:+ Js.numeral (N.of_nat (c t + occurrences t (take j ts)))) <$> ts !! j.
Proof.
  revert hm c j. induction ts as [|x ts IH]; intros hm c j H; [done|].
  simpl. rewrite (nextSuffix_Counts hm c x H). destruct j as [|j]; simpl.
  - unfold occurrences. simpl. do 4 f_equal. lia.
  - rewrite (IH _ (bump x c) j (Counts_insert hm c x H)).
    destruct (ts !! j) as [t|]; [|done]. simpl. do 4 f_equal.
    rewrite occurrences_cons. unfold bump.
    destruct (decide (t = x)) as [->|Hne].
    + rewrite decide_True by done. lia.
    + rewrite decide_False by congruence. lia.
Qed.

Lemma allocTexts_Counts hm c ts :
  Counts hm c → Counts (allocTexts hm ts).2 (λ t, c t + occurrences t ts).
Proof.
  revert hm c. induction ts as [|x ts IH]; intros hm c H.
  - intros t. unfold occurrences. simpl. rewrite Nat.add_0_r. apply H.
  - simpl. rewrite (nextSuffix_Counts hm c x H).
    pose proof (IH _ _ (Counts_insert hm c x H)) as H'.
    intros t. rewrite (H' t). rewrite occurrences_cons. unfold bump.
    destruct (decide (t = x)) as [->|Hne].
    + rewrite decide_True by done.
      by replace (c x + (1 + occurrences x ts)) with (S (c x) + occurrences x ts) by lia.
    + by rewrite decide_False by congruence.
Qed.

Lemma allocTexts_length hm ts : length (allocTexts hm ts).1 = length ts.
Proof. revert hm. induction ts as [|x ts IH]; intros hm; simpl; [done|]. by rewrite IH. Qed.

Lemma allocTexts_NoDup hm c ts : Counts hm c → NoDup (allocTexts hm ts).1.
Proof.
  intros H. apply NoDup_alt. intros i j id Hi Hj.
  rewrite (allocTexts_lookup hm c ts i H) in Hi.
  rewrite (allocTexts_lookup hm c ts j H) in Hj.
  destruct (ts !! i) as [ti|] eqn:Ei; [|done].
  destruct (ts !! j) as [tj|] eqn:Ej; [|done].
  simpl in Hi, Hj. inversion Hi as [Hi']. inversion Hj as [Hj']. clear Hi Hj.
  rewrite <- Hj' in Hi'.
  apply anchor_id_inj in Hi' as [-> Hn]; try apply numeral_lacks_underscore.
  apply numeral_inj in Hn.
  assert (occurrences tj (take i ts) = occurrences tj (take j ts)) as Ho by lia.
  destruct (Nat.lt_trichotomy i j) as [Hlt|[->|Hlt]]; [|done|].
  - pose proof (occurrences_take_S tj ts i Ei).
    pose proof (occurrences_take_le tj ts (S i) j). lia.
  - pose proof (occurrences_take_S tj ts j Ej).
    pose proof (occurrences_take_le tj ts (S j) i). lia.
Qed.

(** ** The allocator on the document *)

Section Headings.

Context {paths : PathApi}.

Implicit Types (doc : Document) (hm : gmap string string) (ns : list nat).

Lemma querySelectorAll_NoDup doc sel : NoDup (querySelectorAll doc sel).
Proof. apply NoDup_filter, NoDup_seq. Qed.

Lemma querySelectorAll_elem doc sel (i : nat) :
  i ∈ querySelectorAll doc sel ↔ ∃ e, doc !! i = Some e ∧ sel doc e = true.
Proof.
  unfold querySelectorAll. rewrite list_elem_of_filter, elem_of_seq. split.
  - intros [H _]. destruct (doc !! i) as [e|]; [|done].
    exists e. split; [done|]. by apply Is_true_true.
  - intros (e & He & Hs). rewrite He. simpl. split; [by apply Is_true_true|].
    apply lookup_lt_Some in He. lia.
Qed.

Lemma querySelectorAll_ext doc doc' sel sel' :
  length doc' = length doc →
  (∀ i, from_option (sel' doc') false (doc' !! i) = from_option (sel doc) false (doc !! i)) →
  querySelectorAll doc' sel' = querySelectorAll doc sel.
Proof.
  intros Hlen H. unfold querySelectorAll. rewrite Hlen.
  apply list_filter_iff. intros i. by rewrite H.
Qed.

Lemma textsOf_ext doc doc' ns :
  (∀ i, i ∈ ns → doc' !! i = doc !! i) → textsOf doc' ns = textsOf doc ns.
Proof.
  intros H. unfold textsOf. apply list_fmap_ext. intros j i Hj.
  rewrite H; [done|]. by eapply list_elem_of_lookup_2.
Qed.

Lemma allocateHeading_at doc hm (i : nat) e :
  doc !! i = Some e →
  allocateHeading (doc, hm) i =
    (alter (setAttribute "id" (headingText e +:+ "_" +:+ nextSuffix hm (headingText e))) i doc,
     <[headingText e := nextSuffix hm (headingText e)]> hm).
Proof. intros H. unfold allocateHeading. simpl. by rewrite H. Qed.

Lemma foldl_allocateHeading doc hm ns :
  NoDup ns → (∀ i, i ∈ ns → is_Some (doc !! i)) →
  (foldl allocateHeading (doc, hm) ns).2 = (allocTexts hm (textsOf doc ns)).2 ∧
  length (foldl allocateHeading (doc, hm) ns).1 = length doc ∧
  (∀ i : nat, i ∉ ns → (foldl allocateHeading (doc, hm) ns).1 !! i = doc !! i) ∧
  (∀ (j i : nat), ns !! j = Some i →
     ∃ e id, doc !! i = Some e ∧ (allocTexts hm (textsOf doc ns)).1 !! j = Some id ∧
             (foldl allocateHeading (doc, hm) ns).1 !! i = Some (setAttribute "id" id e)).
Proof.
  revert doc hm. induction ns as [|i ns IH]; intros doc hm Hnd Hvalid.
  { repeat split; try done. }
  apply NoDup_cons in Hnd as [Hi Hnd].
  destruct (Hvalid i) as [e He]; [by left|].
  simpl foldl. rewrite (allocateHeading_at doc hm i e He).
  set (id := headingText e +:+ "_" +:+ nextSuffix hm (headingText e)).
  set (doc1 := alter (setAttribute "id" id) i doc).
  set (hm1 := <[headingText e := nextSuffix hm (headingText e)]> hm).
  assert (Hother : ∀ k : nat, k ≠ i → doc1 !! k = doc !! k).
  { intros k Hk. unfold doc1. by rewrite list_lookup_alter_ne. }
  assert (Htexts : textsOf doc1 ns = textsOf doc ns).
  { apply textsOf_ext. intros k Hk. apply Hother. intros ->. done. }
  destruct (IH doc1 hm1 Hnd) as (Hm & Hlen & Hout & Hin).
  { intros k Hk. rewrite Hother; [|intros ->; done]. apply Hvalid. by right. }
  rewrite Htexts in Hm, Hin.
  assert (Hcons : textsOf doc (i :: ns) = headingText e :: textsOf doc ns).
  { unfold textsOf. simpl. by rewrite He. }
  rewrite Hcons. simpl allocTexts. fold hm1. repeat split.
  - exact Hm.
  - rewrite Hlen. unfold doc1. apply length_alter.
  - intros k Hk. apply not_elem_of_cons in Hk as [Hki Hk].
    rewrite (Hout k Hk). by apply Hother.
  - intros j k Hj. destruct j as [|j]; simpl in Hj.
    + inversion Hj; subst k. exists e, id. repeat split; [done..|].
      rewrite (Hout i Hi). unfold doc1. by rewrite list_lookup_alter_eq, He.
    + destruct (Hin j k Hj) as (e' & id' & He' & Hid' & Hdoc').
      assert (k ≠ i) as Hki.
      { intros ->. apply Hi. by eapply list_elem_of_lookup_2. }
      exists e', id'. rewrite <- (Hother k Hki). done.
Qed.

Lemma tagName_setAttribute name value e : tagName (setAttribute name value e) = tagName e.
Proof. done. Qed.

Lemma allocateHeadings_spec (this : Webpage) :
  let hs := querySelectorAll (pageDocument this) selHeading in
  let a := allocTexts (headerMap this) (headingTexts this) in
  headerMap (allocateHeadings this) = a.2 ∧
  querySelectorAll (pageDocument (allocateHeadings this)) selHeading = hs ∧
  headingIds (allocateHeadings this) = Some <$> a.1.
Proof.
  intros hs a.
  destruct (foldl_allocateHeading (pageDocument this) (headerMap this) hs)
    as (Hm & Hlen & Hout & Hin).
  { apply querySelectorAll_NoDup. }
  { intros i Hi. apply querySelectorAll_elem in Hi as (e & He & _). by exists e. }
  assert (Hqs : querySelectorAll (pageDocument (allocateHeadings this)) selHeading = hs).
  { apply querySelectorAll_ext; [exact Hlen|]. intros i.
    unfold allocateHeadings. simpl. fold hs.
    destruct (decide (i ∈ hs)) as [Hi|Hi].
    - apply list_elem_of_lookup_1 in Hi as [j Hj].
      destruct (Hin j i Hj) as (e & id & He & _ & Hd). by rewrite Hd, He.
    - by rewrite (Hout i Hi). }
  split; [exact Hm|]. split; [exact Hqs|].
  unfold headingIds. rewrite Hqs. apply list_eq. intros j.
  rewrite !list_lookup_fmap.
  destruct (hs !! j) as [i|] eqn:Hj; simpl.
  - destruct (Hin j i Hj) as (e & id & He & Hid & Hd).
    unfold allocateHeadings. simpl. fold hs.
    unfold a, headingTexts. fold hs. rewrite Hd, Hid. simpl.
    by rewrite getAttribute_setAttribute_eq.
  - assert (length a.1 = length hs) as Hl.
    { unfold a. rewrite allocTexts_length. unfold headingTexts, textsOf.
      by rewrite length_fmap. }
    apply lookup_ge_None in Hj.
    rewrite (proj2 (lookup_ge_None a.1 j)); [done|lia].
Qed.

(** C3.  On a page whose header map starts empty, the heading pass gives
    the [j]-th heading, of normalised text [t], the id made of [t], an
    underscore and the number of earlier headings with the same text: N
    headings with one text get the suffixes 0 to N-1 in document order.
    No two headings of the page get the same id. *)
Theorem heading_ids_numbered_and_unique (this : Webpage) :
  headerMap this = ∅ →
  (∀ (j : nat) t, headingTexts this !! j = Some t →
     headingIds (allocateHeadings this) !! j =
       Some (Some (t +:+ "_" +:+
                   Js.numeral (N.of_nat (occurrences t (take j (headingTexts this))))))) ∧
  length (headingIds (allocateHeadings this)) = length (headingTexts this) ∧
  NoDup (headingIds (allocateHeadings this)).
Proof.
  intros Hempty.
  destruct (allocateHeadings_spec this) as (_ & _ & Hids).
  rewrite Hids, Hempty. repeat split.
  - intros j t Ht. rewrite list_lookup_fmap.
    rewrite (allocTexts_lookup ∅ (λ _, 0) _ j Counts_empty), Ht. done.
  - by rewrite length_fmap, allocTexts_length.
  - apply (NoDup_fmap_2 Some). apply (allocTexts_NoDup ∅ (λ _, 0)), Counts_empty.
Qed.

(** After the heading pass the header map files each text under the
    numeral of its last occurrence. *)
Lemma allocateHeadings_headerMap (this : Webpage) :
  headerMap this = ∅ →
  Counts (headerMap (allocateHeadings this)) (λ t, occurrences t (headingTexts this)).
Proof.
  intros Hempty. destruct (allocateHeadings_spec this) as (Hm & _ & _).
  rewrite Hm, Hempty.
  apply (allocTexts_Counts ∅ (λ _, 0) (headingTexts this) Counts_empty).
Qed.

End Headings.

Lemma heading_ids_numbered_and_unique_witness :
  headerMap (Sample.page Sample.document ∅ Sample.options) = ∅ ∧
  headingIds (allocateHeadings (Sample.page Sample.document ∅ Sample.options)) !! 2 =
    Some (Some "Intro_1") ∧
  NoDup (headingIds (allocateHeadings (Sample.page Sample.document ∅ Sample.options))).
Proof.
  split; [reflexivity|].
  pose proof (heading_ids_numbered_and_unique
                (Sample.page Sample.document ∅ Sample.options) eq_refl) as (H & _ & Hnd).
  split; [|exact Hnd].
  exact (H 2 "Intro" eq_refl).
Defined.

Example heading_ids_example :
  headingIds (allocateHeadings (Sample.page Sample.document ∅ Sample.options)) =
    [Some "Intro_0"; Some "Setup_0"; Some "Intro_1"].
Proof. vm_compute. reflexivity. Qed.
(** ** [resolveLink]: the guards *)

Lemma truthy_Some (s : string) : s ≠ "" → Js.truthy (Some s) = true.
Proof. by destruct s. Qed.

Lemma truthy_false (v : option string) : Js.truthy v = false ↔ v = None ∨ v = Some "".
Proof.
  destruct v as [[|c s]|]; simpl.
  - split; [by right|done].
  - split; [done|]. by intros [?|?].
  - split; [by left|done].
Qed.

Lemma leftAsIs_nonempty (link : string) : leftAsIs link = true → link ≠ "".
Proof. by intros H ->. Qed.

(** The guards of the code answer yes exactly on the references described
    by [LeftAsIs]. *)
Lemma leftAsIs_reflect (link : string) : leftAsIs link = true ↔ LeftAsIs link.
Proof.
  unfold leftAsIs. split.
  - intros H.
    apply orb_prop in H as [H|H]; [apply orb_prop in H as [H|H];
      [apply orb_prop in H as [H|H]|]|].
    + apply andb_prop in H as [Happ Hre]. apply negb_true_iff in Happ.
      destruct (schemeRegexExec_inv link Hre) as (pre & scheme & sep & rest & -> & ? & ? & ?).
      by apply LeftAsIs_external.
    + apply startsWith_inv in H as [r ->]. apply LeftAsIs_data.
    + apply startsWith_inv in H as [r ->]. apply LeftAsIs_query.
    + apply startsWith_inv in H as [r ->]. apply LeftAsIs_mailto.
  - intros [pre scheme sep rest Hne Hw Hsep Happ| rest | rest | rest].
    + rewrite Happ, (schemeRegexExec_intro pre scheme sep rest Hne Hw Hsep). done.
    + rewrite (startsWith_app "data:" rest). by rewrite orb_true_r.
    + rewrite (startsWith_app "?" rest). by rewrite orb_true_r.
    + rewrite (startsWith_app "mailto:" rest). by rewrite orb_true_r.
Qed.

Lemma leftAsIs_false (link : string) :
  leftAsIs link = false →
  negb (Js.startsWith link "app://") && Js.schemeRegexExec link = false ∧
  Js.startsWith link "data:" = false ∧ Js.startsWith link "?" = false ∧
  Js.startsWith link "mailto:" = false.
Proof.
  unfold leftAsIs. intros H.
  apply orb_false_elim in H as [H H4]. apply orb_false_elim in H as [H H3].
  apply orb_false_elim in H as [H1 H2]. done.
Qed.

Lemma normalizeHeading_fragment (t : string) :
  normalizeHeading ("#" +:+ t) = "#" +:+ normalizeHeading t.
Proof. reflexivity. Qed.

Lemma schemeRegexExec_fragment (t : string) :
  Js.schemeRegexExec ("#" +:+ t) = Js.schemeRegexExec t.
Proof. reflexivity. Qed.

Lemma classList_toggle_on cls (el : Element) :
  cls ∈ classList (classList_toggle cls true el).
Proof.
  unfold classList_toggle, classList_contains. simpl. case_bool_decide; [done|].
  apply elem_of_app. right. by left.
Qed.

Lemma classList_toggle_off cls (el : Element) :
  cls ∉ classList (classList_toggle cls false el).
Proof.
  unfold classList_toggle. simpl. rewrite list_elem_of_filter. by intros [? _].
Qed.

(** Enter the body of [resolveLink] for a non-empty reference that the
    four guards do not stop. *)
Ltac pass_guards link Hne Hl :=
  unfold resolveLink;
  rewrite (truthy_Some link Hne);
  change (default "" (Some link)) with link;
  let G1 := fresh in let G2 := fresh in let G3 := fresh in let G4 := fresh in
  destruct (leftAsIs_false link Hl) as (G1 & G2 & G3 & G4);
  cbn [negb]; rewrite G1, G2, G3, G4.

Section Resolve.

Context {paths : PathApi}.

Implicit Types (this : Webpage) (link : string) (linkEl : Element).

Lemma resolveLink_LeftAsIs this link linkEl prefer :
  LeftAsIs link → resolveLink this (Some link) linkEl prefer = None.
Proof.
  intros H%leftAsIs_reflect. pose proof (leftAsIs_nonempty link H) as Hne.
  unfold resolveLink. rewrite (truthy_Some link Hne).
  change (default "" (Some link)) with link. cbn [negb].
  unfold leftAsIs in H.
  destruct (negb _ && _); [done|].
  destruct (Js.startsWith link "data:"); [done|].
  destruct (Js.startsWith link "?"); [done|].
  destruct (Js.startsWith link "mailto:"); done.
Qed.

(** What the loop bodies write into the class list: [is-unresolved] is
    there afterwards exactly when [resolveLink] gave [undefined] or the
    empty string. *)
Lemma remapLink_unresolved this linkEl :
  "is-unresolved" ∈ classList (remapLink this linkEl) ↔
  Js.truthy (resolveLink this (getAttribute linkEl "href") linkEl false) = false.
Proof.
  unfold remapLink.
  destruct (Js.truthy (resolveLink this (getAttribute linkEl "href") linkEl false)); simpl negb.
  - split; [|done]. intros H. by apply classList_toggle_off in H.
  - split; [done|]. intros _. apply classList_toggle_on.
Qed.

Lemma remapSrc_unresolved this linkEl :
  "is-unresolved" ∈ classList (remapSrc this linkEl) ↔
  Js.truthy (resolveLink this (getAttribute linkEl "src") linkEl true) = false.
Proof.
  unfold remapSrc.
  destruct (Js.truthy (resolveLink this (getAttribute linkEl "src") linkEl true)); simpl negb.
  - split; [|done]. intros H. by apply classList_toggle_off in H.
  - split; [done|]. intros _. apply classList_toggle_on.
Qed.

Lemma remapModelViewer_unresolved this linkEl :
  "is-unresolved" ∈ classList (remapModelViewer this linkEl) ↔
  Js.truthy (resolveLink this (getAttribute linkEl "src") linkEl true) = false.
Proof.
  unfold remapModelViewer.
  destruct (Js.truthy (resolveLink this (getAttribute linkEl "src") linkEl true)); simpl negb.
  - split; [|done]. intros H. by apply classList_toggle_off in H.
  - split; [done|]. intros _. apply classList_toggle_on.
Qed.

(** C6.  A reference holding an external scheme other than [app://], a
    data URI, a query-only reference or a mailto reference makes
    [resolveLink] return [undefined], and each remap loop writes the
    reference back as it found it. *)
Theorem resolveLink_leaves_foreign_references this link linkEl prefer :
  LeftAsIs link →
  resolveLink this (Some link) linkEl prefer = None ∧
  (getAttribute linkEl "href" = Some link →
     getAttribute (remapLink this linkEl) "href" = Some link) ∧
  (getAttribute linkEl "src" = Some link →
     getAttribute (remapSrc this linkEl) "src" = Some link ∧
     getAttribute (remapModelViewer this linkEl) "src" = Some link).
Proof.
  intros H. split; [by apply resolveLink_LeftAsIs|]. split.
  - intros Hhref. unfold remapLink.
    rewrite Hhref, (resolveLink_LeftAsIs this link linkEl false H).
    rewrite getAttribute_toggle, getAttribute_setAttribute_ne by done.
    apply getAttribute_setAttribute_eq.
  - intros Hsrc. unfold remapSrc, remapModelViewer.
    rewrite Hsrc, (resolveLink_LeftAsIs this link linkEl true H).
    rewrite !getAttribute_toggle, getAttribute_setAttribute_ne by done.
    split; apply getAttribute_setAttribute_eq.
Qed.

(** C10, as the code has it.  For a missing or empty reference
    [resolveLink] returns the empty string, not [undefined]; the loops
    then write an empty attribute and, the empty string being falsy, put
    the class [is-unresolved] on the element. *)
Theorem empty_reference_is_marked_unresolved this (ref : option string) linkEl prefer :
  ref = None ∨ ref = Some "" →
  resolveLink this (ref : option string) linkEl prefer = Some "" ∧
  (getAttribute linkEl "href" = ref →
     getAttribute (remapLink this linkEl) "href" = Some "" ∧
     "is-unresolved" ∈ classList (remapLink this linkEl)) ∧
  (getAttribute linkEl "src" = ref →
     getAttribute (remapSrc this linkEl) "src" = Some "" ∧
     "is-unresolved" ∈ classList (remapSrc this linkEl) ∧
     getAttribute (remapModelViewer this linkEl) "src" = Some "" ∧
     "is-unresolved" ∈ classList (remapModelViewer this linkEl)).
Proof.
  intros Href.
  assert (Hres : ∀ b, resolveLink this ref linkEl b = Some "").
  { intros b. by destruct Href as [-> | ->]. }
  split; [apply Hres|]. split.
  - intros Hhref. split.
    + unfold remapLink. rewrite Hhref, Hres.
      rewrite getAttribute_toggle, getAttribute_setAttribute_ne by done.
      apply getAttribute_setAttribute_eq.
    + apply remapLink_unresolved. by rewrite Hhref, Hres.
  - intros Hsrc. repeat split.
    + unfold remapSrc. rewrite Hsrc, Hres.
      rewrite getAttribute_toggle, getAttribute_setAttribute_ne by done.
      apply getAttribute_setAttribute_eq.
    + apply remapSrc_unresolved. by rewrite Hsrc, Hres.
    + unfold remapModelViewer. rewrite Hsrc, Hres.
      rewrite getAttribute_toggle. apply getAttribute_setAttribute_eq.
    + apply remapModelViewer_unresolved. by rewrite Hsrc, Hres.
Qed.

(** *** Fragments *)

Lemma resolveLink_fragment this t linkEl prefer :
  Js.schemeRegexExec t = false →
  getAttribute linkEl "data-href" = None ∨ getAttribute linkEl "data-href" = Some ("#" +:+ t) →
  resolveLink this (Some ("#" +:+ t)) linkEl prefer =
    match headerMap this !! normalizeHeading t with
    | Some suffix =>
        if relativeHeaderLinks (exportOptions this)
        then Some ("#" +:+ normalizeHeading t +:+ "_" +:+ suffix)
        else Some (path_toString (targetPath this) +:+ "#" +:+ normalizeHeading t +:+ "_" +:+ suffix)
    | None => Some ("#" +:+ t)
    end.
Proof.
  intros Hre Hdata.
  assert (Hl : leftAsIs ("#" +:+ t) = false).
  { unfold leftAsIs. by rewrite schemeRegexExec_fragment, Hre. }
  pass_guards ("#" +:+ t) (ltac:(done) : "#" +:+ t ≠ "") Hl.
  change (Js.startsWith ("#" +:+ t) "#") with true. cbv iota.
  assert (default ("#" +:+ t) (getAttribute linkEl "data-href") = "#" +:+ t) as ->.
  { by destruct Hdata as [-> | ->]. }
  rewrite normalizeHeading_fragment.
  change (Js.substring1 ("#" +:+ normalizeHeading t)) with (normalizeHeading t).
  done.
Qed.

(** C4, as the code has it.  Take a page whose headings were allocated
    from an empty header map, and a link ["#t"] whose text holds no
    [scheme://] and whose element has no [data-href] other than the link
    itself.  If [k + 1] headings of the page have the normalised text of
    [t], the link resolves to that text with the suffix [_k], the suffix of
    the last of them (so [_0] when there is one such heading), behind the
    page's own target path when [relativeHeaderLinks] is off.  If no
    heading has that text, the link comes back unchanged. *)
Theorem fragment_link_resolution this t linkEl prefer :
  headerMap this = ∅ →
  Js.schemeRegexExec t = false →
  getAttribute linkEl "data-href" = None ∨ getAttribute linkEl "data-href" = Some ("#" +:+ t) →
  (∀ k, occurrences (normalizeHeading t) (headingTexts this) = S k →
     resolveLink (allocateHeadings this) (Some ("#" +:+ t)) linkEl prefer =
       Some ((if relativeHeaderLinks (exportOptions this) then ""
              else path_toString (targetPath this))
             +:+ "#" +:+ normalizeHeading t +:+ "_" +:+ Js.numeral (N.of_nat k))) ∧
  (occurrences (normalizeHeading t) (headingTexts this) = 0 →
     resolveLink (allocateHeadings this) (Some ("#" +:+ t)) linkEl prefer =
       Some ("#" +:+ t)).
Proof.
  intros Hempty Hre Hdata.
  pose proof (allocateHeadings_headerMap this Hempty (normalizeHeading t)) as Hm.
  cbv beta in Hm.
  rewrite (resolveLink_fragment _ t linkEl prefer Hre Hdata).
  split; [intros k Hocc|intros Hocc]; rewrite Hocc in Hm; rewrite Hm; [|done].
  change (exportOptions (allocateHeadings this)) with (exportOptions this).
  change (targetPath (allocateHeadings this)) with (targetPath this).
  by destruct (relativeHeaderLinks (exportOptions this)).
Qed.

End Resolve.

Lemma resolveLink_leaves_foreign_references_witness :
  LeftAsIs "https://example.com/x.png" ∧
  resolveLink (Sample.page Sample.document ∅ Sample.options)
    (Some "https://example.com/x.png") Sample.anchor false = None.
Proof.
  assert (H : LeftAsIs "https://example.com/x.png").
  { apply (LeftAsIs_external "" "https" "//" "example.com/x.png");
      [discriminate | reflexivity | left; reflexivity | reflexivity]. }
  split; [exact H|].
  exact (proj1 (resolveLink_leaves_foreign_references
                  (Sample.page Sample.document ∅ Sample.options)
                  "https://example.com/x.png" Sample.anchor false H)).
Defined.

Lemma empty_reference_is_marked_unresolved_witness :
  resolveLink (Sample.page Sample.document ∅ Sample.options) (Some "") Sample.anchor false
    = Some "".
Proof.
  exact (proj1 (empty_reference_is_marked_unresolved
                  (Sample.page Sample.document ∅ Sample.options)
                  (Some "") Sample.anchor false (or_intror eq_refl))).
Defined.

(** C10 as stated fails: the anchor with the empty [href] ends the pass
    with an empty [href] and with the class [is-unresolved] on. *)
Lemma empty_reference_toggled_off_counterexample :
  let page := remapLinks (Sample.page Sample.document ∅ Sample.options) in
  (λ e, getAttribute e "href") <$> Sample.document !! 11 = Some (Some "") ∧
  (λ e, (getAttribute e "href", classList e)) <$> pageDocument page !! 11 =
    Some (Some "", ["is-unresolved"]).
Proof. vm_compute. split; reflexivity. Qed.

Lemma fragment_link_resolution_witness :
  resolveLink (allocateHeadings (Sample.page Sample.shortDocument ∅ Sample.options))
    (Some "#Intro") Sample.anchor false = Some "#Intro_0" ∧
  resolveLink (allocateHeadings (Sample.page Sample.shortDocument ∅ Sample.options))
    (Some "#Unknown") Sample.anchor false = Some "#Unknown".
Proof.
  split.
  - exact (proj1 (fragment_link_resolution
                    (Sample.page Sample.shortDocument ∅ Sample.options)
                    "Intro" Sample.anchor false eq_refl eq_refl (or_introl eq_refl))
             0 eq_refl).
  - exact (proj2 (fragment_link_resolution
                    (Sample.page Sample.shortDocument ∅ Sample.options)
                    "Unknown" Sample.anchor false eq_refl eq_refl (or_introl eq_refl)) eq_refl).
Defined.

(** C4 as stated fails when header links are not relative: the only
    "Intro" heading of the page is the first one met, yet ["#Intro"] does
    not resolve to ["#Intro_0"]. *)
Lemma fragment_link_counterexample :
  let page := Sample.page Sample.shortDocument ∅ Sample.absoluteOptions in
  headingTexts page = ["Intro"; "Setup"] ∧
  headerMap (allocateHeadings page) !! "Intro" = Some "0" ∧
  resolveLink (allocateHeadings page) (Some "#Intro") Sample.anchor false =
    Some "notes/home.html#Intro_0" ∧
  resolveLink (allocateHeadings page) (Some "#Intro") Sample.anchor false ≠ Some "#Intro_0".
Proof. vm_compute. repeat split; discriminate. Qed.

(** ** [resolveLink]: references to files *)

Lemma lacksChar_startsWith (c : ascii) (s : string) :
  lacksChar c s = true → Js.startsWith s (String c "") = false.
Proof.
  destruct s as [|a s]; simpl; [done|].
  intros H. apply andb_prop in H as [Ha _]. apply negb_true_iff in Ha.
  rewrite Ascii.eqb_sym in Ha. by rewrite Ha.
Qed.

Section Paths.

Context {paths : PathApi}.

Implicit Types (this : Webpage) (link : string) (linkEl : Element).

Lemma resolveLink_bare_path this link linkEl prefer :
  link ≠ "" → leftAsIs link = false →
  lacksChar "?" link = true → lacksChar "#" link = true →
  resolveLink this (Some link) linkEl prefer =
    match index_getFile (website this) (path_pathname (lookupPath this link)) prefer with
    | None => Some (synthesizedPath this link)
    | Some attachment =>
        if String.eqb (path_extensionName (att_targetPath attachment)) "html" then
          match headerMap this !! "undefined" with
          | Some headerId =>
              Some (path_path (att_targetPath attachment) +:+ "#undefined_" +:+ headerId)
          | None => Some (path_path (att_targetPath attachment) +:+ "#undefined")
          end
        else Some (path_path (att_targetPath attachment) +:+ "#undefined")
    end.
Proof.
  intros Hne Hl Hq Hh.
  pass_guards link Hne Hl.
  rewrite (lacksChar_startsWith "#" link Hh). cbv zeta.
  rewrite (split_lacks link "?" Hq).
  change ([link] !! 0) with (Some link). change ([link] !! 1) with (@None string).
  change (default "" (Some link)) with link.
  rewrite (split_lacks link "#" Hh).
  change ([link] !! 0) with (Some link). change ([link] !! 1) with (@None string).
  change (default "" (Some link)) with link.
  fold (lookupPath this link).
  destruct (index_getFile _ _ _) as [attachment|]; [|done].
  change (Js.trim <$> None) with (@None string). cbn [Js.truthy Js.toStr].
  change (Js.substring1 (normalizeHeading ("#" +:+ "undefined"))) with "undefined".
  destruct (String.eqb _ "html"); [|done].
  by destruct (headerMap this !! "undefined").
Qed.

(** C5, at the input where it fails.  A reference without query and
    without fragment that the Index resolves comes back as the
    attachment's target path followed by ["#undefined"]: the hash that is
    not there is turned into a string before it is tested. *)
Theorem bare_path_gets_undefined_fragment this link linkEl prefer attachment :
  link ≠ "" → leftAsIs link = false →
  lacksChar "?" link = true → lacksChar "#" link = true →
  index_getFile (website this) (path_pathname (lookupPath this link)) prefer = Some attachment →
  headerMap this !! "undefined" = None →
  resolveLink this (Some link) linkEl prefer =
    Some (path_path (att_targetPath attachment) +:+ "#undefined").
Proof.
  intros Hne Hl Hq Hh Hidx Hundef.
  rewrite (resolveLink_bare_path this link linkEl prefer Hne Hl Hq Hh), Hidx, Hundef.
  by destruct (String.eqb _ "html").
Qed.

(** C1, at the input where it fails.  In a reference written
    [path?query#fragment] the text is cut at the question mark first, so
    the fragment stays inside the query and is not looked up in the header
    map; the hash that is not there is appended as ["#undefined"]. *)
Theorem query_then_fragment_keeps_fragment_in_query this p q f linkEl prefer attachment :
  p ≠ "" → leftAsIs (p +:+ "?" +:+ q +:+ "#" +:+ f) = false →
  lacksChar "?" p = true → lacksChar "#" p = true →
  lacksChar "?" q = true → lacksChar "?" f = true →
  index_getFile (website this) (path_pathname (lookupPath this p)) prefer = Some attachment →
  headerMap this !! "undefined" = None →
  resolveLink this (Some (p +:+ "?" +:+ q +:+ "#" +:+ f)) linkEl prefer =
    Some (path_path (att_targetPath attachment)
          +:+ "?" +:+ Js.trim (q +:+ "#" +:+ f) +:+ "#undefined").
Proof.
  intros Hne Hl Hqp Hhp Hqq Hqf Hidx Hundef.
  set (link := p +:+ "?" +:+ q +:+ "#" +:+ f) in *.
  assert (Hlink : link ≠ "").
  { unfold link. destruct p; [done|]. by unfold_append. }
  assert (Hfrag : Js.startsWith link "#" = false).
  { unfold link. destruct p as [|a p]; [done|].
    apply (lacksChar_startsWith "#" (String a p)) in Hhp.
    unfold_append. exact Hhp. }
  assert (Hrest : lacksChar "?" (q +:+ "#" +:+ f) = true).
  { rewrite !lacksChar_app, Hqq, Hqf. done. }
  pass_guards link Hlink Hl.
  rewrite Hfrag. cbv zeta.
  assert (Hsplit : Js.split link "?" = [p; q +:+ "#" +:+ f]).
  { unfold link.
    rewrite <- (split_lacks _ "?" Hrest).
    exact (split_app_sep p (q +:+ "#" +:+ f) "?" Hqp). }
  rewrite Hsplit.
  change ([p; q +:+ "#" +:+ f] !! 0) with (Some p).
  change ([p; q +:+ "#" +:+ f] !! 1) with (Some (q +:+ "#" +:+ f)).
  change (default "" (Some p)) with p.
  rewrite (split_lacks p "#" Hhp).
  change ([p] !! 0) with (Some p). change ([p] !! 1) with (@None string).
  change (default "" (Some p)) with p.
  fold (lookupPath this p). rewrite Hidx.
  change (Js.trim <$> None) with (@None string).
  change (Js.trim <$> Some (q +:+ "#" +:+ f)) with (Some (Js.trim (q +:+ "#" +:+ f))).
  rewrite (truthy_Some _ (trim_keeps q f "#" eq_refl : Js.trim (q +:+ "#" +:+ f) ≠ "")).
  cbn [Js.truthy Js.toStr].
  change (Js.substring1 (normalizeHeading ("#" +:+ "undefined"))) with "undefined".
  rewrite Hundef.
  destruct (String.eqb _ "html"); by rewrite !append_assoc.
Qed.

Lemma pathPart_bare link :
  lacksChar "?" link = true → lacksChar "#" link = true → pathPart link = link.
Proof.
  intros Hq Hh. unfold pathPart. rewrite (split_lacks link "?" Hq).
  change ([link] !! 0) with (Some link). change (default "" (Some link)) with link.
  by rewrite (split_lacks link "#" Hh).
Qed.

Lemma append_nil_r (s : string) : s +:+ "" = s.
Proof. induction s as [|a s IH]; unfold_append; [done|]. by f_equal. Qed.

Lemma resolveLink_unknown_path this link linkEl prefer :
  link ≠ "" → leftAsIs link = false → Js.startsWith link "#" = false →
  index_getFile (website this) (path_pathname (lookupPath this (pathPart link))) prefer = None →
  resolveLink this (Some link) linkEl prefer =
    Some (synthesizedPath this (pathPart link) +:+ queryPart link +:+ fragmentPart link).
Proof.
  intros Hne Hl Hfrag Hidx.
  pass_guards link Hne Hl. rewrite Hfrag. cbv zeta.
  fold (pathPart link). fold (lookupPath this (pathPart link)). rewrite Hidx.
  fold (synthesizedPath this (pathPart link)).
  unfold queryPart, fragmentPart. cbv zeta.
  destruct (Js.truthy (Js.trim <$> Js.split link "?" !! 1));
    destruct (Js.truthy (Js.trim <$> Js.split _ "#" !! 1)); cbv iota.
  - by rewrite !append_assoc.
  - by rewrite append_nil_r.
  - by rewrite append_nil_l.
  - by rewrite append_nil_l, append_nil_r.
Qed.

(** C2, at the inputs where it fails.  A reference to a file that the
    Index does not know resolves to the slugified path of its path part
    with the extension [html], followed by its query and its fragment;
    for a reference without query and fragment that path is the whole
    result.  The loop of [remapLinks] writes the result into [href] and
    puts [is-unresolved] on the element only if the result is the empty
    string: the link that could not be resolved ends the loop without the
    class.  The class is on an element after the loop exactly when
    [resolveLink] returned [undefined] or the empty string, so it is on
    every element whose reference is left as it is, an external URL for
    one. *)
Theorem unresolved_class_follows_falsy_result this :
  (∀ link linkEl prefer,
     link ≠ "" → leftAsIs link = false → Js.startsWith link "#" = false →
     index_getFile (website this) (path_pathname (lookupPath this (pathPart link))) prefer
       = None →
     resolveLink this (Some link) linkEl prefer =
       Some (synthesizedPath this (pathPart link) +:+ queryPart link +:+ fragmentPart link)) ∧
  (∀ link linkEl,
     link ≠ "" → leftAsIs link = false → Js.startsWith link "#" = false →
     index_getFile (website this) (path_pathname (lookupPath this (pathPart link))) false
       = None →
     getAttribute linkEl "href" = Some link →
     getAttribute (remapLink this linkEl) "href" =
       Some (synthesizedPath this (pathPart link) +:+ queryPart link +:+ fragmentPart link) ∧
     ("is-unresolved" ∈ classList (remapLink this linkEl) ↔
      synthesizedPath this (pathPart link) +:+ queryPart link +:+ fragmentPart link = "")) ∧
  (∀ link linkEl,
     link ≠ "" → leftAsIs link = false →
     lacksChar "?" link = true → lacksChar "#" link = true →
     index_getFile (website this) (path_pathname (lookupPath this link)) false = None →
     resolveLink this (Some link) linkEl false = Some (synthesizedPath this link) ∧
     (getAttribute linkEl "href" = Some link →
        getAttribute (remapLink this linkEl) "href" = Some (synthesizedPath this link) ∧
        ("is-unresolved" ∈ classList (remapLink this linkEl) ↔
         synthesizedPath this link = ""))) ∧
  (∀ linkEl,
     "is-unresolved" ∈ classList (remapLink this linkEl) ↔
     resolveLink this (getAttribute linkEl "href") linkEl false = None ∨
     resolveLink this (getAttribute linkEl "href") linkEl false = Some "") ∧
  (∀ link linkEl,
     LeftAsIs link → getAttribute linkEl "href" = Some link →
     "is-unresolved" ∈ classList (remapLink this linkEl)).
Proof.
  split; [|split; [|split; [|split]]].
  - intros link linkEl prefer. apply resolveLink_unknown_path.
  - intros link linkEl Hne Hl Hfrag Hidx Hhref.
    pose proof (resolveLink_unknown_path this link linkEl false Hne Hl Hfrag Hidx) as Hres.
    split.
    + unfold remapLink. rewrite Hhref, Hres.
      rewrite getAttribute_toggle, getAttribute_setAttribute_ne by done.
      apply getAttribute_setAttribute_eq.
    + rewrite remapLink_unresolved, Hhref, Hres, truthy_false. split.
      * intros [?|?]; congruence.
      * intros ->. by right.
  - intros link linkEl Hne Hl Hq Hh Hidx.
    assert (Hres : resolveLink this (Some link) linkEl false = Some (synthesizedPath this link)).
    { by rewrite (resolveLink_bare_path this link linkEl false Hne Hl Hq Hh), Hidx. }
    split; [exact Hres|]. intros Hhref. split.
    + unfold remapLink. rewrite Hhref, Hres.
      rewrite getAttribute_toggle, getAttribute_setAttribute_ne by done.
      apply getAttribute_setAttribute_eq.
    + rewrite remapLink_unresolved, Hhref, Hres, truthy_false. split.
      * intros [?|?]; congruence.
      * intros ->. by right.
  - intros linkEl. by rewrite remapLink_unresolved, truthy_false.
  - intros link linkEl Hleft Hhref. apply remapLink_unresolved.
    by rewrite Hhref, (resolveLink_LeftAsIs this link linkEl false Hleft).
Qed.

End Paths.

Lemma bare_path_gets_undefined_fragment_witness :
  resolveLink (Sample.page Sample.document ∅ Sample.options)
    (Some "notes/page.md") Sample.anchor false = Some "notes/page.html#undefined".
Proof.
  exact (bare_path_gets_undefined_fragment
           (Sample.page Sample.document ∅ Sample.options)
           "notes/page.md" Sample.anchor false Sample.pageAttachment
           ltac:(discriminate) eq_refl eq_refl eq_refl eq_refl eq_refl).
Defined.

Lemma query_then_fragment_keeps_fragment_in_query_witness :
  headerMap (allocateHeadings (Sample.page Sample.document ∅ Sample.options)) !! "Setup"
    = Some "0" ∧
  resolveLink (allocateHeadings (Sample.page Sample.document ∅ Sample.options))
    (Some "notes/page.md?x=1#Setup") Sample.anchor false =
    Some "notes/page.html?x=1#Setup#undefined".
Proof.
  split; [reflexivity|].
  exact (query_then_fragment_keeps_fragment_in_query
           (allocateHeadings (Sample.page Sample.document ∅ Sample.options))
           "notes/page.md" "x=1" "Setup" Sample.anchor false Sample.pageAttachment
           ltac:(discriminate) eq_refl eq_refl eq_refl eq_refl eq_refl eq_refl eq_refl).
Defined.

Lemma unresolved_class_follows_falsy_result_witness :
  getAttribute
    (remapLink (Sample.page Sample.document ∅ Sample.options)
       (Sample.element "A" [("href", "missing/note.md?v=2")] [] "missing" (Some 4)))
    "href" = Some "missing/note.html?v=2" ∧
  ("is-unresolved" ∈
     classList
       (remapLink (Sample.page Sample.document ∅ Sample.options)
          (Sample.element "A" [("href", "missing/note.md?v=2")] [] "missing" (Some 4))) ↔
   "missing/note.html?v=2" = "").
Proof.
  exact (proj1 (proj2 (unresolved_class_follows_falsy_result
                         (Sample.page Sample.document ∅ Sample.options)))
           "missing/note.md?v=2"
           (Sample.element "A" [("href", "missing/note.md?v=2")] [] "missing" (Some 4))
           ltac:(discriminate) eq_refl eq_refl eq_refl eq_refl).
Defined.

(** The two failures on one page: after [remapLinks] the link to a note
    the Index does not know carries no [is-unresolved], and the link to
    an external URL, left as it is, carries it. *)
Example unresolved_marking_example :
  let page := Sample.page Sample.document ∅ Sample.options in
  index_getFile (website page) "missing/note.md" false = None ∧
  (λ e, getAttribute e "href") <$> pageDocument page !! 10 = Some (Some "missing/note.md") ∧
  (λ e, (getAttribute e "href", classList e)) <$> pageDocument (remapLinks page) !! 10 =
    Some (Some "missing/note.html", []) ∧
  (λ e, getAttribute e "href") <$> pageDocument page !! 9 =
    Some (Some "https://example.com/x.png") ∧
  (λ e, (getAttribute e "href", classList e)) <$> pageDocument (remapLinks page) !! 9 =
    Some (Some "https://example.com/x.png", ["is-unresolved"]).
Proof. vm_compute. repeat split; reflexivity. Qed.

(** ** The remap loops on the document *)

Lemma forEachElement_lookup (f : Element → Element) (doc : Document) (ns : list nat) (i : nat) :
  NoDup ns →
  forEachElement f doc ns !! i = if decide (i ∈ ns) then f <$> doc !! i else doc !! i.
Proof.
  unfold forEachElement. revert doc.
  induction ns as [|n ns IH]; intros doc Hnd; cbn [foldl].
  { destruct (decide (i ∈ [])) as [H|H]; [by apply elem_of_nil in H|done]. }
  apply NoDup_cons in Hnd as [Hn Hnd]. rewrite (IH _ Hnd).
  destruct (decide (i = n)) as [->|Hin].
  - rewrite (decide_False _ _ Hn), decide_True by left.
    apply list_lookup_alter_eq.
  - rewrite list_lookup_alter_ne by done.
    destruct (decide (i ∈ ns)) as [Hi|Hi].
    + rewrite decide_True; [done|]. by right.
    + rewrite decide_False; [done|]. by apply not_elem_of_cons.
Qed.

Lemma sameButOnclick_refl (e : Element) : sameButOnclick e e.
Proof. by repeat split. Qed.

Lemma sameButOnclick_trans (e1 e2 e3 : Element) :
  sameButOnclick e1 e2 → sameButOnclick e2 e3 → sameButOnclick e1 e3.
Proof.
  intros (Ht & Hc & Hx & Hp & Ha) (Ht' & Hc' & Hx' & Hp' & Ha').
  repeat split; try congruence.
  intros name Hname. by rewrite Ha', Ha.
Qed.

Lemma sameButOnclick_set (e : Element) (v : string) :
  sameButOnclick e (setAttribute "onclick" v e).
Proof.
  repeat split. intros name Hname. by apply getAttribute_setAttribute_ne.
Qed.

Lemma remapButton_lookup (doc : Document) (b i : nat) :
  match doc !! i, remapButton doc b !! i with
  | Some e, Some e' => sameButOnclick e e'
  | None, None => True
  | _, _ => False
  end.
Proof.
  assert (Hsame : match doc !! i, doc !! i with
                  | Some e, Some e' => sameButOnclick e e'
                  | None, None => True
                  | _, _ => False
                  end).
  { destruct (doc !! i); [apply sameButOnclick_refl|done]. }
  unfold remapButton.
  destruct (doc !! b) as [button|]; [|exact Hsame].
  destruct (String.eqb _ _); [|exact Hsame].
  destruct (closestIframeContainer doc b); [|exact Hsame].
  destruct (containsIframe doc _); [|exact Hsame].
  destruct (decide (b = i)) as [->|Hne].
  - rewrite list_lookup_alter_eq. destruct (doc !! i); [|done].
    apply sameButOnclick_set.
  - rewrite list_lookup_alter_ne by done. exact Hsame.
Qed.

Lemma foldl_remapButton_lookup (doc : Document) (bs : list nat) (i : nat) :
  match doc !! i, foldl remapButton doc bs !! i with
  | Some e, Some e' => sameButOnclick e e'
  | None, None => True
  | _, _ => False
  end.
Proof.
  revert doc. induction bs as [|b bs IH]; intros doc; simpl.
  { destruct (doc !! i); [apply sameButOnclick_refl|done]. }
  pose proof (remapButton_lookup doc b i) as H1.
  pose proof (IH (remapButton doc b)) as H2.
  destruct (doc !! i), (remapButton doc b !! i),
    (foldl remapButton (remapButton doc b) bs !! i); try done.
  by eapply sameButOnclick_trans.
Qed.

Section Remap.

Context {paths : PathApi}.

Implicit Types (this : Webpage) (e : Element).

(** Every link the loop of [remapLinks] goes over ends the pass as the
    loop body left it, up to an [onclick] attribute. *)
Lemma remapLinks_at this (i : nat) :
  i ∈ hrefLinkElements (pageDocument (allocateHeadings this)) →
  ∃ e e', pageDocument (allocateHeadings this) !! i = Some e ∧
          pageDocument (remapLinks this) !! i = Some e' ∧
          sameButOnclick (remapLink (allocateHeadings this) e) e'.
Proof.
  intros Hi. pose proof Hi as Hsel.
  apply querySelectorAll_elem in Hsel as (e & He & _).
  unfold remapLinks. cbn [pageDocument withDocument].
  set (this' := allocateHeadings this) in *.
  set (doc1 := forEachElement (remapLink this') (pageDocument this')
                 (hrefLinkElements (pageDocument this'))).
  assert (Hd1 : doc1 !! i = Some (remapLink this' e)).
  { unfold doc1. rewrite forEachElement_lookup by apply querySelectorAll_NoDup.
    by rewrite decide_True, He. }
  pose proof (foldl_remapButton_lookup doc1 (querySelectorAll doc1 selButton) i) as H.
  rewrite Hd1 in H.
  destruct (foldl remapButton doc1 (querySelectorAll doc1 selButton) !! i) as [e'|] eqn:E;
    [|done].
  by exists e, e'.
Qed.

(** Every anchor the loop of [remapLinks] goes over carries
    [target=_self] when the pass ends. *)
Lemma remapLinks_sets_target this (i : nat) :
  i ∈ hrefLinkElements (pageDocument (allocateHeadings this)) →
  pageDocument (remapLinks this) !! i ≫= (λ e, getAttribute e "target") = Some "_self".
Proof.
  intros Hi. destruct (remapLinks_at this i Hi) as (e & e' & _ & -> & Hsame).
  destruct Hsame as (_ & _ & _ & _ & Hattr). simpl.
  rewrite Hattr by done. unfold remapLink.
  rewrite getAttribute_toggle. apply getAttribute_setAttribute_eq.
Qed.

(** The later loops of [remapLinks] leave the ids of the headings as the
    heading pass set them. *)
Lemma remapLinks_keeps_heading_ids this :
  headingIds (remapLinks this) = headingIds (allocateHeadings this).
Proof.
  set (this' := allocateHeadings this).
  assert (Hat : ∀ i : nat,
            match pageDocument this' !! i, pageDocument (remapLinks this) !! i with
            | Some e, Some e' =>
                tagName e' = tagName e ∧ getAttribute e' "id" = getAttribute e "id"
            | None, None => True
            | _, _ => False
            end).
  { intros i. unfold remapLinks. cbn [pageDocument withDocument]. fold this'.
    set (doc1 := forEachElement (remapLink this') (pageDocument this')
                   (hrefLinkElements (pageDocument this'))).
    pose proof (foldl_remapButton_lookup doc1 (querySelectorAll doc1 selButton) i) as H.
    assert (Hd1 : doc1 !! i =
              if decide (i ∈ hrefLinkElements (pageDocument this'))
              then remapLink this' <$> pageDocument this' !! i else pageDocument this' !! i).
    { apply forEachElement_lookup, querySelectorAll_NoDup. }
    rewrite Hd1 in H.
    destruct (pageDocument this' !! i) as [e|];
      destruct (decide _); simpl in H;
      destruct (foldl remapButton doc1 (querySelectorAll doc1 selButton) !! i) as [e'|];
      try done; destruct H as (Ht & _ & _ & _ & Ha); rewrite Ht, Ha by done; try done.
    split; [done|]. unfold remapLink.
    by rewrite getAttribute_toggle, !getAttribute_setAttribute_ne. }
  assert (Hlen : length (pageDocument (remapLinks this)) = length (pageDocument this')).
  { apply Nat.le_antisymm.
    - destruct (decide (length (pageDocument (remapLinks this)) ≤ length (pageDocument this')))
        as [|Hgt]; [done|].
      pose proof (Hat (length (pageDocument this'))) as H.
      rewrite (proj2 (lookup_ge_None (pageDocument this') _)) in H by lia.
      destruct (pageDocument (remapLinks this) !! length (pageDocument this')) eqn:E; [done|].
      apply lookup_ge_None in E. lia.
    - destruct (decide (length (pageDocument this') ≤ length (pageDocument (remapLinks this))))
        as [|Hgt]; [done|].
      pose proof (Hat (length (pageDocument (remapLinks this)))) as H.
      rewrite (proj2 (lookup_ge_None (pageDocument (remapLinks this)) _)) in H by lia.
      destruct (pageDocument this' !! length (pageDocument (remapLinks this))) eqn:E; [done|].
      apply lookup_ge_None in E. lia. }
  assert (Hqs : querySelectorAll (pageDocument (remapLinks this)) selHeading =
                querySelectorAll (pageDocument this') selHeading).
  { apply querySelectorAll_ext; [exact Hlen|]. intros i. specialize (Hat i).
    destruct (pageDocument this' !! i), (pageDocument (remapLinks this) !! i); try done.
    simpl. unfold selHeading. destruct Hat as [-> _]. done. }
  unfold headingIds. rewrite Hqs. apply list_fmap_ext. intros j i Hj.
  specialize (Hat i).
  destruct (pageDocument this' !! i), (pageDocument (remapLinks this) !! i); try done.
  simpl. by destruct Hat as [_ ->].
Qed.

Lemma srcLinkElements_NoDup (doc : Document) : NoDup (srcLinkElements doc).
Proof. apply NoDup_filter, querySelectorAll_NoDup. Qed.

Lemma remapModelViewer_target this e :
  getAttribute (remapModelViewer this e) "target" = getAttribute e "target".
Proof.
  unfold remapModelViewer. rewrite getAttribute_toggle.
  by apply getAttribute_setAttribute_ne.
Qed.

Lemma remapSrc_target this e : getAttribute (remapSrc this e) "target" = Some "_self".
Proof.
  unfold remapSrc. rewrite getAttribute_toggle. apply getAttribute_setAttribute_eq.
Qed.

Lemma tagName_remapSrc this e : tagName (remapSrc this e) = tagName e.
Proof. done. Qed.

Lemma tagName_remapModelViewer this e : tagName (remapModelViewer this e) = tagName e.
Proof. done. Qed.

(** Every element of [srcLinkElements] and every iframe carries
    [target=_self] after [remapEmbedLinks]. *)
Lemma remapEmbedLinks_sets_target this (i : nat) :
  i ∈ srcLinkElements (pageDocument this) ∨
  i ∈ querySelectorAll (pageDocument this) selIframe →
  pageDocument (remapEmbedLinks this) !! i ≫= (λ e, getAttribute e "target") = Some "_self".
Proof.
  intros Hi. unfold remapEmbedLinks. cbn [pageDocument withDocument].
  set (doc := pageDocument this) in *.
  set (doc1 := forEachElement (remapSrc this) doc (srcLinkElements doc)).
  set (doc2 := forEachElement (remapSrc this) doc1 (querySelectorAll doc1 selIframe)).
  assert (H1 : ∀ k : nat, doc1 !! k =
            if decide (k ∈ srcLinkElements doc) then remapSrc this <$> doc !! k else doc !! k).
  { intros k. apply forEachElement_lookup, srcLinkElements_NoDup. }
  assert (H2 : ∀ k : nat, doc2 !! k =
            if decide (k ∈ querySelectorAll doc1 selIframe)
            then remapSrc this <$> doc1 !! k else doc1 !! k).
  { intros k. apply forEachElement_lookup, querySelectorAll_NoDup. }
  assert (Hd2 : ∃ e2, doc2 !! i = Some e2 ∧ getAttribute e2 "target" = Some "_self").
  { rewrite H2. destruct (decide (i ∈ querySelectorAll doc1 selIframe)) as [Hf|Hf].
    - apply querySelectorAll_elem in Hf as (e1 & He1 & _). rewrite He1.
      eexists. split; [done|]. apply remapSrc_target.
    - destruct Hi as [Hi|Hi].
      + rewrite H1, decide_True by done.
        assert (∃ e, doc !! i = Some e) as [e He].
        { unfold srcLinkElements in Hi. apply list_elem_of_filter in Hi as [_ Hi].
          apply querySelectorAll_elem in Hi as (e & He & _). by exists e. }
        rewrite He. eexists. split; [done|]. apply remapSrc_target.
      + exfalso. apply Hf. apply querySelectorAll_elem in Hi as (e & He & Hs).
        apply querySelectorAll_elem. rewrite H1.
        destruct (decide (i ∈ srcLinkElements doc)); rewrite He; eexists; split; done. }
  destruct Hd2 as (e2 & He2 & Ht).
  rewrite forEachElement_lookup by apply querySelectorAll_NoDup.
  destruct (decide _); rewrite He2; simpl; [|done].
  by rewrite remapModelViewer_target.
Qed.

(** C9, at the input where it fails.  A [model-viewer] element that is not
    among [srcLinkElements] (it has no [src] attribute, or lies outside
    [.obsidian-document]) is gone over by the third loop of
    [remapEmbedLinks] only, and that loop does not set [target]: the
    element ends the pass as [remapModelViewer] left it, with the [target]
    attribute it had before. *)
Theorem model_viewer_keeps_its_target this (i : nat) e :
  pageDocument this !! i = Some e →
  tagName e = "MODEL-VIEWER" →
  i ∉ srcLinkElements (pageDocument this) →
  i ∈ modelViewerElements this ∧
  pageDocument (remapEmbedLinks this) !! i = Some (remapModelViewer this e) ∧
  getAttribute (remapModelViewer this e) "target" = getAttribute e "target".
Proof.
  intros He Htag Hsrc.
  unfold modelViewerElements, documentBeforeModelViewers. cbv zeta.
  set (doc := pageDocument this) in *.
  set (doc1 := forEachElement (remapSrc this) doc (srcLinkElements doc)).
  set (doc2 := forEachElement (remapSrc this) doc1 (querySelectorAll doc1 selIframe)).
  assert (H1 : doc1 !! i = Some e).
  { unfold doc1. rewrite forEachElement_lookup by apply srcLinkElements_NoDup.
    by rewrite decide_False. }
  assert (Hnot : i ∉ querySelectorAll doc1 selIframe).
  { intros (e1 & He1 & Hs)%querySelectorAll_elem.
    rewrite H1 in He1. inversion He1; subst e1.
    unfold selIframe, tagIs in Hs. by rewrite Htag in Hs. }
  assert (H2 : doc2 !! i = Some e).
  { unfold doc2. rewrite forEachElement_lookup by apply querySelectorAll_NoDup.
    by rewrite decide_False. }
  assert (Hin : i ∈ querySelectorAll doc2 selModelViewer).
  { apply querySelectorAll_elem. exists e. split; [done|].
    unfold selModelViewer, tagIs. by rewrite Htag. }
  split; [exact Hin|]. split; [|apply remapModelViewer_target].
  unfold remapEmbedLinks. cbn [pageDocument withDocument]. fold doc doc1 doc2.
  rewrite forEachElement_lookup by apply querySelectorAll_NoDup.
  by rewrite decide_True, H2.
Qed.

End Remap.

Lemma model_viewer_keeps_its_target_witness :
  let page := remapLinks (Sample.page Sample.document ∅ Sample.options) in
  (λ e, (tagName e, getAttribute e "target")) <$> pageDocument page !! 15 =
    Some ("MODEL-VIEWER", None) ∧
  (λ e, getAttribute e "target") <$> pageDocument (remapEmbedLinks page) !! 15 = Some None.
Proof.
  split; [reflexivity|].
  assert (Hsrc : 15 ∉ srcLinkElements
                        (pageDocument (remapLinks (Sample.page Sample.document ∅ Sample.options)))).
  { vm_compute. intros H. repeat (apply elem_of_cons in H as [H|H]; [discriminate|]).
    by apply elem_of_nil in H. }
  destruct (model_viewer_keeps_its_target
              (remapLinks (Sample.page Sample.document ∅ Sample.options)) 15
              (Sample.element "MODEL-VIEWER" [("poster", "media/pic.png")] [] "" (Some 4))
              eq_refl eq_refl Hsrc) as (_ & Hd & Ht).
  rewrite Hd. cbn [fmap option_fmap option_map]. rewrite Ht. reflexivity.
Defined.

(** After both passes the second [model-viewer] of the sample document,
    which has no [src], has been given an empty [src] and the class
    [is-unresolved], and no [target]; the first one, which has a [src],
    got its [target] from the first loop. *)
Example model_viewer_example :
  let page := remapEmbedLinks (remapLinks (Sample.page Sample.document ∅ Sample.options)) in
  (λ e, (getAttribute e "src", getAttribute e "target", classList e))
    <$> pageDocument page !! 15 = Some (Some "", None, ["is-unresolved"]) ∧
  (λ e, getAttribute e "target") <$> pageDocument page !! 14 = Some (Some "_self").
Proof. vm_compute. split; reflexivity. Qed.

(** ** Slide embeds *)

Section EmbedFacts.

Context {paths : PathApi} {host : SlidesHost}.

Implicit Types (run : ExportRun) (this : Webpage) (slideFile : TFile)
  (page : JsNumber) (iframe : Element) (att : Attachment).

Lemma attachEmbed_attached this att iframe :
  att ∈ attachments (attachEmbed this att iframe).1.
Proof.
  unfold attachEmbed. simpl. case_bool_decide; [done|].
  simpl. apply elem_of_app. right. by left.
Qed.

Lemma attachEmbed_keeps this att iframe (a : Attachment) :
  a ∈ attachments this → a ∈ attachments (attachEmbed this att iframe).1.
Proof.
  intros Ha. unfold attachEmbed. simpl. case_bool_decide; [done|].
  simpl. apply elem_of_app. by left.
Qed.

Lemma attachEmbed_targetPath this att iframe :
  targetPath (attachEmbed this att iframe).1 = targetPath this.
Proof. unfold attachEmbed. simpl. by case_bool_decide. Qed.

Lemma attachEmbed_src this att iframe :
  getAttribute (attachEmbed this att iframe).2 "src" = Some (iframeSrc this att).
Proof.
  unfold attachEmbed. cbn [snd].
  rewrite !getAttribute_setAttribute_ne by done.
  rewrite getAttribute_setAttribute_eq. unfold iframeSrc.
  by case_bool_decide.
Qed.

Lemma processEmbed_hit run this slideFile page iframe att :
  advancedSlidesEmbedCache run !! cacheKey slideFile page = Some att →
  processEmbed run this slideFile page iframe = (run, attachEmbed this att iframe).
Proof. intros H. unfold processEmbed. by rewrite H. Qed.

Lemma processEmbed_failed run this slideFile page iframe :
  advancedSlidesEmbedCache run !! cacheKey slideFile page = None →
  Js.truthy (renderFile (renderer run) (absolutePath slideFile)).1 = false →
  processEmbed run this slideFile page iframe =
    ({| advancedSlidesEmbedCache := advancedSlidesEmbedCache run;
        renderer := (renderFile (renderer run) (absolutePath slideFile)).2;
        renderLog :=
          renderLog run ++
          [{| call_key := cacheKey slideFile page; call_absPath := absolutePath slideFile;
              call_returnedHtml := false |}];
        warnings :=
          warnings run ++
          ["Advanced Slides embed rendering failed for " +:+ file_path slideFile];
        nextRef := nextRef run |},
     (this, iframe)).
Proof.
  intros Hmiss Hfail. unfold processEmbed. rewrite Hmiss.
  fold (absolutePath slideFile).
  destruct (renderFile (renderer run) (absolutePath slideFile)) as [html r'].
  simpl in Hfail. by rewrite Hfail.
Qed.

Lemma processEmbed_rendered run this slideFile page iframe :
  advancedSlidesEmbedCache run !! cacheKey slideFile page = None →
  Js.truthy (renderFile (renderer run) (absolutePath slideFile)).1 = true →
  ∃ att this',
    att_ref att = nextRef run ∧
    att_targetPath att = getAdvancedSlidesEmbedTargetPath this slideFile page ∧
    targetPath this' = targetPath this ∧
    processEmbed run this slideFile page iframe =
      ({| advancedSlidesEmbedCache :=
            <[cacheKey slideFile page := att]> (advancedSlidesEmbedCache run);
          renderer := (renderFile (renderer run) (absolutePath slideFile)).2;
          renderLog :=
            renderLog run ++
            [{| call_key := cacheKey slideFile page; call_absPath := absolutePath slideFile;
                call_returnedHtml := true |}];
          warnings := warnings run;
          nextRef := S (nextRef run) |},
       attachEmbed this' att iframe).
Proof.
  intros Hmiss Hok. unfold processEmbed. rewrite Hmiss.
  fold (absolutePath slideFile).
  destruct (renderFile (renderer run) (absolutePath slideFile)) as [html r'].
  simpl in Hok. rewrite Hok. cbn [negb].
  destruct (rewriteAdvancedSlidesHtml this (Js.toStr html)
              (getAdvancedSlidesEmbedTargetPath this slideFile page) slideFile)
    as [rewritten atts].
  exists {| att_ref := nextRef run; att_data := rewritten;
            att_targetPath := getAdvancedSlidesEmbedTargetPath this slideFile page;
            att_sourcePath := None |}, (withAttachments this atts).
  done.
Qed.

Lemma processEmbed_rendered_data run this slideFile page iframe :
  advancedSlidesEmbedCache run !! cacheKey slideFile page = None →
  Js.truthy (renderFile (renderer run) (absolutePath slideFile)).1 = true →
  ∃ att,
    att_data att =
      (rewriteAdvancedSlidesHtml this
         (Js.toStr (renderFile (renderer run) (absolutePath slideFile)).1)
         (getAdvancedSlidesEmbedTargetPath this slideFile page) slideFile).1 ∧
    advancedSlidesEmbedCache (processEmbed run this slideFile page iframe).1
      !! cacheKey slideFile page = Some att ∧
    renderer (processEmbed run this slideFile page iframe).1 =
      (renderFile (renderer run) (absolutePath slideFile)).2 ∧
    att ∈ attachments (processEmbed run this slideFile page iframe).2.1 ∧
    getAttribute (processEmbed run this slideFile page iframe).2.2 "src"
      = Some (iframeSrc this att).
Proof.
  intros Hmiss Hok. unfold processEmbed. rewrite Hmiss.
  fold (absolutePath slideFile).
  destruct (renderFile (renderer run) (absolutePath slideFile)) as [html r'].
  simpl in Hok. rewrite Hok. cbn [negb fst snd].
  destruct (rewriteAdvancedSlidesHtml this (Js.toStr html)
              (getAdvancedSlidesEmbedTargetPath this slideFile page) slideFile)
    as [rewritten atts].
  exists {| att_ref := nextRef run; att_data := rewritten;
            att_targetPath := getAdvancedSlidesEmbedTargetPath this slideFile page;
            att_sourcePath := None |}.
  cbn [fst snd advancedSlidesEmbedCache renderer att_data].
  split; [done|]. split; [apply lookup_insert_eq|]. split; [done|].
  split; [apply attachEmbed_attached|by rewrite attachEmbed_src].
Qed.

(** *** The pieces of a call *)

Lemma embedBegin_hit run this slideFile page iframe att :
  advancedSlidesEmbedCache run !! cacheKey slideFile page = Some att →
  embedBegin run this slideFile page iframe = (run, inr (attachEmbed this att iframe)).
Proof. intros H. unfold embedBegin. by rewrite H. Qed.

Lemma embedBegin_miss run this slideFile page iframe :
  advancedSlidesEmbedCache run !! cacheKey slideFile page = None →
  embedBegin run this slideFile page iframe =
    ({| advancedSlidesEmbedCache := advancedSlidesEmbedCache run;
        renderer := (renderFile (renderer run) (absolutePath slideFile)).2;
        renderLog :=
          renderLog run ++
          [renderCall slideFile page
             (Js.truthy (renderFile (renderer run) (absolutePath slideFile)).1)];
        warnings := warnings run;
        nextRef := nextRef run |},
     inl {| embed_this := this; embed_slideFile := slideFile; embed_page := page;
            embed_iframe := iframe;
            embed_at := AtRenderFile (renderFile (renderer run) (absolutePath slideFile)).1 |}).
Proof.
  intros H. unfold embedBegin. rewrite H. fold (absolutePath slideFile).
  by destruct (renderFile (renderer run) (absolutePath slideFile)).
Qed.

Lemma embedResume_failed run this slideFile page iframe html :
  Js.truthy html = false →
  embedResume run {| embed_this := this; embed_slideFile := slideFile; embed_page := page;
                     embed_iframe := iframe; embed_at := AtRenderFile html |} =
    ({| advancedSlidesEmbedCache := advancedSlidesEmbedCache run;
        renderer := renderer run;
        renderLog := renderLog run;
        warnings :=
          warnings run ++
          ["Advanced Slides embed rendering failed for " +:+ file_path slideFile];
        nextRef := nextRef run |},
     inr (this, iframe)).
Proof. intros H. unfold embedResume. simpl. by rewrite H. Qed.

Lemma embedResume_rendered run this slideFile page iframe html :
  Js.truthy html = true →
  embedResume run {| embed_this := this; embed_slideFile := slideFile; embed_page := page;
                     embed_iframe := iframe; embed_at := AtRenderFile html |} =
    (run,
     inl {| embed_this :=
              withAttachments this
                (rewriteAdvancedSlidesHtml this (Js.toStr html)
                   (getAdvancedSlidesEmbedTargetPath this slideFile page) slideFile).2;
            embed_slideFile := slideFile; embed_page := page; embed_iframe := iframe;
            embed_at :=
              AtRewrite (getAdvancedSlidesEmbedTargetPath this slideFile page)
                (rewriteAdvancedSlidesHtml this (Js.toStr html)
                   (getAdvancedSlidesEmbedTargetPath this slideFile page) slideFile).1 |}).
Proof.
  intros H. unfold embedResume. simpl. rewrite H. simpl.
  by destruct (rewriteAdvancedSlidesHtml _ _ _ _).
Qed.

(** A call that no other call interrupts does what the body of
    [processEmbed] does from its first line to its last. *)
Lemma processEmbed_uninterrupted run this slideFile page iframe :
  uninterrupted run this slideFile page iframe = processEmbed run this slideFile page iframe.
Proof.
  unfold uninterrupted.
  destruct (advancedSlidesEmbedCache run !! cacheKey slideFile page) as [att|] eqn:Hc.
  { by rewrite (embedBegin_hit _ _ _ _ _ att Hc), (processEmbed_hit _ _ _ _ _ att Hc). }
  rewrite (embedBegin_miss _ _ _ _ _ Hc).
  destruct (Js.truthy (renderFile (renderer run) (absolutePath slideFile)).1) eqn:Hr.
  - rewrite (embedResume_rendered _ _ _ _ _ _ Hr).
    unfold processEmbed. rewrite Hc. fold (absolutePath slideFile).
    destruct (renderFile (renderer run) (absolutePath slideFile)) as [html r'].
    simpl in Hr. rewrite Hr. cbn [negb fst snd].
    by destruct (rewriteAdvancedSlidesHtml _ _ _ _).
  - rewrite (embedResume_failed _ _ _ _ _ _ Hr).
    by rewrite (processEmbed_failed _ _ _ _ _ Hc Hr).
Qed.

Lemma successfulRendersFor_app run log slideFile page :
  renderLog run = log →
  successfulRendersFor run slideFile page =
    filter (λ c, call_returnedHtml c = true)
      (filter (λ c, call_key c = cacheKey slideFile page) log).
Proof. by intros <-. Qed.

(** *** Two calls for one pair *)

(** C7, at the input where it fails.  Two pages embed one
    [(document, page)] pair that is not in the cache, and the second page
    starts its call of [processEmbed] while the first is suspended at
    [renderFile].  Both calls have read the cache before either writes
    it, so [renderFile] is called twice for the pair; when it returns
    HTML both times, two attachments are made.  The first page takes the
    first and points its iframe at it, the second page takes the second,
    and the cache is left holding the second only. *)
Theorem overlapping_embeds_render_twice run this1 this2 slideFile page iframe1 iframe2 :
  advancedSlidesEmbedCache run !! cacheKey slideFile page = None →
  Js.truthy (renderFile (renderer run) (absolutePath slideFile)).1 = true →
  Js.truthy (renderFile (renderFile (renderer run) (absolutePath slideFile)).2
               (absolutePath slideFile)).1 = true →
  ∃ s att1 att2 (result1 result2 : Webpage * Element),
    rtc embedStep (idle run) s ∧
    suspended s = [] ∧
    finished s = [result1; result2] ∧
    renderLog (shared s) =
      renderLog run ++ [renderCall slideFile page true; renderCall slideFile page true] ∧
    renderer (shared s) =
      (renderFile (renderFile (renderer run) (absolutePath slideFile)).2
         (absolutePath slideFile)).2 ∧
    att1 ≠ att2 ∧
    att1 ∈ attachments result1.1 ∧
    getAttribute result1.2 "src" = Some (iframeSrc this1 att1) ∧
    att2 ∈ attachments result2.1 ∧
    getAttribute result2.2 "src" = Some (iframeSrc this2 att2) ∧
    advancedSlidesEmbedCache (shared s) !! cacheKey slideFile page = Some att2.
Proof.
  intros Hc Hr1 Hr2.
  set (abs := absolutePath slideFile) in *.
  set (r1 := renderFile (renderer run) abs) in *.
  set (r2 := renderFile r1.2 abs) in *.
  (* the first page starts *)
  set (runA := {| advancedSlidesEmbedCache := advancedSlidesEmbedCache run;
                  renderer := r1.2;
                  renderLog := renderLog run ++ [renderCall slideFile page true];
                  warnings := warnings run; nextRef := nextRef run |}).
  set (c1 := {| embed_this := this1; embed_slideFile := slideFile; embed_page := page;
                embed_iframe := iframe1; embed_at := AtRenderFile r1.1 |}).
  assert (HA : embedBegin run this1 slideFile page iframe1 = (runA, inl c1)).
  { rewrite (embedBegin_miss _ _ _ _ _ Hc). fold abs r1. by rewrite Hr1. }
  (* the second page starts *)
  set (runB := {| advancedSlidesEmbedCache := advancedSlidesEmbedCache run;
                  renderer := r2.2;
                  renderLog := (renderLog run ++ [renderCall slideFile page true])
                               ++ [renderCall slideFile page true];
                  warnings := warnings run; nextRef := nextRef run |}).
  set (c2 := {| embed_this := this2; embed_slideFile := slideFile; embed_page := page;
                embed_iframe := iframe2; embed_at := AtRenderFile r2.1 |}).
  assert (HB : embedBegin runA this2 slideFile page iframe2 = (runB, inl c2)).
  { rewrite (embedBegin_miss runA _ _ _ _ Hc). cbn [renderer runA]. fold abs r2.
    by rewrite Hr2. }
  (* the first call goes on to the rewriting, and to its end *)
  set (t1 := getAdvancedSlidesEmbedTargetPath this1 slideFile page).
  set (w1 := rewriteAdvancedSlidesHtml this1 (Js.toStr r1.1) t1 slideFile).
  set (c1' := {| embed_this := withAttachments this1 w1.2; embed_slideFile := slideFile;
                 embed_page := page; embed_iframe := iframe1;
                 embed_at := AtRewrite t1 w1.1 |}).
  assert (HC : embedResume runB c1 = (runB, inl c1')).
  { apply (embedResume_rendered runB this1 slideFile page iframe1 r1.1 Hr1). }
  set (att1 := {| att_ref := nextRef run; att_data := w1.1; att_targetPath := t1;
                  att_sourcePath := None |}).
  set (runD := {| advancedSlidesEmbedCache :=
                    <[cacheKey slideFile page := att1]> (advancedSlidesEmbedCache run);
                  renderer := r2.2; renderLog := renderLog runB;
                  warnings := warnings run; nextRef := S (nextRef run) |}).
  assert (HD : embedResume runB c1' =
               (runD, inr (attachEmbed (withAttachments this1 w1.2) att1 iframe1))) by done.
  (* the second call goes on, and ends *)
  set (t2 := getAdvancedSlidesEmbedTargetPath this2 slideFile page).
  set (w2 := rewriteAdvancedSlidesHtml this2 (Js.toStr r2.1) t2 slideFile).
  set (c2' := {| embed_this := withAttachments this2 w2.2; embed_slideFile := slideFile;
                 embed_page := page; embed_iframe := iframe2;
                 embed_at := AtRewrite t2 w2.1 |}).
  assert (HE : embedResume runD c2 = (runD, inl c2')).
  { apply (embedResume_rendered runD this2 slideFile page iframe2 r2.1 Hr2). }
  set (att2 := {| att_ref := S (nextRef run); att_data := w2.1; att_targetPath := t2;
                  att_sourcePath := None |}).
  set (runF := {| advancedSlidesEmbedCache :=
                    <[cacheKey slideFile page := att2]> (advancedSlidesEmbedCache runD);
                  renderer := r2.2; renderLog := renderLog runB;
                  warnings := warnings run; nextRef := S (S (nextRef run)) |}).
  assert (HF : embedResume runD c2' =
               (runF, inr (attachEmbed (withAttachments this2 w2.2) att2 iframe2))) by done.
  set (res1 := attachEmbed (withAttachments this1 w1.2) att1 iframe1) in *.
  set (res2 := attachEmbed (withAttachments this2 w2.2) att2 iframe2) in *.
  exists {| shared := runF; suspended := []; finished := [res1; res2] |},
    att1, att2, res1, res2.
  split.
  { eapply rtc_l.
    { apply (embedStep_begin (idle run) this1 slideFile page iframe1). }
    cbn [shared idle suspended]. rewrite HA. unfold settle. cbn [fst snd finished app].
    eapply rtc_l.
    { apply (embedStep_begin _ this2 slideFile page iframe2). }
    cbn [shared suspended]. rewrite HB. unfold settle. cbn [fst snd finished app].
    eapply rtc_l.
    { apply (embedStep_resume _ 0 c1). reflexivity. }
    cbn [shared suspended delete list_delete]. rewrite HC.
    unfold settle. cbn [fst snd finished app].
    eapply rtc_l.
    { apply (embedStep_resume _ 1 c1'). reflexivity. }
    cbn [shared suspended delete list_delete]. rewrite HD.
    unfold settle. cbn [fst snd finished app].
    eapply rtc_l.
    { apply (embedStep_resume _ 0 c2). reflexivity. }
    cbn [shared suspended delete list_delete]. rewrite HE.
    unfold settle. cbn [fst snd finished app].
    eapply rtc_l.
    { apply (embedStep_resume _ 0 c2'). reflexivity. }
    cbn [shared suspended delete list_delete]. rewrite HF.
    unfold settle. cbn [fst snd finished app].
    apply rtc_refl. }
  cbn [shared suspended finished renderLog renderer advancedSlidesEmbedCache runF runB].
  split; [done|]. split; [done|].
  split; [by rewrite <- app_assoc|]. split; [done|].
  split; [intros E; apply (f_equal att_ref) in E; simpl in E; lia|].
  split; [apply attachEmbed_attached|].
  split; [unfold res1; by rewrite attachEmbed_src|].
  split; [apply attachEmbed_attached|].
  split; [unfold res2; by rewrite attachEmbed_src|].
  apply lookup_insert_eq.
Qed.

(** *** A render that fails *)

(** C8.  When [renderFile] returns no HTML for a pair that is not in the
    cache, the call of [processEmbed] leaves the cache as it was, whatever
    other calls ran while it was suspended, and leaves the page and the
    iframe alone.  A later reference to the pair, from any page, calls
    [renderFile] again: the renderer goes on from the state the failed
    call left it in, and what this call returns decides the outcome.  If
    it is HTML, the fragment rewritten from it is cached for the pair and
    attached to the page; if not, the cache is left again. *)
Theorem failed_render_is_not_cached run this slideFile page iframe :
  advancedSlidesEmbedCache run !! cacheKey slideFile page = None →
  Js.truthy (renderFile (renderer run) (absolutePath slideFile)).1 = false →
  advancedSlidesEmbedCache (processEmbed run this slideFile page iframe).1
    = advancedSlidesEmbedCache run ∧
  (processEmbed run this slideFile page iframe).2 = (this, iframe) ∧
  renderer (processEmbed run this slideFile page iframe).1 =
    (renderFile (renderer run) (absolutePath slideFile)).2 ∧
  (∃ call,
     (embedBegin run this slideFile page iframe).2 = inl call ∧
     ∀ run',
       advancedSlidesEmbedCache (embedResume run' call).1 = advancedSlidesEmbedCache run' ∧
       (embedResume run' call).2 = inr (this, iframe)) ∧
  ∀ this2 iframe2,
    let run1 := (processEmbed run this slideFile page iframe).1 in
    let again := renderFile (renderer run1) (absolutePath slideFile) in
    let retry := processEmbed run1 this2 slideFile page iframe2 in
    length (rendersFor retry.1 slideFile page) = S (length (rendersFor run1 slideFile page)) ∧
    renderer retry.1 = again.2 ∧
    (Js.truthy again.1 = false →
       advancedSlidesEmbedCache retry.1 = advancedSlidesEmbedCache run ∧
       retry.2 = (this2, iframe2)) ∧
    (Js.truthy again.1 = true →
       ∃ att,
         att_data att =
           (rewriteAdvancedSlidesHtml this2 (Js.toStr again.1)
              (getAdvancedSlidesEmbedTargetPath this2 slideFile page) slideFile).1 ∧
         advancedSlidesEmbedCache retry.1 !! cacheKey slideFile page = Some att ∧
         att ∈ attachments retry.2.1 ∧
         getAttribute retry.2.2 "src" = Some (iframeSrc this2 att)).
Proof.
  intros Hc Hr.
  rewrite (processEmbed_failed run this slideFile page iframe Hc Hr). cbn [fst snd].
  split; [done|]. split; [done|]. split; [done|]. split.
  { rewrite (embedBegin_miss _ _ _ _ _ Hc). eexists. split; [done|].
    intros run'. by rewrite (embedResume_failed _ _ _ _ _ _ Hr). }
  intros this2 iframe2.
  set (run1 := {| advancedSlidesEmbedCache := advancedSlidesEmbedCache run;
                  renderer := (renderFile (renderer run) (absolutePath slideFile)).2;
                  renderLog := _; warnings := _; nextRef := nextRef run |}).
  assert (Hc1 : advancedSlidesEmbedCache run1 !! cacheKey slideFile page = None) by done.
  cbv zeta.
  destruct (Js.truthy (renderFile (renderer run1) (absolutePath slideFile)).1) eqn:Hr1.
  - destruct (processEmbed_rendered_data run1 this2 slideFile page iframe2 Hc1 Hr1)
      as (att & Hdata & Hcache & Hrend & Hin & Hsrc).
    split; [|split; [exact Hrend|split; [done|]]].
    + destruct (processEmbed_rendered run1 this2 slideFile page iframe2 Hc1 Hr1)
        as (att' & this' & _ & _ & _ & ->).
      unfold rendersFor. cbn [fst renderLog]. rewrite filter_app, length_app.
      rewrite filter_cons, decide_True by done. simpl. lia.
    + intros _. by exists att.
  - rewrite (processEmbed_failed run1 this2 slideFile page iframe2 Hc1 Hr1). cbn [fst snd].
    split; [|split; [done|split; [done|done]]].
    unfold rendersFor. cbn [renderLog]. rewrite filter_app, length_app.
    rewrite filter_cons, decide_True by done. simpl. lia.
Qed.

End EmbedFacts.

Lemma overlapping_embeds_render_twice_witness :
  ∃ (s : Session (paths := Sample.paths) (host := Sample.host)) att1 att2
    (result1 result2 : Webpage * Element),
    rtc embedStep (idle (Sample.startRun 0)) s ∧
    suspended s = [] ∧
    finished s = [result1; result2] ∧
    renderLog (shared s) =
      renderLog (Sample.startRun 0) ++
      [renderCall (host := Sample.host) Sample.slides 2%N true;
       renderCall (host := Sample.host) Sample.slides 2%N true] ∧
    renderer (shared s) = 0 ∧
    att1 ≠ att2 ∧
    att1 ∈ attachments result1.1 ∧
    getAttribute result1.2 "src" =
      Some (iframeSrc (Sample.page Sample.document ∅ Sample.options) att1) ∧
    att2 ∈ attachments result2.1 ∧
    getAttribute result2.2 "src" =
      Some (iframeSrc (Sample.page Sample.shortDocument ∅ Sample.options) att2) ∧
    advancedSlidesEmbedCache (shared s) !! cacheKey (host := Sample.host) Sample.slides 2%N
      = Some att2.
Proof.
  exact (overlapping_embeds_render_twice (Sample.startRun 0)
           (Sample.page Sample.document ∅ Sample.options)
           (Sample.page Sample.shortDocument ∅ Sample.options)
           Sample.slides 2%N Sample.iframe Sample.iframe eq_refl eq_refl eq_refl).
Defined.

(** The run of the witness, piece by piece: two calls of [renderFile]
    that return HTML, two attachments, the pages holding one each, the
    cache holding the second. *)
Example overlapping_embeds_example :
  let page1 := Sample.page Sample.document ∅ Sample.options in
  let page2 := Sample.page Sample.shortDocument ∅ Sample.options in
  match embedBegin (Sample.startRun 0) page1 Sample.slides 2%N Sample.iframe with
  | (runA, inl call1) =>
  match embedBegin runA page2 Sample.slides 2%N Sample.iframe with
  | (runB, inl call2) =>
  match embedResume runB call1 with
  | (runC, inl call1') =>
  match embedResume runC call1' with
  | (runD, inr result1) =>
  match embedResume runD call2 with
  | (runE, inl call2') =>
  match embedResume runE call2' with
  | (runF, inr result2) =>
      (call_returnedHtml <$> renderLog runF,
       att_ref <$> attachments result1.1, att_ref <$> attachments result2.1,
       att_ref <$> advancedSlidesEmbedCache runF !! "decks/talk.md#page=2")
      = ([true; true], [0], [1], Some 1)
  | _ => False end | _ => False end | _ => False end
  | _ => False end | _ => False end | _ => False end.
Proof. vm_compute. reflexivity. Qed.

Lemma failed_render_is_not_cached_witness :
  advancedSlidesEmbedCache
    (processEmbed (Sample.startRun 1) (Sample.page Sample.document ∅ Sample.options)
       Sample.slides 2%N Sample.iframe).1 = ∅.
Proof.
  exact (proj1 (failed_render_is_not_cached (Sample.startRun 1)
                  (Sample.page Sample.document ∅ Sample.options)
                  Sample.slides 2%N Sample.iframe eq_refl eq_refl)).
Defined.

(** Two pages, one pair, a renderer that fails once: the second
    reference renders, a third one reuses the cached attachment. *)
Example embed_retry_example :
  let run1 := (processEmbed (Sample.startRun 1) (Sample.page Sample.document ∅ Sample.options)
                 Sample.slides 2%N Sample.iframe).1 in
  let res2 := processEmbed run1 (Sample.page Sample.shortDocument ∅ Sample.options)
                Sample.slides 2%N Sample.iframe in
  let res3 := processEmbed res2.1 (Sample.page Sample.document ∅ Sample.options)
                Sample.slides 2%N Sample.iframe in
  call_returnedHtml <$> renderLog res3.1 = [false; true] ∧
  att_ref <$> attachments res2.2.1 = [0] ∧
  att_ref <$> attachments res3.2.1 = [0] ∧
  getAttribute res3.2.2 "src" = Some "site-lib/advanced-slides/embeds/decks/talk-page-2.html".
Proof. vm_compute. repeat split; reflexivity. Qed.

(** ** What the remap passes leave alone *)

Lemma keepsElement_refl names (e : Element) : keepsElement names e e.
Proof. unfold keepsElement. by split_and!. Qed.

Lemma keepsElement_trans names (e1 e2 e3 : Element) :
  keepsElement names e1 e2 → keepsElement names e2 e3 → keepsElement names e1 e3.
Proof.
  intros (Ht & Hx & Hp & Hc & Ha) (Ht' & Hx' & Hp' & Hc' & Ha').
  unfold keepsElement. split_and!; try congruence.
  - intros c Hne. by rewrite Hc', Hc.
  - intros name Hname. by rewrite Ha', Ha.
Qed.

Lemma keepsElement_setAttribute names name value (e : Element) :
  name ∈ names → keepsElement names e (setAttribute name value e).
Proof.
  intros Hin. unfold keepsElement. split_and!; try done.
  intros name' Hname'. apply getAttribute_setAttribute_ne. by intros ->.
Qed.

Lemma keepsElement_toggle names force (e : Element) :
  keepsElement names e (classList_toggle "is-unresolved" force e).
Proof.
  unfold keepsElement. split_and!; try done.
  intros c Hne. unfold classList_toggle; simpl; destruct force.
  - unfold classList_contains. case_bool_decide; [done|].
    rewrite elem_of_app, list_elem_of_singleton.
    split; [by intros [?|?]|by left].
  - rewrite list_elem_of_filter. split; [by intros [_ ?]|by split].
Qed.

Lemma keepsElement_sameButOnclick names (e e' : Element) :
  "onclick" ∈ names → sameButOnclick e e' → keepsElement names e e'.
Proof.
  intros Hin (Ht & Hc & Hx & Hp & Ha). unfold keepsElement. split_and!; try done.
  - intros c _. by rewrite Hc.
  - intros name Hname. apply Ha. by intros ->.
Qed.

Lemma keepsDocument_refl names (doc : Document) : keepsDocument names doc doc.
Proof. intros i. destruct (doc !! i); [apply keepsElement_refl|done]. Qed.

Lemma keepsDocument_trans names (d1 d2 d3 : Document) :
  keepsDocument names d1 d2 → keepsDocument names d2 d3 → keepsDocument names d1 d3.
Proof.
  intros H12 H23 i. specialize (H12 i). specialize (H23 i).
  destruct (d1 !! i), (d2 !! i), (d3 !! i); try done.
  by eapply keepsElement_trans.
Qed.

Lemma keepsDocument_length names (doc doc' : Document) :
  keepsDocument names doc doc' → length doc' = length doc.
Proof.
  intros H. apply Nat.le_antisymm.
  - destruct (decide (length doc' ≤ length doc)) as [|Hgt]; [done|].
    specialize (H (length doc)).
    rewrite (proj2 (lookup_ge_None doc _)) in H by lia.
    destruct (doc' !! length doc) eqn:E; [done|]. apply lookup_ge_None in E. lia.
  - destruct (decide (length doc ≤ length doc')) as [|Hgt]; [done|].
    specialize (H (length doc')).
    rewrite (proj2 (lookup_ge_None doc' _)) in H by lia.
    destruct (doc !! length doc') eqn:E; [done|]. apply lookup_ge_None in E. lia.
Qed.

Lemma keepsDocument_forEach names (f : Element → Element) (doc : Document) (ns : list nat) :
  NoDup ns → (∀ e, keepsElement names e (f e)) →
  keepsDocument names doc (forEachElement f doc ns).
Proof.
  intros Hnd Hf i. rewrite forEachElement_lookup by done.
  destruct (doc !! i) as [e|]; destruct (decide _); simpl; try exact I;
    [apply Hf|apply keepsElement_refl].
Qed.

Lemma keepsDocument_buttons names (doc : Document) (bs : list nat) :
  "onclick" ∈ names → keepsDocument names doc (foldl remapButton doc bs).
Proof.
  intros Hin i. pose proof (foldl_remapButton_lookup doc bs i) as H.
  destruct (doc !! i), (foldl remapButton doc bs !! i); try done.
  by apply keepsElement_sameButOnclick.
Qed.

Section Frames.

Context {paths : PathApi}.

Implicit Types (this : Webpage) (e : Element).

Lemma keepsElement_remapLink names this e :
  "href" ∈ names → "target" ∈ names → keepsElement names e (remapLink this e).
Proof.
  intros Hh Ht. unfold remapLink.
  eapply keepsElement_trans; [|apply keepsElement_toggle].
  eapply keepsElement_trans; [|by apply keepsElement_setAttribute].
  by apply keepsElement_setAttribute.
Qed.

Lemma keepsElement_remapSrc names this e :
  "src" ∈ names → "target" ∈ names → keepsElement names e (remapSrc this e).
Proof.
  intros Hs Ht. unfold remapSrc.
  eapply keepsElement_trans; [|apply keepsElement_toggle].
  eapply keepsElement_trans; [|by apply keepsElement_setAttribute].
  by apply keepsElement_setAttribute.
Qed.

Lemma keepsElement_remapModelViewer names this e :
  "src" ∈ names → keepsElement names e (remapModelViewer this e).
Proof.
  intros Hs. unfold remapModelViewer.
  eapply keepsElement_trans; [|apply keepsElement_toggle].
  by apply keepsElement_setAttribute.
Qed.

Lemma keepsDocument_allocateHeadings names this :
  "id" ∈ names →
  keepsDocument names (pageDocument this) (pageDocument (allocateHeadings this)).
Proof.
  intros Hid i. unfold allocateHeadings. cbn [pageDocument withDocument].
  set (hs := querySelectorAll (pageDocument this) selHeading).
  destruct (foldl_allocateHeading (pageDocument this) (headerMap this) hs)
    as (_ & _ & Hout & Hin).
  { apply querySelectorAll_NoDup. }
  { intros k Hk. apply querySelectorAll_elem in Hk as (e & He & _). by exists e. }
  destruct (decide (i ∈ hs)) as [Hi|Hi].
  - apply list_elem_of_lookup_1 in Hi as [j Hj].
    destruct (Hin j i Hj) as (e & id & He & _ & Hd). rewrite Hd, He.
    by apply keepsElement_setAttribute.
  - rewrite (Hout i Hi). destruct (pageDocument this !! i); [apply keepsElement_refl|done].
Qed.

Lemma remapLinks_keepsDocument this :
  keepsDocument ["id"; "href"; "target"; "onclick"]
    (pageDocument this) (pageDocument (remapLinks this)).
Proof.
  unfold remapLinks. cbn [pageDocument withDocument].
  eapply keepsDocument_trans; [apply keepsDocument_allocateHeadings; set_solver|].
  eapply keepsDocument_trans; [|apply keepsDocument_buttons; set_solver].
  apply keepsDocument_forEach; [apply querySelectorAll_NoDup|].
  intros e. apply keepsElement_remapLink; set_solver.
Qed.

Lemma remapEmbedLinks_keepsDocument this :
  keepsDocument ["src"; "target"]
    (pageDocument this) (pageDocument (remapEmbedLinks this)).
Proof.
  unfold remapEmbedLinks. cbn [pageDocument withDocument].
  eapply keepsDocument_trans; [|apply keepsDocument_forEach;
    [apply querySelectorAll_NoDup|intros e; apply keepsElement_remapModelViewer; set_solver]].
  eapply keepsDocument_trans; [|apply keepsDocument_forEach;
    [apply querySelectorAll_NoDup|intros e; apply keepsElement_remapSrc; set_solver]].
  apply keepsDocument_forEach; [apply srcLinkElements_NoDup|].
  intros e. apply keepsElement_remapSrc; set_solver.
Qed.

(** [remapLinks] keeps the document in shape: it adds and drops no
    element, and on every element it leaves the tag, the text, the parent,
    every class other than [is-unresolved] and every attribute other than
    [id], [href], [target] and [onclick] as they were. *)
Theorem remapLinks_keeps_the_rest this :
  keepsDocument ["id"; "href"; "target"; "onclick"]
    (pageDocument this) (pageDocument (remapLinks this)) ∧
  length (pageDocument (remapLinks this)) = length (pageDocument this).
Proof.
  split; [apply remapLinks_keepsDocument|].
  eapply keepsDocument_length, remapLinks_keepsDocument.
Qed.

(** [remapEmbedLinks] does the same, the attributes it may change being
    [src] and [target]. *)
Theorem remapEmbedLinks_keeps_the_rest this :
  keepsDocument ["src"; "target"]
    (pageDocument this) (pageDocument (remapEmbedLinks this)) ∧
  length (pageDocument (remapEmbedLinks this)) = length (pageDocument this).
Proof.
  split; [apply remapEmbedLinks_keepsDocument|].
  eapply keepsDocument_length, remapEmbedLinks_keepsDocument.
Qed.

End Frames.

(** ** The selections after a pass *)

Section Selections.

Variable names : list string.
Variables doc doc' : Document.
Hypothesis Hkeeps : keepsDocument names doc doc'.

Lemma ancestorsFrom_keeps (fuel : nat) (p : option nat) :
  ancestorsFrom doc' fuel p = ancestorsFrom doc fuel p.
Proof.
  revert p. induction fuel as [|fuel IH]; intros [i|]; simpl; try done.
  specialize (Hkeeps i).
  destruct (doc !! i) as [e|], (doc' !! i) as [e'|]; try done.
  destruct Hkeeps as (_ & _ & -> & _). by rewrite IH.
Qed.

Lemma ancestors_keeps (e e' : Element) :
  keepsElement names e e' → ancestors doc' e' = ancestors doc e.
Proof.
  intros (_ & _ & Hp & _). unfold ancestors.
  by rewrite (keepsDocument_length _ _ _ Hkeeps), Hp, ancestorsFrom_keeps.
Qed.

Lemma anyAt_keeps (P : Element → bool) (ns : list nat) :
  (∀ e e', keepsElement names e e' → P e' = P e) →
  anyAt doc' P ns = anyAt doc P ns.
Proof.
  intros HP. unfold anyAt. induction ns as [|i ns IH]; simpl; [done|].
  rewrite IH. f_equal. specialize (Hkeeps i).
  destruct (doc !! i) as [e|], (doc' !! i) as [e'|]; try done. simpl. by apply HP.
Qed.

Lemma inObsidianDocument_keeps (e e' : Element) :
  keepsElement names e e' → inObsidianDocument doc' e' = inObsidianDocument doc e.
Proof.
  intros He. unfold inObsidianDocument. rewrite (ancestors_keeps e e' He).
  rewrite (anyAt_keeps (tagIs "HEAD")), (anyAt_keeps (λ a, classList_contains a "obsidian-document")).
  - done.
  - intros a a' (_ & _ & _ & Hc & _). unfold classList_contains.
    apply bool_decide_ext. by apply Hc.
  - intros a a' (Ht & _). unfold tagIs. by rewrite Ht.
Qed.

Lemma querySelectorAll_keeps (sel : Document → Element → bool) :
  (∀ e e', keepsElement names e e' → sel doc' e' = sel doc e) →
  querySelectorAll doc' sel = querySelectorAll doc sel.
Proof.
  intros Hsel. apply querySelectorAll_ext; [by eapply keepsDocument_length|].
  intros i. specialize (Hkeeps i).
  destruct (doc !! i) as [e|], (doc' !! i) as [e'|]; try done. simpl. by apply Hsel.
Qed.

Lemma tagged_keeps (t : string) :
  querySelectorAll doc' (λ _, tagIs t) = querySelectorAll doc (λ _, tagIs t).
Proof.
  apply querySelectorAll_keeps. intros e e' (Ht & _). unfold tagIs. by rewrite Ht.
Qed.

Lemma headings_keep :
  querySelectorAll doc' selHeading = querySelectorAll doc selHeading.
Proof.
  apply querySelectorAll_keeps. intros e e' (Ht & _). unfold selHeading. by rewrite Ht.
Qed.

Lemma hrefLinkElements_keeps :
  "href" ∉ names → hrefLinkElements doc' = hrefLinkElements doc.
Proof.
  intros Hn. apply querySelectorAll_keeps. intros e e' He. unfold selHref.
  rewrite (inObsidianDocument_keeps e e' He). f_equal.
  destruct He as (_ & _ & _ & _ & Ha). unfold hasAttribute.
  specialize (Ha "href" Hn). unfold getAttribute in Ha. by rewrite Ha.
Qed.

End Selections.

Lemma occurrences_last (t : string) (ts : list string) (k : nat) :
  occurrences t ts = S k →
  ∃ j : nat, ts !! j = Some t ∧ occurrences t (take j ts) = k ∧
             ∀ j' : nat, j < j' → ts !! j' ≠ Some t.
Proof.
  revert k. induction ts as [|x ts IH] using rev_ind; intros k Hocc; [done|].
  rewrite occurrences_app in Hocc.
  destruct (decide (x = t)) as [->|Hne].
  - exists (length ts). rewrite lookup_app_r, Nat.sub_diag by lia.
    split; [done|]. split.
    + rewrite take_app_length.
      unfold occurrences in Hocc at 2. rewrite filter_cons_True in Hocc by done.
      simpl in Hocc. lia.
    + intros j' Hj'. rewrite lookup_app_r by lia.
      destruct (j' - length ts) as [|m] eqn:E; [lia|done].
  - unfold occurrences in Hocc at 2. rewrite filter_cons_False in Hocc by done.
    simpl in Hocc. rewrite Nat.add_0_r in Hocc.
    destruct (IH k Hocc) as (j & Hj & Htake & Hlast).
    pose proof (lookup_lt_Some _ _ _ Hj) as Hlt.
    exists j. rewrite lookup_app_l by done. split; [done|]. split.
    + by rewrite take_app_le by lia.
    + intros j' Hj'. destruct (decide (j' < length ts)).
      * rewrite lookup_app_l by done. by apply Hlast.
      * rewrite lookup_app_r by lia.
        destruct (j' - length ts) as [|m]; simpl; [congruence|done].
Qed.

(** A name is none of those of a list of literals. *)
Ltac not_listed :=
  let H := fresh in
  intros H; repeat (apply elem_of_cons in H as [H|H]; [discriminate H|]);
  by apply elem_of_nil in H.

Section Passes.

Context {paths : PathApi}.

Implicit Types (this : Webpage) (e : Element).

Lemma headingIds_keeps names this this' :
  "id" ∉ names → keepsDocument names (pageDocument this) (pageDocument this') →
  headingIds this' = headingIds this.
Proof.
  intros Hn Hk. unfold headingIds. rewrite (headings_keep names _ _ Hk).
  apply list_fmap_ext. intros j i Hj. specialize (Hk i).
  destruct (pageDocument this !! i), (pageDocument this' !! i); try done.
  simpl. destruct Hk as (_ & _ & _ & _ & Ha). by apply Ha.
Qed.

(** When links are fixed, the build runs [remapLinks] and then
    [remapEmbedLinks] (lines 515-519).  Take a page whose header map starts empty and whose header
    links are relative, and in it a link ["#t"] below [.obsidian-document]
    whose text holds no [scheme://] and whose element has no [data-href]
    other than the link itself.  If [k + 1] headings of the page have the
    normalised text of [t], then after the two passes the [href] of the
    link is ["#"] followed by the [id] of the last of these headings: a
    link to a text that several headings share lands on the last one. *)
Theorem fragment_link_lands_on_last_heading this (i : nat) e t (k : nat) :
  headerMap this = ∅ →
  relativeHeaderLinks (exportOptions this) = true →
  pageDocument this !! i = Some e →
  i ∈ hrefLinkElements (pageDocument this) →
  getAttribute e "href" = Some ("#" +:+ t) →
  Js.schemeRegexExec t = false →
  getAttribute e "data-href" = None ∨ getAttribute e "data-href" = Some ("#" +:+ t) →
  occurrences (normalizeHeading t) (headingTexts this) = S k →
  let built := remapEmbedLinks (remapLinks this) in
  ∃ (j : nat) (id : string),
    headingTexts this !! j = Some (normalizeHeading t) ∧
    (∀ j' : nat, j < j' → headingTexts this !! j' ≠ Some (normalizeHeading t)) ∧
    headingIds built !! j = Some (Some id) ∧
    pageDocument built !! i ≫= (λ e', getAttribute e' "href") = Some ("#" +:+ id).
Proof.
  intros Hempty Hrel He Hi Hhref Hre Hdata Hocc built.
  destruct (occurrences_last _ _ _ Hocc) as (j & Hj & Htake & Hlast).
  exists j, (normalizeHeading t +:+ "_" +:+ Js.numeral (N.of_nat k)).
  split; [exact Hj|]. split; [exact Hlast|].
  assert (Halloc : keepsDocument ["id"] (pageDocument this)
                     (pageDocument (allocateHeadings this))).
  { apply keepsDocument_allocateHeadings. by apply list_elem_of_singleton. }
  pose proof (remapEmbedLinks_keepsDocument (remapLinks this)) as Hembed.
  split.
  - assert (Hids : headingIds built = headingIds (allocateHeadings this)).
    { rewrite <- remapLinks_keeps_heading_ids.
      apply (headingIds_keeps ["src"; "target"]); [|exact Hembed].
      not_listed. }
    rewrite Hids.
    destruct (allocateHeadings_spec this) as (_ & _ & ->).
    rewrite list_lookup_fmap, Hempty.
    rewrite (allocTexts_lookup ∅ (λ _, 0) _ j Counts_empty), Hj. simpl.
    by rewrite Htake.
  - assert (Hi' : i ∈ hrefLinkElements (pageDocument (allocateHeadings this))).
    { rewrite (hrefLinkElements_keeps ["id"] _ _ Halloc); [done|not_listed]. }
    destruct (remapLinks_at this i Hi') as (e1 & e2 & He1 & He2 & Hsame).
    pose proof (Halloc i) as H1. rewrite He, He1 in H1.
    destruct H1 as (_ & _ & _ & _ & Ha1).
    pose proof (Hembed i) as H2. rewrite He2 in H2.
    destruct (pageDocument (remapEmbedLinks (remapLinks this)) !! i) as [e3|] eqn:He3;
      [|done].
    unfold built. rewrite He3. simpl.
    destruct H2 as (_ & _ & _ & _ & Ha2). rewrite Ha2 by not_listed.
    destruct Hsame as (_ & _ & _ & _ & Ha). rewrite Ha by done.
    unfold remapLink. rewrite getAttribute_toggle.
    rewrite getAttribute_setAttribute_ne by done.
    rewrite getAttribute_setAttribute_eq.
    rewrite (Ha1 "href") by not_listed. rewrite Hhref.
    rewrite (resolveLink_fragment _ t e1 false Hre).
    + pose proof (allocateHeadings_headerMap this Hempty (normalizeHeading t)) as Hm.
      cbv beta in Hm. rewrite Hocc in Hm. rewrite Hm.
      change (exportOptions (allocateHeadings this)) with (exportOptions this).
      by rewrite Hrel.
    + rewrite (Ha1 "data-href") by not_listed. exact Hdata.
Qed.

(** [remapEmbedLinks] resolves the [src] of an element once for each of
    its three loops that selects the element, each time from what the
    loop before left: an [iframe] below [.obsidian-document] with a [src]
    is resolved twice, a [model-viewer] there likewise, and an element
    that no loop selects is left as it was. *)
Theorem remapEmbedLinks_resolves_once_per_loop this (i : nat) e :
  pageDocument this !! i = Some e →
  let first := if decide (i ∈ srcLinkElements (pageDocument this))
               then remapSrc this e else e in
  let second := if tagIs "IFRAME" e then remapSrc this first else first in
  pageDocument (remapEmbedLinks this) !! i =
    Some (if tagIs "MODEL-VIEWER" e then remapModelViewer this second else second).
Proof.
  intros He first second. unfold remapEmbedLinks. cbn [pageDocument withDocument].
  set (doc := pageDocument this) in *.
  set (doc1 := forEachElement (remapSrc this) doc (srcLinkElements doc)).
  set (doc2 := forEachElement (remapSrc this) doc1 (querySelectorAll doc1 selIframe)).
  assert (H1 : doc1 !! i = Some first).
  { unfold doc1, first. rewrite forEachElement_lookup by apply srcLinkElements_NoDup.
    rewrite He. by destruct (decide _). }
  assert (Ht1 : tagName first = tagName e).
  { unfold first. destruct (decide _); [apply tagName_remapSrc|done]. }
  assert (H2 : doc2 !! i = Some second).
  { unfold doc2, second. rewrite forEachElement_lookup by apply querySelectorAll_NoDup.
    rewrite H1. simpl.
    destruct (decide (i ∈ querySelectorAll doc1 selIframe)) as [Hf|Hf].
    - apply querySelectorAll_elem in Hf as (e1 & He1 & Hs).
      rewrite H1 in He1. injection He1 as <-.
      unfold selIframe, tagIs in Hs. rewrite Ht1 in Hs. unfold tagIs. by rewrite Hs.
    - destruct (tagIs "IFRAME" e) eqn:Hs; [|done].
      exfalso. apply Hf. apply querySelectorAll_elem. exists first. split; [done|].
      unfold selIframe, tagIs. by rewrite Ht1. }
  assert (Ht2 : tagName second = tagName e).
  { unfold second. destruct (tagIs "IFRAME" e); [by rewrite tagName_remapSrc|done]. }
  rewrite forEachElement_lookup by apply querySelectorAll_NoDup.
  rewrite H2. simpl.
  destruct (decide (i ∈ querySelectorAll doc2 selModelViewer)) as [Hf|Hf].
  - apply querySelectorAll_elem in Hf as (e2 & He2 & Hs).
    rewrite H2 in He2. injection He2 as <-.
    unfold selModelViewer, tagIs in Hs. rewrite Ht2 in Hs. unfold tagIs. by rewrite Hs.
  - destruct (tagIs "MODEL-VIEWER" e) eqn:Hs; [|done].
    exfalso. apply Hf. apply querySelectorAll_elem. exists second. split; [done|].
    unfold selModelViewer, tagIs. by rewrite Ht2.
Qed.

End Passes.

(** ** More on [resolveLink] *)

Section Links.

Context {paths : PathApi}.

Implicit Types (this : Webpage) (link : string) (linkEl : Element).

(** [resolveLink] answers [undefined] for the references it is meant to
    leave alone and for no other: every other reference, resolved or not,
    comes back as a string. *)
Theorem resolveLink_undefined_only_for_foreign this (ref : option string) linkEl prefer :
  resolveLink this ref linkEl prefer = None ↔ ∃ link, ref = Some link ∧ LeftAsIs link.
Proof.
  split.
  - intros Hres. destruct (Js.truthy ref) eqn:Htruthy.
    + destruct ref as [link|]; [|done].
      assert (Hne : link ≠ "") by (by intros ->).
      exists link. split; [done|]. apply leftAsIs_reflect.
      destruct (leftAsIs link) eqn:Hl; [done|]. exfalso. revert Hres.
      pass_guards link Hne Hl.
      destruct (Js.startsWith link "#").
      * destruct (headerMap this !! _); [|done].
        by destruct (relativeHeaderLinks (exportOptions this)).
      * cbv zeta. by destruct (index_getFile _ _ _).
    + unfold resolveLink in Hres. by rewrite Htruthy in Hres.
  - intros (link & -> & Hl). by apply resolveLink_LeftAsIs.
Qed.

(** A link [p#h] to a page that the Index resolves to an html target gets
    its fragment from the header map of the page holding the link, not
    from the page it points to (lines 1094-1101): when the linking page
    has filed the normalised text of [h], the fragment is that text with
    the suffix filed there; otherwise the fragment is [h], trimmed. *)
Theorem cross_page_fragment_uses_own_header_map this p h linkEl prefer attachment :
  p ≠ "" → leftAsIs (p +:+ "#" +:+ h) = false →
  lacksChar "?" p = true → lacksChar "#" p = true →
  lacksChar "?" h = true → lacksChar "#" h = true →
  Js.trim h ≠ "" →
  index_getFile (website this) (path_pathname (lookupPath this p)) prefer = Some attachment →
  path_extensionName (att_targetPath attachment) = "html" →
  resolveLink this (Some (p +:+ "#" +:+ h)) linkEl prefer =
    Some (path_path (att_targetPath attachment) +:+ "#" +:+
          match headerMap this !! normalizeHeading (Js.trim h) with
          | Some suffix => normalizeHeading (Js.trim h) +:+ "_" +:+ suffix
          | None => Js.trim h
          end).
Proof.
  intros Hne Hl Hqp Hhp Hqh Hhh Htrim Hidx Hext.
  set (link := p +:+ "#" +:+ h) in *.
  assert (Hlink : link ≠ "").
  { unfold link. destruct p; [done|]. by unfold_append. }
  assert (Hfrag : Js.startsWith link "#" = false).
  { unfold link. destruct p as [|a p]; [done|].
    apply (lacksChar_startsWith "#" (String a p)) in Hhp.
    unfold_append. exact Hhp. }
  assert (Hq : lacksChar "?" link = true).
  { unfold link. rewrite !lacksChar_app, Hqp, Hqh. done. }
  pass_guards link Hlink Hl.
  rewrite Hfrag. cbv zeta.
  rewrite (split_lacks link "?" Hq).
  change ([link] !! 0) with (Some link). change ([link] !! 1) with (@None string).
  change (default "" (Some link)) with link.
  assert (Hsplit : Js.split link "#" = [p; h]).
  { unfold link. rewrite <- (split_lacks h "#" Hhh). exact (split_app_sep p h "#" Hhp). }
  rewrite Hsplit.
  change ([p; h] !! 0) with (Some p). change ([p; h] !! 1) with (Some h).
  change (default "" (Some p)) with p.
  fold (lookupPath this p). rewrite Hidx, Hext.
  change (Js.trim <$> None) with (@None string).
  change (Js.trim <$> Some h) with (Some (Js.trim h)).
  change (String.eqb "html" "html") with true.
  cbn [Js.truthy Js.toStr]. cbv iota.
  destruct (Js.trim h) as [|c r] eqn:Et; [done|].
  rewrite normalizeHeading_fragment.
  change (Js.substring1 ("#" +:+ normalizeHeading (String c r)))
    with (normalizeHeading (String c r)).
  destruct (headerMap this !! normalizeHeading (String c r)); reflexivity.
Qed.

End Links.

Lemma resolveLink_undefined_only_for_foreign_witness :
  resolveLink (Sample.page Sample.document ∅ Sample.options)
    (Some "mailto:someone@example.com") Sample.anchor false = None.
Proof.
  apply (proj2 (resolveLink_undefined_only_for_foreign
                  (Sample.page Sample.document ∅ Sample.options)
                  (Some "mailto:someone@example.com") Sample.anchor false)).
  exists "mailto:someone@example.com". split; [reflexivity|].
  exact (LeftAsIs_mailto "someone@example.com").
Defined.

Lemma cross_page_fragment_uses_own_header_map_witness :
  resolveLink (Sample.page Sample.document {["Setup" := "3"]} Sample.options)
    (Some "notes/page.md#Setup") Sample.anchor false = Some "notes/page.html#Setup_3" ∧
  resolveLink (Sample.page Sample.document {["Setup" := "3"]} Sample.options)
    (Some "notes/page.md# Other ") Sample.anchor false = Some "notes/page.html#Other".
Proof.
  split.
  - exact (cross_page_fragment_uses_own_header_map
             (Sample.page Sample.document {["Setup" := "3"]} Sample.options)
             "notes/page.md" "Setup" Sample.anchor false Sample.pageAttachment
             ltac:(discriminate) eq_refl eq_refl eq_refl eq_refl eq_refl
             ltac:(discriminate) eq_refl eq_refl).
  - exact (cross_page_fragment_uses_own_header_map
             (Sample.page Sample.document {["Setup" := "3"]} Sample.options)
             "notes/page.md" " Other " Sample.anchor false Sample.pageAttachment
             ltac:(discriminate) eq_refl eq_refl eq_refl eq_refl eq_refl
             ltac:(discriminate) eq_refl eq_refl).
Defined.

Lemma fragment_link_lands_on_last_heading_witness :
  ∃ (j : nat) (id : string),
    headingTexts SamplePage.page !! j = Some "Intro" ∧
    (∀ j' : nat, j < j' → headingTexts SamplePage.page !! j' ≠ Some "Intro") ∧
    headingIds (remapEmbedLinks (remapLinks SamplePage.page)) !! j = Some (Some id) ∧
    pageDocument (remapEmbedLinks (remapLinks SamplePage.page)) !! 1
      ≫= (λ e', getAttribute e' "href") = Some ("#" +:+ id).
Proof.
  apply (fragment_link_lands_on_last_heading SamplePage.page 1
           (Sample.element "A" [("href", "#Intro")] [] "intro" (Some 0)) "Intro" 1);
    try reflexivity.
  - vm_compute. left.
  - by left.
Defined.

Example fragment_link_example :
  pageDocument (remapEmbedLinks (remapLinks SamplePage.page)) !! 1
    ≫= (λ e', getAttribute e' "href") = Some "#Intro_1" ∧
  headingIds (remapEmbedLinks (remapLinks SamplePage.page)) =
    [Some "Intro_0"; Some "Setup_0"; Some "Intro_1"].
Proof. vm_compute. split; reflexivity. Qed.

Lemma remapEmbedLinks_resolves_once_per_loop_witness :
  pageDocument (remapEmbedLinks (remapLinks SamplePage.page)) !! 5 =
    Some (remapSrc (remapLinks SamplePage.page)
            (remapSrc (remapLinks SamplePage.page)
               (Sample.element "IFRAME" [("src", "notes/page.md#Setup")] [] "" (Some 0)))).
Proof.
  exact (remapEmbedLinks_resolves_once_per_loop (remapLinks SamplePage.page) 5
           (Sample.element "IFRAME" [("src", "notes/page.md#Setup")] [] "" (Some 0))
           eq_refl).
Defined.

Example remapEmbedLinks_example :
  (λ e, (getAttribute e "src", classList e)) <$>
    drop 5 (pageDocument (remapEmbedLinks (remapLinks SamplePage.page))) =
    [(Some "notes/page.html#Setup_0", []); (Some "media/pic.png#undefined", [])].
Proof. vm_compute. split; reflexivity. Qed.

(** ** The buttons that open a frame in the browser *)

Lemma existsb_Forall2 {A B} (R : A → B → Prop) (f : A → bool) (g : B → bool)
    (l : list A) (k : list B) :
  Forall2 R l k → (∀ x y, R x y → g y = f x) → existsb g k = existsb f l.
Proof.
  intros H Hfg. induction H as [|x y l k Hxy _ IH]; simpl; [done|].
  by rewrite IH, (Hfg x y Hxy).
Qed.

Section ButtonSelections.

Variable names : list string.
Variables doc doc' : Document.
Hypothesis Hkeeps : keepsDocument names doc doc'.

Lemma keepsDocument_Forall2 : Forall2 (keepsElement names) doc doc'.
Proof.
  apply Forall2_lookup. intros i. specialize (Hkeeps i).
  destruct (doc !! i), (doc' !! i); try done; by constructor.
Qed.

Lemma closestIframeContainer_keeps (i : nat) :
  closestIframeContainer doc' i = closestIframeContainer doc i.
Proof.
  unfold closestIframeContainer. pose proof (Hkeeps i) as Hi.
  destruct (doc !! i) as [e|], (doc' !! i) as [e'|]; try done.
  rewrite (ancestors_keeps names doc doc' Hkeeps e e' Hi). f_equal.
  apply list_filter_iff. intros j. pose proof (Hkeeps j) as Hj.
  destruct (doc !! j) as [a|], (doc' !! j) as [a'|]; try done. simpl.
  destruct Hj as (_ & _ & _ & Hc & _). unfold classList_contains.
  rewrite !bool_decide_spec. by apply Hc.
Qed.

Lemma containsIframe_keeps (container : nat) :
  containsIframe doc' container = containsIframe doc container.
Proof.
  unfold containsIframe.
  apply (existsb_Forall2 (keepsElement names)); [apply keepsDocument_Forall2|].
  intros e e' He. rewrite (ancestors_keeps names doc doc' Hkeeps e e' He).
  destruct He as (Ht & _). unfold tagIs. by rewrite Ht.
Qed.

Lemma opensInBrowser_keeps (i : nat) :
  opensInBrowser doc' i = opensInBrowser doc i.
Proof.
  unfold opensInBrowser. rewrite closestIframeContainer_keeps.
  pose proof (Hkeeps i) as Hi.
  destruct (doc !! i) as [e|], (doc' !! i) as [e'|]; try done.
  destruct Hi as (Ht & Hx & _). unfold tagIs. rewrite Ht, Hx.
  destruct (closestIframeContainer doc i) as [c|]; [|done].
  by rewrite containsIframe_keeps.
Qed.

End ButtonSelections.

Lemma remapButton_keeps (doc : Document) (b : nat) :
  keepsDocument ["onclick"] doc (remapButton doc b).
Proof.
  intros i. pose proof (remapButton_lookup doc b i) as H.
  destruct (doc !! i), (remapButton doc b !! i); try done.
  apply keepsElement_sameButOnclick; [by left|done].
Qed.

Lemma remapButton_at (doc : Document) (b i : nat) :
  from_option (tagIs "BUTTON") false (doc !! b) = true →
  remapButton doc b !! i =
    if decide (i = b) then
      (if opensInBrowser doc b then setAttribute "onclick" openInBrowserOnclick else id)
        <$> doc !! i
    else doc !! i.
Proof.
  intros Hb. unfold remapButton, opensInBrowser.
  destruct (doc !! b) as [button|] eqn:Eb; [|done]. simpl in Hb. rewrite Hb. cbn [andb].
  assert (Hid : doc !! i = if decide (i = b) then id <$> doc !! i else doc !! i).
  { destruct (decide _); [|done]. by destruct (doc !! i). }
  destruct (String.eqb _ _); [|exact Hid]. cbn [andb].
  destruct (closestIframeContainer doc b); [|exact Hid].
  destruct (containsIframe doc _); [|exact Hid].
  destruct (decide (i = b)) as [->|Hne].
  - by rewrite list_lookup_alter_eq.
  - by rewrite list_lookup_alter_ne.
Qed.

Lemma foldl_remapButton_at (doc : Document) (bs : list nat) (i : nat) :
  NoDup bs →
  (∀ b, b ∈ bs → from_option (tagIs "BUTTON") false (doc !! b) = true) →
  foldl remapButton doc bs !! i =
    if decide (i ∈ bs) then
      (if opensInBrowser doc i then setAttribute "onclick" openInBrowserOnclick else id)
        <$> doc !! i
    else doc !! i.
Proof.
  revert doc. induction bs as [|b bs IH]; intros doc Hnd Hbs; cbn [foldl].
  { by rewrite decide_False by apply not_elem_of_nil. }
  apply NoDup_cons in Hnd as [Hb Hnd].
  pose proof (remapButton_keeps doc b) as Hk.
  assert (Hb' : from_option (tagIs "BUTTON") false (doc !! b) = true).
  { apply Hbs. by left. }
  rewrite IH; [|done|].
  - rewrite (opensInBrowser_keeps ["onclick"] doc _ Hk).
    rewrite (remapButton_at doc b i Hb').
    destruct (decide (i = b)) as [->|Hne].
    + rewrite decide_False by done. rewrite decide_True by (by left). done.
    + destruct (decide (i ∈ bs)) as [Hin|Hin].
      * rewrite decide_True by (by right). done.
      * rewrite decide_False; [done|]. by intros [?|?]%elem_of_cons.
  - intros b' Hin'. specialize (Hk b').
    pose proof (Hbs b' ltac:(by right)) as Ht.
    destruct (doc !! b') as [e|], (remapButton doc b !! b') as [e'|]; try done.
    simpl in *. destruct Hk as (Htag & _). unfold tagIs in *. by rewrite Htag.
Qed.

Section Buttons.

Context {paths : PathApi}.

Implicit Types (this : Webpage) (e : Element).

(** [remapLinks] gives the click handler to the buttons that open a frame
    in the browser and to no other element: an element of the page ends
    the pass with the handler as its [onclick] when it is a button whose
    text is ["Open in Browser"] and whose closest
    [.relative-iframe-container] holds an [iframe], and with the [onclick]
    it had otherwise.  (The other label the loop tests for has characters
    that the strings of the model do not hold.) *)
Theorem open_in_browser_buttons_get_the_handler this (i : nat) e :
  pageDocument this !! i = Some e →
  ∃ e', pageDocument (remapLinks this) !! i = Some e' ∧
        getAttribute e' "onclick" =
          if opensInBrowser (pageDocument this) i then Some openInBrowserOnclick
          else getAttribute e "onclick".
Proof.
  intros He. unfold remapLinks. cbn [pageDocument withDocument].
  set (this' := allocateHeadings this).
  set (doc1 := forEachElement (remapLink this') (pageDocument this')
                 (hrefLinkElements (pageDocument this'))).
  assert (Hk : keepsDocument ["id"; "href"; "target"] (pageDocument this) doc1).
  { eapply keepsDocument_trans; [apply keepsDocument_allocateHeadings; by left|].
    apply keepsDocument_forEach; [apply querySelectorAll_NoDup|].
    intros x. apply keepsElement_remapLink; set_solver. }
  rewrite foldl_remapButton_at; [|apply querySelectorAll_NoDup|].
  - rewrite (opensInBrowser_keeps _ _ _ Hk).
    pose proof (Hk i) as Hi. rewrite He in Hi.
    destruct (doc1 !! i) as [e1|] eqn:E1; [|done].
    destruct Hi as (Ht & _ & _ & _ & Ha).
    assert (Honclick : getAttribute e1 "onclick" = getAttribute e "onclick").
    { apply Ha. not_listed. }
    destruct (opensInBrowser (pageDocument this) i) eqn:Ho.
    + assert (Hin : i ∈ querySelectorAll doc1 selButton).
      { apply querySelectorAll_elem. exists e1. split; [done|].
        unfold selButton, tagIs. rewrite Ht.
        unfold opensInBrowser in Ho. rewrite He in Ho.
        by apply andb_prop in Ho as [[? _]%andb_prop _]. }
      rewrite decide_True by done. eexists. split; [done|].
      apply getAttribute_setAttribute_eq.
    + destruct (decide _); by exists e1.
  - intros b Hb. apply querySelectorAll_elem in Hb as (x & -> & Hx). exact Hx.
Qed.

End Buttons.

Lemma open_in_browser_buttons_get_the_handler_witness :
  ∃ e', pageDocument (remapLinks SampleFrame.page) !! 3 = Some e' ∧
        getAttribute e' "onclick" = Some openInBrowserOnclick.
Proof.
  exact (open_in_browser_buttons_get_the_handler SampleFrame.page 3
           (Sample.element "BUTTON" [] [] "Open in Browser" (Some 1)) eq_refl).
Defined.

Example open_in_browser_example :
  (λ e, bool_decide (getAttribute e "onclick" = Some openInBrowserOnclick)) <$>
    pageDocument (remapLinks SampleFrame.page) = [false; false; false; true; false; false] ∧
  pageDocument (remapLinks SampleFrame.page) !! 4 ≫= (λ e, getAttribute e "onclick") =
    Some "reload()".
Proof. vm_compute. split; reflexivity. Qed.

(** ** [getAttachments]: the loop over the sources *)

Section AttachmentFacts.

Context {paths : PathApi} {store : AttachmentStore}.

Implicit Types (this : Webpage) (st : Collecting) (src : string).

(** One turn of the loop keeps what is collected and logged, and adds
    nothing, or one attachment that was not there, or one message. *)
Lemma collectSrc_grows this st src :
  ∃ added messages,
    collected (collectSrc this st src) = collected st ++ added ∧
    logged (collectSrc this st src) = logged st ++ messages ∧
    ((added = [] ∧ messages = []) ∨
     (isForeignSrc src = false ∧ added = [] ∧ messages = [notFound src]) ∨
     (isForeignSrc src = false ∧ messages = [] ∧ ∃ a, added = [a] ∧ a ∉ collected st)).
Proof.
  unfold collectSrc. destruct (isForeignSrc src) eqn:Hf.
  { exists [], []. rewrite !app_nil_r. split; [done|]. split; [done|]. by left. }
  cbv zeta. destruct (findAttachment this st src).1 as [a|].
  - destruct (negb _).
    + exists [], [notFound src]. simpl. rewrite app_nil_r.
      split; [done|]. split; [done|]. right. by left.
    + case_bool_decide as Hin.
      * exists [], []. simpl. rewrite !app_nil_r.
        split; [done|]. split; [done|]. by left.
      * exists [a], []. simpl. rewrite app_nil_r.
        split; [done|]. split; [done|]. right. right.
        split; [done|]. split; [done|]. by exists a.
  - exists [], [notFound src]. simpl. rewrite app_nil_r.
    split; [done|]. split; [done|]. right. by left.
Qed.

Lemma foldl_collectSrc_grows this st (srcs : list string) :
  collected st `prefix_of` collected (foldl (collectSrc this) st srcs) ∧
  logged st `prefix_of` logged (foldl (collectSrc this) st srcs) ∧
  (NoDup (collected st) → NoDup (collected (foldl (collectSrc this) st srcs))) ∧
  length (collected (foldl (collectSrc this) st srcs)) +
    length (logged (foldl (collectSrc this) st srcs)) ≤
    length (collected st) + length (logged st) +
    length (filter (λ src, isForeignSrc src = false) srcs) ∧
  (∀ m, m ∈ logged (foldl (collectSrc this) st srcs) →
     m ∈ logged st ∨ ∃ src, src ∈ srcs ∧ isForeignSrc src = false ∧ m = notFound src).
Proof.
  revert st. induction srcs as [|src srcs IH]; intros st; cbn [foldl].
  { split; [done|]. split; [done|]. split; [done|]. split; [simpl; lia|]. by left. }
  destruct (IH (collectSrc this st src)) as (Hc & Hl & Hnd & Hlen & Hm).
  destruct (collectSrc_grows this st src) as (added & messages & Ec & El & Hcases).
  rewrite Ec in Hc, Hnd, Hlen. rewrite El in Hl, Hlen, Hm.
  split; [etrans; [|exact Hc]; by apply prefix_app_r|].
  split; [etrans; [|exact Hl]; by apply prefix_app_r|].
  split; [|split].
  - intros Hst. apply Hnd.
    destruct Hcases as [[-> _]|[(_ & -> & _)|(_ & _ & a & -> & Ha)]];
      rewrite ?app_nil_r; try done.
    apply NoDup_app. split; [done|]. split; [|apply NoDup_singleton].
    intros x Hx Hx'. apply list_elem_of_singleton in Hx' as ->. done.
  - rewrite !length_app in Hlen.
    assert (Hstep : length added + length messages +
                      length (filter (λ src, isForeignSrc src = false) srcs) ≤
                    length (filter (λ src, isForeignSrc src = false) (src :: srcs))).
    { destruct Hcases as [[-> ->]|[(Hf & -> & ->)|(Hf & -> & a & -> & _)]].
      - simpl length at 1 2. destruct (decide (isForeignSrc src = false)).
        + rewrite filter_cons_True by done. simpl. lia.
        + rewrite filter_cons_False by done. lia.
      - rewrite filter_cons_True by done. simpl. lia.
      - rewrite filter_cons_True by done. simpl. lia. }
    lia.
  - intros m Hin. destruct (Hm m Hin) as [Hin'|(src' & Hs & Hf & ->)].
    + apply elem_of_app in Hin' as [?|Hin']; [by left|].
      destruct Hcases as [[_ ->]|[(Hf & _ & ->)|(_ & -> & _)]];
        try (by apply elem_of_nil in Hin').
      apply list_elem_of_singleton in Hin' as ->. right. exists src.
      split; [by left|done].
    + right. exists src'. split; [by right|done].
Qed.

(** The loop only appends: the attachments the page had before stay at
    the front, in their order; the attachments and the messages added
    number at most the sources that are not foreign; and every message
    logged names such a source of the page. *)
Theorem getAttachments_only_appends this (w : World) :
  attachments this `prefix_of` collected (collectSrcAttachments this w) ∧
  length (collected (collectSrcAttachments this w)) +
    length (logged (collectSrcAttachments this w)) ≤
    length (attachments this) +
    length (filter (λ src, isForeignSrc src = false) (srcLinks (pageDocument this))) ∧
  Forall (λ m, ∃ src, src ∈ srcLinks (pageDocument this) ∧ isForeignSrc src = false ∧
                      m = notFound src)
    (logged (collectSrcAttachments this w)).
Proof.
  unfold collectSrcAttachments.
  destruct (foldl_collectSrc_grows this
              {| collected := attachments this; world := w; logged := [] |}
              (srcLinks (pageDocument this))) as (Hc & _ & _ & Hlen & Hm).
  split; [exact Hc|]. split; [simpl in Hlen; lia|].
  apply Forall_forall. intros m Hin.
  destruct (Hm m Hin) as [Hnil|H]; [by apply elem_of_nil in Hnil|exact H].
Qed.

(** No attachment is entered twice: when the attachments of the page are
    pairwise distinct before the loop, they are so after it. *)
Theorem getAttachments_enters_no_attachment_twice this (w : World) :
  NoDup (attachments this) → NoDup (collected (collectSrcAttachments this w)).
Proof.
  intros Hnd. unfold collectSrcAttachments.
  destruct (foldl_collectSrc_grows this
              {| collected := attachments this; world := w; logged := [] |}
              (srcLinks (pageDocument this))) as (_ & _ & H & _).
  by apply H.
Qed.

Lemma collectSrc_accounts this st src :
  isForeignSrc src = false →
  match (findAttachment this st src).1 with
  | Some a =>
      if Js.truthy (Some (path_pathname (getFilePathFromSrc (website this) src
                                           (file_path (source this)))))
      then a ∈ collected (collectSrc this st src)
      else notFound src ∈ logged (collectSrc this st src)
  | None => notFound src ∈ logged (collectSrc this st src)
  end.
Proof.
  intros Hf. unfold collectSrc. rewrite Hf. cbv zeta.
  destruct (findAttachment this st src).1 as [a|].
  - destruct (Js.truthy _); simpl.
    + case_bool_decide as Hin; simpl; [done|]. apply elem_of_app. right. by left.
    + apply elem_of_app. right. by left.
  - simpl. apply elem_of_app. right. by left.
Qed.

(** No source is passed by in silence.  Take a source of the page that is
    not foreign, and the state the loop is in when it comes to it.  If an
    attachment is found for the source there (among the attachments
    collected so far, in the Index or by the creator) and the source
    path is not empty, that attachment is among the attachments when the
    loop ends; otherwise the message naming the source is in the log. *)
Theorem getAttachments_accounts_for_every_source this (w : World)
    (before after : list string) src :
  srcLinks (pageDocument this) = before ++ src :: after →
  isForeignSrc src = false →
  let st := foldl (collectSrc this)
              {| collected := attachments this; world := w; logged := [] |} before in
  let final := collectSrcAttachments this w in
  match (findAttachment this st src).1 with
  | Some a =>
      if Js.truthy (Some (path_pathname (getFilePathFromSrc (website this) src
                                           (file_path (source this)))))
      then a ∈ collected final
      else notFound src ∈ logged final
  | None => notFound src ∈ logged final
  end.
Proof.
  intros Hsrcs Hf st final.
  assert (Hfinal : final = foldl (collectSrc this) (collectSrc this st src) after).
  { unfold final, collectSrcAttachments, st. by rewrite Hsrcs, foldl_app. }
  destruct (foldl_collectSrc_grows this (collectSrc this st src) after)
    as (Hc & Hl & _). rewrite <- Hfinal in Hc, Hl.
  pose proof (collectSrc_accounts this st src Hf) as H.
  destruct (findAttachment this st src).1 as [a|].
  - destruct (Js.truthy _).
    + destruct Hc as [k ->]. apply elem_of_app. by left.
    + destruct Hl as [k ->]. apply elem_of_app. by left.
  - destruct Hl as [k ->]. apply elem_of_app. by left.
Qed.

(** A source for which the page already holds an attachment is neither
    looked up in the Index nor created: the loop body leaves the
    attachments, the world and the log as they are. *)
Theorem collectSrc_reuses_held_attachment this st src a :
  a ∈ collected st →
  att_sourcePath a =
    Some (path_pathname (getFilePathFromSrc (website this) src (file_path (source this)))) →
  path_pathname (getFilePathFromSrc (website this) src (file_path (source this))) ≠ "" →
  collectSrc this st src = st.
Proof.
  intros Hin Hpath Hne. unfold collectSrc.
  destruct (isForeignSrc src); [done|]. cbv zeta. unfold findAttachment.
  set (sourcePath := path_pathname _) in *.
  destruct (head (filter (λ a, att_sourcePath a = Some sourcePath) (collected st)))
    as [b|] eqn:Hhead.
  - assert (Hb : b ∈ collected st).
    { apply head_Some in Hhead as [l Hl].
      assert (b ∈ filter (λ a, att_sourcePath a = Some sourcePath) (collected st)) as Hb.
      { rewrite Hl. by left. }
      by apply list_elem_of_filter in Hb as [_ ?]. }
    cbn [fst snd]. rewrite (truthy_Some sourcePath Hne). cbn [negb].
    rewrite bool_decide_true by done. by destruct st.
  - exfalso. apply head_None in Hhead.
    assert (a ∈ filter (λ a, att_sourcePath a = Some sourcePath) (collected st)) as Ha.
    { by apply list_elem_of_filter. }
    rewrite Hhead in Ha. by apply elem_of_nil in Ha.
Qed.

End AttachmentFacts.

Lemma getAttachments_enters_no_attachment_twice_witness :
  NoDup (collected SampleStore.result).
Proof.
  apply (getAttachments_enters_no_attachment_twice (store := SampleStore.store)
           SampleStore.page 0).
  apply NoDup_singleton.
Defined.

Lemma getAttachments_accounts_for_every_source_witness :
  Sample.imageAttachment ∈ collected SampleStore.result ∧
  notFound "missing.png" ∈ logged SampleStore.result.
Proof.
  split.
  - exact (getAttachments_accounts_for_every_source (store := SampleStore.store)
             SampleStore.page 0
             [] ["https://example.com/a.png"; "media/new.png"; "missing.png";
                 "media/new.png"] "media/pic.png" eq_refl eq_refl).
  - exact (getAttachments_accounts_for_every_source (store := SampleStore.store)
             SampleStore.page 0
             ["media/pic.png"; "https://example.com/a.png"; "media/new.png"]
             ["media/new.png"] "missing.png" eq_refl eq_refl).
Defined.

Lemma collectSrc_reuses_held_attachment_witness :
  collectSrc SampleStore.page SampleStore.result "media/new.png" = SampleStore.result.
Proof.
  apply (collectSrc_reuses_held_attachment (store := SampleStore.store)
           SampleStore.page SampleStore.result
           "media/new.png"
           (@Build_Attachment Sample.paths 200 "" "media/new.png" (Some "media/new.png"))).
  - vm_compute. do 2 right. left.
  - reflexivity.
  - discriminate.
Defined.

Example getAttachments_example :
  att_ref <$> collected SampleStore.result = [100; 101; 200] ∧
  world SampleStore.result = 1 ∧
  logged SampleStore.result = ["Attachment source not found: missing.png"].
Proof. vm_compute. repeat split; reflexivity. Qed.

(** ** Slide embeds and the sources of the page *)

Section EmbedSources.

Context {paths : PathApi} {host : SlidesHost}.

Implicit Types (run : ExportRun) (this : Webpage) (slideFile : TFile)
  (page : JsNumber) (iframe : Element) (att : Attachment).




End EmbedSources.


(** ** Slide embeds: the page number of a directive *)

Lemma string_of_uint_digits (d : uint) : digitString (NilEmpty.string_of_uint d) = true.
Proof. induction d; simpl; try done. Qed.

Lemma numeral_digits (n : N) : digitString (Js.numeral n) = true.
Proof. apply string_of_uint_digits. Qed.

Lemma digitString_lacks (c : ascii) (s : string) :
  isDigit c = false → digitString s = true → lacksChar c s = true.
Proof.
  intros Hc. induction s as [|a s IH]; simpl; [done|].
  intros [Ha Hs]%andb_prop. rewrite (IH Hs), andb_true_r.
  apply negb_true_iff. destruct (Ascii.eqb_spec a c) as [->|]; [congruence|done].
Qed.

(** Reading the digits of a numeral gives back what the numeral was made
    from. *)
Lemma parseDigits_acc (d : uint) (acc : positive) :
  JsMore.parseDigits 10 true (Npos acc) (NilEmpty.string_of_uint d) =
    Some (Npos (Pos.of_uint_acc d acc)).
Proof.
  revert acc. induction d; intros acc; simpl; try done;
    rewrite <- IHd; f_equal; lia.
Qed.

Lemma parseDigits_uint (d : uint) (seen : bool) :
  d ≠ Nil ∨ seen = true →
  JsMore.parseDigits 10 seen 0 (NilEmpty.string_of_uint d) = Some (N.of_uint d).
Proof.
  revert seen. induction d; intros seen Hne;
    try (cbn [NilEmpty.string_of_uint JsMore.parseDigits];
         change (JsMore.digitValue 10 _) with (Some 0%N) ||
         change (JsMore.digitValue 10 _) with (Some 1%N) ||
         change (JsMore.digitValue 10 _) with (Some 2%N) ||
         change (JsMore.digitValue 10 _) with (Some 3%N) ||
         change (JsMore.digitValue 10 _) with (Some 4%N) ||
         change (JsMore.digitValue 10 _) with (Some 5%N) ||
         change (JsMore.digitValue 10 _) with (Some 6%N) ||
         change (JsMore.digitValue 10 _) with (Some 7%N) ||
         change (JsMore.digitValue 10 _) with (Some 8%N) ||
         change (JsMore.digitValue 10 _) with (Some 9%N);
         cbv iota beta).
  - destruct Hne as [?| ->]; done.
  - change (0 * 10 + 0)%N with 0%N. rewrite IHd by (by right). done.
  - exact (parseDigits_acc d 1).
  - exact (parseDigits_acc d 2).
  - exact (parseDigits_acc d 3).
  - exact (parseDigits_acc d 4).
  - exact (parseDigits_acc d 5).
  - exact (parseDigits_acc d 6).
  - exact (parseDigits_acc d 7).
  - exact (parseDigits_acc d 8).
  - exact (parseDigits_acc d 9).
Qed.

Lemma to_uint_not_Nil (n : N) : N.to_uint n ≠ Nil.
Proof.
  destruct n as [|p]; [done|]. simpl. unfold Pos.to_uint.
  intros H. pose proof (DecimalPos.Unsigned.to_uint_nonnil p) as Hn. done.
Qed.

Lemma parseDigits_numeral (n : N) :
  JsMore.parseDigits 10 false 0 (Js.numeral n) = Some n.
Proof.
  unfold Js.numeral.
  rewrite (parseDigits_uint (N.to_uint n) false (or_introl (to_uint_not_Nil n))).
  by rewrite DecimalN.Unsigned.of_to.
Qed.

Lemma isDigit_cases (c : ascii) :
  isDigit c = true →
  Js.isWhiteSpace c = false ∧ c ≠ "-"%char ∧ c ≠ "+"%char ∧ c ≠ "x"%char ∧ c ≠ "X"%char ∧
  c ≠ "/"%char.
Proof.
  destruct c as [[] [] [] [] [] [] [] []]; intros H; try discriminate H;
    by repeat split.
Qed.

Lemma parseInt_digits (s : string) :
  s ≠ "" → digitString s = true →
  JsMore.parseInt s = Z.of_N <$> JsMore.parseDigits 10 false 0 s.
Proof.
  destruct s as [|c r]; [done|]. intros _ [Hc Hr]%andb_prop.
  destruct (isDigit_cases c Hc) as (Hws & _).
  unfold JsMore.parseInt. cbn [Js.trimStart]. rewrite Hws.
  assert (Hx : Js.startsWith (String c r) "0x" || Js.startsWith (String c r) "0X" = false).
  { destruct r as [|c2 r]; [cbn [Js.startsWith]; by destruct (Ascii.eqb "0" c)|].
    apply andb_prop in Hr as [Hc2 _].
    destruct (isDigit_cases c2 Hc2) as (_ & _ & _ & Hx1 & Hx2 & _).
    cbn [Js.startsWith]. destruct (Ascii.eqb "0" c); [|done].
    destruct (Ascii.eqb_spec "x" c2) as [<-|_]; [done|].
    destruct (Ascii.eqb_spec "X" c2) as [<-|_]; done. }
  destruct c as [[] [] [] [] [] [] [] []]; try discriminate Hc;
    cbv beta iota; rewrite Hx; by destruct (JsMore.parseDigits _ _ _ _).
Qed.

Lemma parseInt_numeral (n : N) : JsMore.parseInt (Js.numeral n) = Some (Z.of_N n).
Proof.
  rewrite parseInt_digits; [|apply numeral_nonempty|apply numeral_digits].
  by rewrite parseDigits_numeral.
Qed.

Lemma parseInt_negative_numeral (n : N) :
  JsMore.parseInt ("-" +:+ Js.numeral n) = Some (- Z.of_N n)%Z.
Proof.
  pose proof (parseInt_numeral n) as H. pose proof (numeral_digits n) as Hd.
  pose proof (numeral_nonempty n) as Hne.
  unfold_append. unfold JsMore.parseInt in *.
  destruct (Js.numeral n) as [|c r] eqn:E; [done|].
  apply andb_prop in Hd as [Hc Hr].
  destruct (isDigit_cases c Hc) as (Hws & _).
  cbn [Js.trimStart] in *. rewrite Hws in H.
  change (Js.isWhiteSpace "-") with false. cbv iota.
  destruct c as [[] [] [] [] [] [] [] []]; try discriminate Hc;
    cbv beta iota in H |- *;
    destruct (_ || _); destruct (JsMore.parseDigits _ _ _ _); try done;
    injection H as H; f_equal; lia.
Qed.

Lemma split_numeral (n : N) :
  Js.split (Js.numeral n) "/" = [Js.numeral n].
Proof.
  apply split_lacks, digitString_lacks; [done|apply numeral_digits].
Qed.

Lemma split_numeral_rest (n : N) (rest : string) :
  Js.split (Js.numeral n +:+ "/" +:+ rest) "/" = Js.numeral n :: Js.split rest "/".
Proof.
  apply (split_app_sep (Js.numeral n) rest "/").
  apply digitString_lacks; [done|apply numeral_digits].
Qed.

(** The page number of a slide directive is read back from the hash the
    directive carries: ["#/n"], ["#/n/m"] (the second number is the
    vertical index of the slide) and ["#n"] all give [n], and a minus sign
    before the number is taken along.  The numbers are those JavaScript
    holds exactly. *)
Theorem page_number_read_from_hash (n : N) (rest : string) :
  (n < 2 ^ 53)%N →
  parseAdvancedSlidesPageFromHash ("#/" +:+ Js.numeral n) = Z.of_N n ∧
  parseAdvancedSlidesPageFromHash ("#/" +:+ Js.numeral n +:+ "/" +:+ rest) = Z.of_N n ∧
  parseAdvancedSlidesPageFromHash ("#" +:+ Js.numeral n) = Z.of_N n ∧
  parseAdvancedSlidesPageFromHash ("#/-" +:+ Js.numeral n) = (- Z.of_N n)%Z.
Proof.
  intros _. unfold parseAdvancedSlidesPageFromHash. unfold_append.
  cbn [Js.truthy negb]. split; [|split; [|split]].
  - change (stripHashSlash (String "#" (String "/" (Js.numeral n)))) with (Js.numeral n).
    rewrite split_numeral. cbn [lookup list_lookup default from_option id].
    by rewrite parseInt_numeral.
  - change (stripHashSlash (String "#" (String "/" (Js.numeral n +:+ String "/" rest))))
      with (Js.numeral n +:+ "/" +:+ rest).
    rewrite split_numeral_rest. cbn [lookup list_lookup default from_option id].
    by rewrite parseInt_numeral.
  - assert (stripHashSlash (String "#" (Js.numeral n)) = Js.numeral n) as ->.
    { pose proof (numeral_digits n) as Hd.
      destruct (Js.numeral n) as [|c r]; [done|].
      apply andb_prop in Hd as [Hc _].
      destruct (isDigit_cases c Hc) as (_ & _ & _ & _ & _ & Hslash).
      destruct c as [[] [] [] [] [] [] [] []]; try discriminate Hc; done. }
    rewrite split_numeral. cbn [lookup list_lookup default from_option id].
    by rewrite parseInt_numeral.
  - change (stripHashSlash (String "#" (String "/" (String "-" (Js.numeral n)))))
      with ("-" +:+ Js.numeral n).
    assert (Js.split ("-" +:+ Js.numeral n) "/" = ["-" +:+ Js.numeral n]) as ->.
    { apply split_lacks. unfold_append. cbn [lacksChar].
      rewrite (digitString_lacks "/" _ eq_refl (numeral_digits n)). done. }
    cbn [lookup list_lookup default from_option id].
    by rewrite parseInt_negative_numeral.
Qed.

(** A hash that does not begin with a number gives page 0: so does the
    empty hash, and so does every hash ["#/..."] whose text after the
    slash begins with a character that is no digit, no sign and no white
    space. *)
Theorem page_number_defaults_to_zero (c : ascii) (rest : string) :
  isDigit c = false → Js.isWhiteSpace c = false → c ≠ "-"%char → c ≠ "+"%char →
  parseAdvancedSlidesPageFromHash "" = 0%Z ∧
  parseAdvancedSlidesPageFromHash "#" = 0%Z ∧
  parseAdvancedSlidesPageFromHash "#/" = 0%Z ∧
  parseAdvancedSlidesPageFromHash ("#/" +:+ String c rest) = 0%Z.
Proof.
  intros Hd Hws Hminus Hplus.
  split; [done|]. split; [done|]. split; [done|].
  unfold parseAdvancedSlidesPageFromHash. unfold_append. cbn [Js.truthy negb].
  change (stripHashSlash (String "#" (String "/" (String c rest)))) with (String c rest).
  assert (Hhead : default "" (Js.split (String c rest) "/" !! 0) = "" ∨
                  ∃ r, default "" (Js.split (String c rest) "/" !! 0) = String c r).
  { cbn [Js.split]. destruct (Ascii.eqb c "/"); [by left|]. right.
    destruct (Js.split rest "/") as [|h t]; simpl; by eexists. }
  destruct Hhead as [->|[r ->]]; [done|].
  unfold JsMore.parseInt. cbn [Js.trimStart]. rewrite Hws.
  destruct c as [[] [] [] [] [] [] [] []];
    try discriminate Hd; try discriminate Hws; try done.
Qed.

Lemma page_number_read_from_hash_witness :
  parseAdvancedSlidesPageFromHash "#/12" = 12%Z ∧
  parseAdvancedSlidesPageFromHash "#/12/2" = 12%Z ∧
  parseAdvancedSlidesPageFromHash "#12" = 12%Z ∧
  parseAdvancedSlidesPageFromHash "#/-12" = (-12)%Z.
Proof. exact (page_number_read_from_hash 12 "2" eq_refl). Defined.

Lemma page_number_defaults_to_zero_witness :
  parseAdvancedSlidesPageFromHash "#/intro" = 0%Z.
Proof.
  apply (page_number_defaults_to_zero "i" "ntro" eq_refl eq_refl); discriminate.
Defined.

Example page_number_example :
  parseAdvancedSlidesPageFromHash <$> ["#/3"; "#/ 7x"; "#/0x1f"; "#/1e3"; "#//4"; "3/4"] =
    [3; 7; 31; 1; 0; 3]%Z.
Proof. vm_compute. reflexivity. Qed.

(** ** Slide embeds: the file of a directive *)

Lemma head_insertByPathLength (f : TFile) (l : list TFile) :
  head (insertByPathLength f l) =
    match head l with
    | None => Some f
    | Some g => if pathLength f <=? pathLength g then Some f else Some g
    end.
Proof.
  destruct l as [|g l]; [done|]. simpl. unfold pathLength.
  by destruct (_ <=? _).
Qed.

(** The sort puts a shortest path first, and of the shortest paths the one
    that came first. *)
Lemma head_sortByPathLength (l : list TFile) :
  match head (sortByPathLength l) with
  | Some m =>
      ∃ before after, l = before ++ m :: after ∧
        (∀ g, g ∈ before → pathLength m < pathLength g) ∧
        (∀ g, g ∈ after → pathLength m ≤ pathLength g)
  | None => l = []
  end.
Proof.
  induction l as [|f l IH]; [done|].
  change (sortByPathLength (f :: l)) with (insertByPathLength f (sortByPathLength l)).
  rewrite head_insertByPathLength.
  destruct (head (sortByPathLength l)) as [g|].
  - destruct IH as (before & after & -> & Hb & Ha).
    destruct (Nat.leb_spec (pathLength f) (pathLength g)) as [Hle|Hlt].
    + exists [], (before ++ g :: after). split; [done|].
      split; [by intros x Hx%elem_of_nil|].
      intros x [Hx|Hx]%elem_of_app.
      * specialize (Hb x Hx). lia.
      * apply elem_of_cons in Hx as [->|Hx]; [done|]. specialize (Ha x Hx). lia.
    + exists (f :: before), after. split; [done|]. split; [|done].
      intros x [->|Hx]%elem_of_cons; [done|]. by apply Hb.
  - subst l. exists [], []. split; [done|].
    split; by intros x Hx%elem_of_nil.
Qed.

Lemma endsWith_app (s p : string) : JsMore.endsWith (s +:+ p) p = true.
Proof.
  induction s as [|a s IH]; unfold_append.
  - destruct p as [|c p]; [done|]. cbn [JsMore.endsWith]. by rewrite String.eqb_refl.
  - cbn [JsMore.endsWith]. rewrite IH. apply orb_true_r.
Qed.

Lemma trimEnd_app_keeps (s : string) (c : ascii) :
  Js.isWhiteSpace c = false → Js.trimEnd (s +:+ String c "") = s +:+ String c "".
Proof.
  intros Hc. induction s as [|a s IH]; unfold_append; cbn [Js.trimEnd].
  - by rewrite Hc.
  - rewrite IH. destruct s; by unfold_append.
Qed.

Lemma length_append (s t : string) :
  String.length (s +:+ t) = String.length s + String.length t.
Proof. induction s as [|a s IH]; unfold_append; simpl; [done|]. by rewrite IH. Qed.

Lemma substring_prefix (s t : string) :
  String.substring 0 (String.length s) (s +:+ t) = s.
Proof.
  induction s as [|a s IH]; unfold_append; simpl.
  - by destruct t.
  - by rewrite IH.
Qed.

Lemma slidePathOf_wiki_link (x : string) :
  Js.trim x = x → slidePathOf ("[[" +:+ x +:+ "]]") = x.
Proof.
  intros Hx. unfold slidePathOf.
  assert (Htrim : Js.trim ("[[" +:+ x +:+ "]]") = "[[" +:+ x +:+ "]]").
  { assert (E : "[[" +:+ x +:+ "]]" = ("[[" +:+ x +:+ "]") +:+ String "]" "").
    { rewrite !append_assoc. by unfold_append. }
    assert (Hs : Js.trimStart ("[[" +:+ x +:+ "]]") = "[[" +:+ x +:+ "]]").
    { by unfold_append. }
    unfold Js.trim. rewrite Hs, E. by apply trimEnd_app_keeps. }
  rewrite Htrim.
  assert (Hends : JsMore.endsWith ("[[" +:+ x +:+ "]]") "]]" = true).
  { rewrite <- (append_assoc "[[" x "]]"). apply endsWith_app. }
  rewrite Hends. unfold_append. cbn [Js.startsWith]. cbn [andb Ascii.eqb Bool.eqb].
  unfold JsMore.substring. cbn [String.length]. rewrite length_append.
  cbn [String.length].
  replace (S (S (String.length x + 2)) - 2) with (String.length x + 2) by lia.
  replace (2 `min` S (S (String.length x + 2))) with 2 by lia.
  replace ((String.length x + 2) `min` S (S (String.length x + 2)))
    with (String.length x + 2) by lia.
  replace (2 `min` (String.length x + 2)) with 2 by lia.
  replace (2 `max` (String.length x + 2) - 2) with (String.length x) by lia.
  cbn [String.substring]. by rewrite substring_prefix.
Qed.

Section SlideFileFacts.

Context {vault : VaultApi}.

(** When the plugin, the vault and the link resolver find no file for a
    slide, the file is looked for among all the files of the vault whose
    path is the slide path or ends with it.  If there is none, no file is
    returned; otherwise the one returned has a shortest path, and comes
    first in the vault's order among the candidates of that length. *)
Theorem slide_fallback_picks_first_shortest (sourcePath slide : string)
    (getTFile : option (string → option TFile)) :
  slide ≠ "" →
  getTFile ≫= (λ get, get (slidePathOf slide)) = None →
  vault_getFileByPath (slidePathOf slide) = None →
  vault_getFileByPath (slidePathOf slide +:+ ".md") = None →
  metadataCache_getFirstLinkpathDest (slidePathOf slide) sourcePath = None →
  match resolveAdvancedSlidesFileFromSlide sourcePath slide getTFile with
  | Some m =>
      ∃ before after, slideCandidates (slidePathOf slide) = before ++ m :: after ∧
        (∀ g, g ∈ before → pathLength m < pathLength g) ∧
        (∀ g, g ∈ after → pathLength m ≤ pathLength g)
  | None => slideCandidates (slidePathOf slide) = []
  end.
Proof.
  intros Hne Hplugin Hpath Hmd Hlink. unfold resolveAdvancedSlidesFileFromSlide.
  rewrite (truthy_Some slide Hne). cbn [negb]. cbv zeta.
  rewrite Hplugin, Hpath, Hmd, Hlink.
  assert ((if negb (JsMore.endsWith (JsMore.toLowerCase (slidePathOf slide)) ".md")
           then @None TFile else None) = None) as -> by (by destruct (negb _)).
  pose proof (head_sortByPathLength (slideCandidates (slidePathOf slide))) as Hsort.
  destruct (slideCandidates (slidePathOf slide)) as [|f [|g l]] eqn:E; [done| |exact Hsort].
  exists [], []. split; [done|]. split; by intros x Hx%elem_of_nil.
Qed.

(** A slide named as a wiki link resolves as the bare name does. *)
Theorem wiki_link_slide_resolves_as_bare_name (sourcePath x : string)
    (getTFile : option (string → option TFile)) :
  x ≠ "" → Js.trim x = x →
  Js.startsWith x "[[" && JsMore.endsWith x "]]" = false →
  resolveAdvancedSlidesFileFromSlide sourcePath ("[[" +:+ x +:+ "]]") getTFile =
    resolveAdvancedSlidesFileFromSlide sourcePath x getTFile.
Proof.
  intros Hne Htrim Hbare. unfold resolveAdvancedSlidesFileFromSlide.
  rewrite (truthy_Some x Hne).
  assert (Hw : Js.truthy (Some ("[[" +:+ x +:+ "]]")) = true) by (by unfold_append).
  rewrite Hw. cbn [negb]. cbv zeta.
  rewrite (slidePathOf_wiki_link x Htrim).
  assert (slidePathOf x = x) as ->; [|done].
  unfold slidePathOf. by rewrite Htrim, Hbare.
Qed.

End SlideFileFacts.

Lemma slide_fallback_picks_first_shortest_witness :
  ∃ m,
    resolveAdvancedSlidesFileFromSlide (vault := SampleVault.vault)
      "notes/home.md" "decks/talk.md" None = Some m ∧
    ∃ before after,
      slideCandidates (vault := SampleVault.vault) (slidePathOf "decks/talk.md") =
        before ++ m :: after ∧
      (∀ g, g ∈ before → pathLength m < pathLength g) ∧
      (∀ g, g ∈ after → pathLength m ≤ pathLength g).
Proof.
  eexists. split; [reflexivity|].
  apply (slide_fallback_picks_first_shortest (vault := SampleVault.vault)
           "notes/home.md" "decks/talk.md" None); [discriminate|reflexivity..].
Defined.

Lemma wiki_link_slide_resolves_as_bare_name_witness :
  resolveAdvancedSlidesFileFromSlide (vault := SampleVault.vault)
    "notes/home.md" "[[decks/talk]]" None =
  resolveAdvancedSlidesFileFromSlide (vault := SampleVault.vault)
    "notes/home.md" "decks/talk" None.
Proof.
  apply (wiki_link_slide_resolves_as_bare_name (vault := SampleVault.vault)
           "notes/home.md" "decks/talk" None); [discriminate|reflexivity..].
Defined.

Example slide_fallback_example :
  resolveAdvancedSlidesFileFromSlide (vault := SampleVault.vault)
    "notes/home.md" " [[ decks/talk ]] " None = Some {| file_path := "work/decks/talk.md" |}.
Proof. vm_compute. reflexivity. Qed.

(** ** Slide embeds: the asset references *)

(** A reference to the [dist], [plugin] or [css] folder of the renderer,
    with or without a slash before it, is put below the asset base, the
    slash dropped; the loop over the media that follows passes every
    reference so rewritten by. *)
Theorem asset_reference_is_rebased (assetBase folder rest : string) :
  folder ∈ ["dist"; "plugin"; "css"] →
  replaceAssetPath assetBase ("/" +:+ folder +:+ "/" +:+ rest) =
    assetBase +:+ folder +:+ "/" +:+ rest ∧
  replaceAssetPath assetBase (folder +:+ "/" +:+ rest) =
    assetBase +:+ folder +:+ "/" +:+ rest ∧
  embedSrcIsSkipped assetBase
    (Some (replaceAssetPath assetBase ("/" +:+ folder +:+ "/" +:+ rest))) = true.
Proof.
  intros Hin.
  assert (H1 : replaceAssetPath assetBase ("/" +:+ folder +:+ "/" +:+ rest) =
               assetBase +:+ folder +:+ "/" +:+ rest).
  { repeat (apply elem_of_cons in Hin as [->|Hin]; [by unfold_append|]).
    by apply elem_of_nil in Hin. }
  split; [exact H1|]. split.
  - repeat (apply elem_of_cons in Hin as [->|Hin]; [by unfold_append|]).
    by apply elem_of_nil in Hin.
  - rewrite H1. unfold embedSrcIsSkipped. cbn [default from_option id].
    rewrite startsWith_app. by rewrite ?orb_true_r.
Qed.

Lemma asset_reference_is_rebased_witness :
  replaceAssetPath "../../" "/dist/reveal.js" = "../../dist/reveal.js" ∧
  replaceAssetPath "../../" "dist/reveal.js" = "../../dist/reveal.js" ∧
  embedSrcIsSkipped "../../" (Some (replaceAssetPath "../../" "/dist/reveal.js")) = true.
Proof.
  apply (asset_reference_is_rebased "../../" "dist" "reveal.js"). by left.
Defined.

(** ** Tags *)

Lemma indexOf_Some (tags : list string) (tag : string) (i : nat) :
  indexOf tags tag = Some i ↔
  tags !! i = Some tag ∧ ∀ j : nat, j < i → tags !! j ≠ Some tag.
Proof.
  unfold indexOf. split.
  - intros H. destruct (list_find _ tags) as [[i' x]|] eqn:E; [|done].
    injection H as ->. apply list_find_Some in E as (Hi & -> & Hbefore).
    split; [done|]. intros j Hj Hlook. by apply (Hbefore j tag Hlook Hj).
  - intros [Hi Hbefore].
    assert (list_find (λ t, t = tag) tags = Some (i, tag)) as ->; [|done].
    apply list_find_Some. split; [done|]. split; [done|].
    intros j y Hj Hlt ->. by apply (Hbefore j Hlt).
Qed.

Lemma indexOf_elem_of (tags : list string) (tag : string) :
  tag ∈ tags → ∃ i : nat, indexOf tags tag = Some i.
Proof.
  intros Hin. unfold indexOf.
  destruct (list_find_elem_of (λ t, t = tag) tags tag Hin eq_refl) as [[i x] ->].
  by exists i.
Qed.

(** The elements [omap] keeps stand in the order of those they come from. *)
Lemma omap_lookup {A B} (f : A → option B) (l : list A) (k : nat) (y : B) :
  omap f l !! k = Some y → ∃ (i : nat) x, l !! i = Some x ∧ f x = Some y.
Proof.
  intros H. apply list_elem_of_lookup_2 in H.
  apply list_elem_of_omap in H as (x & Hx & Hf).
  apply list_elem_of_lookup_1 in Hx as [i Hi]. by exists i, x.
Qed.

Lemma omap_lookup_order {A B} (f : A → option B) (l : list A) (k1 k2 : nat) (y1 y2 : B) :
  k1 < k2 → omap f l !! k1 = Some y1 → omap f l !! k2 = Some y2 →
  ∃ (i1 i2 : nat) x1 x2,
    i1 < i2 ∧ l !! i1 = Some x1 ∧ l !! i2 = Some x2 ∧ f x1 = Some y1 ∧ f x2 = Some y2.
Proof.
  revert k1 k2. induction l as [|x l IH]; intros k1 k2 Hlt H1 H2; [done|].
  cbn [omap list_omap] in H1, H2. destruct (f x) as [y|] eqn:Hfx.
  - destruct k1 as [|k1], k2 as [|k2]; try lia.
    + injection H1 as ->. cbn in H2.
      destruct (omap_lookup f l k2 y2 H2) as (i & x2 & Hi & Hf2).
      exists 0, (S i), x, x2. split; [lia|]. by repeat split.
    + cbn in H1, H2.
      destruct (IH k1 k2 ltac:(lia) H1 H2) as (i1 & i2 & x1 & x2 & Hi & H).
      exists (S i1), (S i2), x1, x2. split; [lia|exact H].
  - destruct (IH k1 k2 Hlt H1 H2) as (i1 & i2 & x1 & x2 & Hi & H).
    exists (S i1), (S i2), x1, x2. split; [lia|exact H].
Qed.

Lemma allTags_lookup_order (fm : FrontmatterTags) (inlineTags : list string)
    (k1 k2 : nat) (t1 t2 : string) :
  k1 < k2 →
  allTags fm inlineTags !! k1 = Some t1 → allTags fm inlineTags !! k2 = Some t2 →
  ∃ i1 i2 : nat,
    indexOf (frontmatterTags fm ++ inlineTags) t1 = Some i1 ∧
    indexOf (frontmatterTags fm ++ inlineTags) t2 = Some i2 ∧ i1 < i2.
Proof.
  intros Hlt H1 H2. unfold allTags in H1, H2. cbv zeta in H1, H2.
  set (tags := frontmatterTags fm ++ inlineTags) in *.
  destruct (omap_lookup_order _ _ k1 k2 t1 t2 Hlt H1 H2)
    as (i1 & i2 & [j1 x1] & [j2 x2] & Hi & Hl1 & Hl2 & Hf1 & Hf2).
  rewrite list_lookup_imap in Hl1, Hl2.
  destruct (tags !! i1) as [u1|] eqn:E1; [|done].
  destruct (tags !! i2) as [u2|] eqn:E2; [|done].
  injection Hl1 as <- <-. injection Hl2 as <- <-.
  cbv beta iota in Hf1, Hf2.
  destruct (decide (indexOf tags u1 = Some i1)) as [Hd1|]; [|done].
  destruct (decide (indexOf tags u2 = Some i2)) as [Hd2|]; [|done].
  injection Hf1 as ->. injection Hf2 as ->. by exists i1, i2.
Qed.

Lemma elem_of_allTags (fm : FrontmatterTags) (inlineTags : list string) (tag : string) :
  tag ∈ allTags fm inlineTags ↔ tag ∈ frontmatterTags fm ++ inlineTags.
Proof.
  unfold allTags. cbv zeta. set (tags := frontmatterTags fm ++ inlineTags).
  rewrite list_elem_of_omap. split.
  - intros ([i t] & Hin & Hf). cbv beta iota in Hf.
    destruct (decide _) as [Hd|]; [|done]. injection Hf as ->.
    apply indexOf_Some in Hd as [Hi _]. by eapply list_elem_of_lookup_2.
  - intros Hin. destruct (indexOf_elem_of tags tag Hin) as [i Hi].
    exists (i, tag). split.
    + apply indexOf_Some in Hi as [Hi _]. by apply (elem_of_lookup_imap_2 pair).
    + cbv beta iota. by rewrite decide_True.
Qed.

(** [allTags] lists every tag of the frontmatter and of the text once,
    and in the order in which the tags first occur, the frontmatter
    first. *)
Theorem allTags_lists_each_tag_once (fm : FrontmatterTags) (inlineTags : list string) :
  NoDup (allTags fm inlineTags) ∧
  (∀ tag, tag ∈ allTags fm inlineTags ↔ tag ∈ frontmatterTags fm ++ inlineTags) ∧
  (∀ (k1 k2 : nat) t1 t2, k1 < k2 →
     allTags fm inlineTags !! k1 = Some t1 → allTags fm inlineTags !! k2 = Some t2 →
     ∃ i1 i2 : nat,
       indexOf (frontmatterTags fm ++ inlineTags) t1 = Some i1 ∧
       indexOf (frontmatterTags fm ++ inlineTags) t2 = Some i2 ∧ i1 < i2).
Proof.
  split; [|split].
  - apply NoDup_alt. intros k1 k2 t H1 H2.
    destruct (Nat.lt_trichotomy k1 k2) as [Hlt|[->|Hlt]]; [|done|].
    + destruct (allTags_lookup_order fm inlineTags k1 k2 t t Hlt H1 H2)
        as (i1 & i2 & Hi1 & Hi2 & Hi). rewrite Hi1 in Hi2. injection Hi2 as ->. lia.
    + destruct (allTags_lookup_order fm inlineTags k2 k1 t t Hlt H2 H1)
        as (i1 & i2 & Hi1 & Hi2 & Hi). rewrite Hi1 in Hi2. injection Hi2 as ->. lia.
  - apply elem_of_allTags.
  - apply allTags_lookup_order.
Qed.

(** Every tag of the frontmatter is listed with a [#] before it, whether
    it was written with one or not; when the tags of the text begin with
    [#] too, every tag listed does. *)
Theorem listed_tags_begin_with_hash (fm : FrontmatterTags) (inlineTags : list string) :
  Forall (λ tag, Js.startsWith tag "#" = true) inlineTags →
  Forall (λ tag, Js.startsWith tag "#" = true) (allTags fm inlineTags).
Proof.
  intros Hinline. apply Forall_forall. intros tag Hin.
  apply elem_of_allTags, elem_of_app in Hin as [Hin|Hin].
  - unfold frontmatterTags in Hin. apply list_elem_of_fmap in Hin as (t & -> & _).
    destruct (Js.startsWith t "#") eqn:E; [done|]. by unfold_append.
  - by apply (proj1 (Forall_forall _ _) Hinline).
Qed.

Lemma listed_tags_begin_with_hash_witness :
  Forall (λ tag, Js.startsWith tag "#" = true)
    (allTags (TagsArray ["project"; "#idea"]) ["#idea"; "#draft"]).
Proof.
  apply listed_tags_begin_with_hash. by repeat constructor.
Defined.

Example allTags_example :
  allTags (TagsArray ["project"; "#idea"; "project"]) ["#idea"; "#draft"; "#project"] =
    ["#project"; "#idea"; "#draft"] ∧
  allTags (TagsScalar "project") ["#project"] = ["#project"] ∧
  allTags TagsFalsy [] = [].
Proof. vm_compute. repeat split; reflexivity. Qed.

(** ** The sidebars *)

Module SidebarFacts.
Import Sidebar.

Lemma sidebar_withSidebar_same site side sb : sidebar (withSidebar site side sb) side = Some sb.
Proof. by destruct side. Qed.

Lemma sidebar_withSidebar_other site side sb :
  sidebar (withSidebar site side sb) (other side) = sidebar site (other side).
Proof. by destruct side. Qed.


Lemma side_cases (a b : Side) : a = b ∨ a = other b.
Proof. destruct a, b; auto. Qed.

(** The setter with [true]: it needs no call of another setter. *)
Lemma setCollapsed_true fuel site this sb :
  sidebar site this = Some sb →
  setCollapsed (S fuel) site this true =
    Some (if bool_decide (_collapsed sb = Some true) then site else closeSidebar site this sb).
Proof.
  intros Hsb. simpl. rewrite Hsb. case_bool_decide; [done|].
  simpl. f_equal. unfold closeSidebar.
  destruct this; simpl; reflexivity.
Qed.

(** The setter with any fuel from 2 on does what it does with 2: the
    nested call is one with [true], which calls no further setter. *)
Lemma setCollapsed_fuel fuel site this collapse :
  is_Some (setCollapsed 2 site this collapse) ∧
  setCollapsed (S (S fuel)) site this collapse = setCollapsed 2 site this collapse.
Proof.
  destruct (sidebar site this) as [sb|] eqn:Hsb; [|simpl; by rewrite Hsb].
  destruct collapse.
  { by rewrite (setCollapsed_true (S fuel) site this sb Hsb),
      (setCollapsed_true 1 site this sb Hsb). }
  assert (Hnested : ∀ n site0 o, sidebar site0 (closes sb) = Some o →
            setCollapsed (S n) site0 (closes sb) true = setCollapsed 1 site0 (closes sb) true ∧
            is_Some (setCollapsed 1 site0 (closes sb) true)).
  { intros n site0 o Ho.
    by rewrite (setCollapsed_true n site0 _ o Ho), (setCollapsed_true 0 site0 _ o Ho). }
  remember (S fuel) as n eqn:Hn. remember 1 as one eqn:Hone.
  cbn [setCollapsed]. rewrite Hsb. case_bool_decide; [done|]. cbn [negb].
  set (site0 := withSidebar site this _).
  destruct (String.eqb (deviceSize site0) "phone"); [|done].
  destruct (sidebar site0 (closes sb)) as [o|] eqn:Ho; [|done].
  destruct (notCollapsed o); [|done].
  subst n one. destruct (Hnested fuel site0 o Ho) as [-> [site1 ->]]. done.
Qed.

(** The setter with [false], for a sidebar that closes the one in the
    other slot. *)
Lemma setCollapsed_false fuel site this sb :
  sidebar site this = Some sb → closes sb = other this →
  setCollapsed (S (S fuel)) site this false =
    Some (if bool_decide (_collapsed sb = Some false) then site else openSidebar site this sb).
Proof.
  intros Hsb Hcloses. remember (S fuel) as n eqn:Hn.
  cbn [setCollapsed]. rewrite Hsb, Hcloses. case_bool_decide; [done|].
  cbn [negb]. unfold openSidebar. subst n.
  set (site0 := withSidebar site this
                  {| _collapsed := Some false; _isLeft := _isLeft sb;
                     containerEl := containerEl sb |}).
  assert (Hdev : deviceSize site0 = deviceSize site) by by destruct this.
  assert (Hother : sidebar site0 (other this) = sidebar site (other this))
    by apply sidebar_withSidebar_other.
  rewrite Hdev, Hother.
  destruct (String.eqb (deviceSize site) "phone") eqn:Hphone; cbn [orb].
  - destruct (sidebar site (other this)) as [o|] eqn:Ho.
    + destruct (notCollapsed o) eqn:Hnc.
      * assert (Ho0 : sidebar site0 (other this) = Some o) by by rewrite Hother.
        rewrite (setCollapsed_true fuel site0 (other this) o Ho0).
        assert (_collapsed o ≠ Some true) as Hne.
        { intros E. unfold notCollapsed in Hnc. by rewrite E in Hnc. }
        rewrite bool_decide_false by done.
        cbn [fmap option_fmap option_map]. f_equal.
        unfold closeSidebar, site0, addListener.
        destruct this; simpl; destruct (bool_decide _); reflexivity.
      * cbn [fmap option_fmap option_map]. f_equal.
        unfold site0, addListener.
        destruct this; simpl; destruct (bool_decide _); reflexivity.
    + cbn [fmap option_fmap option_map]. f_equal.
      unfold site0, addListener.
      destruct this; simpl; destruct (bool_decide _); reflexivity.
  - cbn [fmap option_fmap option_map]. f_equal.
    destruct (String.eqb (deviceSize site) "tablet"); unfold site0, addListener;
      destruct this; simpl; try destruct (bool_decide _); reflexivity.
Qed.

Lemma deviceSize_closeSidebar site this sb :
  deviceSize (closeSidebar site this sb) = deviceSize site.
Proof. by destruct this. Qed.


Lemma sidebar_closeSidebar_same site this sb :
  sidebar (closeSidebar site this sb) this =
    Some {| _collapsed := Some true; _isLeft := _isLeft sb;
            containerEl := classList_toggle "is-collapsed" true (containerEl sb) |}.
Proof. by destruct this. Qed.

Lemma sidebar_closeSidebar_other site this sb :
  sidebar (closeSidebar site this sb) (other this) = sidebar site (other this).
Proof. by destruct this. Qed.

(** The site before the last write of [openSidebar]: the other sidebar
    closed if the device is a phone, the listener registered if it is a
    phone or a tablet. *)
Lemma openSidebar_parts site this sb :
  ∃ site1,
    deviceSize site1 = deviceSize site ∧
    openSidebar site this sb =
      withSidebar
        (if String.eqb (deviceSize site) "phone" || String.eqb (deviceSize site) "tablet"
         then addListener this (removeListener this site1) else site1)
        this
        {| _collapsed := Some false; _isLeft := _isLeft sb;
           containerEl := classList_toggle "is-collapsed" false (containerEl sb) |} ∧
    (site1 = site ∨
     ∃ o, String.eqb (deviceSize site) "phone" = true ∧
          sidebar site (other this) = Some o ∧ notCollapsed o = true ∧
          site1 = closeSidebar site (other this) o) ∧
    (String.eqb (deviceSize site) "phone" = true →
     ∀ o, sidebar site1 (other this) = Some o → _collapsed o = Some true).
Proof.
  unfold openSidebar.
  destruct (String.eqb (deviceSize site) "phone") eqn:Hphone.
  - destruct (sidebar site (other this)) as [o|] eqn:Ho.
    + destruct (notCollapsed o) eqn:Hnc.
      * exists (closeSidebar site (other this) o). split; [apply deviceSize_closeSidebar|].
        split; [done|]. split; [right; by exists o|].
        intros _ o'. rewrite sidebar_closeSidebar_same. by intros [= <-].
      * exists site. split; [done|]. split; [done|]. split; [by left|].
        intros _ o'. rewrite Ho. intros [= <-].
        unfold notCollapsed in Hnc. by destruct (_collapsed o) as [[]|].
    + exists site. split; [done|]. split; [done|]. split; [by left|].
      intros _ o'. by rewrite Ho.
  - exists site. split; [done|]. split; [done|]. split; [by left|]. done.
Qed.

Lemma isOpen_withSidebar_same site this sb :
  isOpen (withSidebar site this sb) this ↔ _collapsed sb = Some false.
Proof.
  unfold isOpen. rewrite sidebar_withSidebar_same. split.
  - by intros (sb' & [= <-] & H).
  - intros H. by exists sb.
Qed.




Lemma listeners_withSidebar site this sb :
  bodyClickListeners (withSidebar site this sb) = bodyClickListeners site.
Proof. by destruct this. Qed.


Lemma listeners_add_remove site this :
  bodyClickListeners (addListener this (removeListener this site)) =
    filter (λ s, s ≠ this) (bodyClickListeners site) ++ [this].
Proof.
  unfold addListener. rewrite bool_decide_false; [done|].
  simpl. rewrite list_elem_of_filter. by intros [? _].
Qed.


Lemma sidebar_add_remove site this side :
  sidebar (addListener this (removeListener this site)) side = sidebar site side.
Proof. unfold addListener. case_bool_decide; by destruct side. Qed.



Lemma closeSidebar_classFollowsState site this sb :
  classFollowsState site → classFollowsState (closeSidebar site this sb).
Proof.
  intros Hinv side sb' b. destruct (side_cases side this) as [-> | ->].
  - rewrite sidebar_closeSidebar_same. intros [= <-] [= <-]. simpl.
    split; [done|]. intros _. apply classList_toggle_on.
  - rewrite sidebar_closeSidebar_other. apply Hinv.
Qed.

Lemma openSidebar_classFollowsState site this sb :
  classFollowsState site → classFollowsState (openSidebar site this sb).
Proof.
  intros Hinv.
  destruct (openSidebar_parts site this sb) as (site1 & Hdev1 & -> & Hsite1 & _).
  assert (Hinv1 : classFollowsState site1).
  { destruct Hsite1 as [-> | (o & _ & _ & _ & ->)]; [done|].
    by apply closeSidebar_classFollowsState. }
  intros side sb' b. destruct (side_cases side this) as [-> | ->].
  - rewrite sidebar_withSidebar_same. intros [= <-] [= <-]. simpl. split; [|done].
    intros H. by apply classList_toggle_off in H.
  - rewrite sidebar_withSidebar_other.
    destruct (_ || _); [rewrite sidebar_add_remove|]; apply Hinv1.
Qed.

Lemma closeSidebar_placed site this sb :
  sidebar site this = Some sb → placed site → placed (closeSidebar site this sb).
Proof.
  intros Hsb Hp side sb'. destruct (side_cases side this) as [-> | ->].
  - rewrite sidebar_closeSidebar_same. intros [= <-]. by apply (Hp this sb).
  - rewrite sidebar_closeSidebar_other. apply Hp.
Qed.

Lemma openSidebar_placed site this sb :
  sidebar site this = Some sb → placed site → placed (openSidebar site this sb).
Proof.
  intros Hsb Hp.
  destruct (openSidebar_parts site this sb) as (site1 & Hdev1 & -> & Hsite1 & _).
  assert (Hp1 : placed site1).
  { destruct Hsite1 as [-> | (o & _ & Ho & _ & ->)]; [done|].
    by apply closeSidebar_placed. }
  intros side sb'. destruct (side_cases side this) as [-> | ->].
  - rewrite sidebar_withSidebar_same. intros [= <-]. by apply (Hp this sb).
  - rewrite sidebar_withSidebar_other.
    destruct (_ || _); [rewrite sidebar_add_remove|]; apply Hp1.
Qed.

(** What a call of the setter can lead to, on a site whose sidebars sit
    in their own slots. *)
Lemma setCollapsed_cases site this collapse site' :
  placed site →
  setCollapsed 2 site this collapse = Some site' →
  site' = site ∨
  ∃ sb, sidebar site this = Some sb ∧ _collapsed sb ≠ Some collapse ∧
        site' = if collapse then closeSidebar site this sb else openSidebar site this sb.
Proof.
  intros Hp. destruct (sidebar site this) as [sb|] eqn:Hsb.
  - destruct collapse.
    + rewrite (setCollapsed_true 1 site this sb Hsb). case_bool_decide; intros [= <-];
        [by left|]. right. by exists sb.
    + rewrite (setCollapsed_false 0 site this sb Hsb (Hp this sb Hsb)).
      case_bool_decide; intros [= <-]; [by left|]. right. by exists sb.
  - simpl. rewrite Hsb. intros [= <-]. by left.
Qed.

Lemma setCollapsed_placed site this collapse site' :
  placed site → setCollapsed 2 site this collapse = Some site' → placed site'.
Proof.
  intros Hp Hset.
  destruct (setCollapsed_cases _ _ _ _ Hp Hset) as [-> | (sb & Hsb & _ & ->)]; [done|].
  destruct collapse; [by apply closeSidebar_placed|by apply openSidebar_placed].
Qed.

Lemma step_cases site site' :
  step site site' →
  site' = site ∨ ∃ this collapse, setCollapsed 2 site this collapse = Some site'.
Proof.
  intros [site0 this collapse site1 _ H | site0 this site1 [sb Hsb] H
         | site0 this inSidebar inToggle site1 _ H].
  - right. by exists this, collapse.
  - unfold clickToggle in H. rewrite Hsb in H. right. by exists this, (notCollapsed sb).
  - unfold clickOutsideCollapse in H.
    destruct inSidebar; [left; congruence|].
    destruct inToggle; [left; congruence|].
    destruct (_ || _); [|left; congruence].
    right. by exists this, true.
Qed.

(** The depth of the calls of the setter: a call needs one nested call
    at most, whatever the state and whichever sidebar [isLeft] selects,
    so it returns with any fuel from 2 on, and with the same site. *)
Theorem setCollapsed_returns fuel site this collapse :
  is_Some (setCollapsed 2 site this collapse) ∧
  setCollapsed (S (S fuel)) site this collapse = setCollapsed 2 site this collapse.
Proof. apply setCollapsed_fuel. Qed.

(** On a phone, when a sidebar that is not open is opened, and [isLeft]
    says of it what its slot says (it is [true] for the sidebar held in
    [ObsidianSite.leftSidebar] and [false] for the one held in
    [ObsidianSite.rightSidebar]), the other sidebar is collapsed
    afterwards, whatever it was before, and the opened one is open and
    listens to clicks on the body. *)
Theorem opening_on_phone_closes_the_other site this sb site' :
  deviceSize site = "phone" →
  sidebar site this = Some sb → _isLeft sb = bool_decide (this = Left) →
  _collapsed sb ≠ Some false →
  setCollapsed 2 site this false = Some site' →
  isOpen site' this ∧
  (∀ o, sidebar site' (other this) = Some o → _collapsed o = Some true) ∧
  this ∈ bodyClickListeners site'.
Proof.
  intros Hdev Hsb Hleft Hne.
  assert (Hcloses : closes sb = other this).
  { unfold closes. rewrite Hleft. by destruct this. }
  rewrite (setCollapsed_false 0 site this sb Hsb Hcloses).
  rewrite bool_decide_false by done. intros [= <-].
  destruct (openSidebar_parts site this sb) as (site1 & Hdev1 & -> & Hsite1 & Hclosed).
  rewrite Hdev. simpl. split; [by apply isOpen_withSidebar_same|]. split.
  - intros o. rewrite sidebar_withSidebar_other, sidebar_add_remove.
    apply Hclosed. by rewrite Hdev.
  - rewrite listeners_withSidebar, listeners_add_remove.
    apply elem_of_app. right. by left.
Qed.



Lemma setCollapsed_classFollowsState site this collapse site' :
  placed site →
  setCollapsed 2 site this collapse = Some site' →
  classFollowsState site → classFollowsState site'.
Proof.
  intros Hp Hset.
  destruct (setCollapsed_cases _ _ _ _ Hp Hset) as [-> | (sb & _ & _ & ->)]; [done|].
  destruct collapse;
    [apply closeSidebar_classFollowsState|apply openSidebar_classFollowsState].
Qed.



Lemma fresh_classFollowsState site : fresh site → classFollowsState site.
Proof. intros [_ Hs] side sb b Hsb Hb. apply Hs in Hsb. congruence. Qed.


Lemma step_placed site site' : placed site → step site site' → placed site'.
Proof.
  intros Hp Hstep.
  destruct (step_cases site site' Hstep) as [-> | (this & c & Hset)]; [done|].
  by eapply setCollapsed_placed.
Qed.


(** Along such a run the class [is-collapsed] of a sidebar's container is
    there exactly when the sidebar is collapsed, for every sidebar whose
    setter has run. *)
Theorem collapsed_class_follows_state site0 site :
  fresh site0 → placed site0 → rtc step site0 site →
  ∀ side sb b,
    sidebar site side = Some sb → _collapsed sb = Some b →
    ("is-collapsed" ∈ classList (containerEl sb) ↔ b = true).
Proof.
  intros Hfresh Hplaced Hrun.
  assert (H : placed site ∧ classFollowsState site); [|apply H].
  eapply (rtc_ind_r (λ s, placed s ∧ classFollowsState s) site0);
    [split; [done|by apply fresh_classFollowsState]| |exact Hrun].
  intros s1 s2 _ Hstep [Hp Hinv]. split; [by eapply step_placed|].
  destruct (step_cases s1 s2 Hstep) as [-> | (this & c & Hset)]; [done|].
  by eapply setCollapsed_classFollowsState.
Qed.



Lemma sample_fresh : fresh SampleSite.phone.
Proof.
  split; [done|]. intros [] sb; simpl; by intros [= <-].
Qed.

Lemma sample_placed : placed SampleSite.phone.
Proof. intros [] sb; simpl; by intros [= <-]. Qed.

Lemma sample_run : rtc step SampleSite.phone SampleSite.switched.
Proof.
  eapply (rtc_l _ _ SampleSite.opened).
  { apply (step_set _ Left false); [by eexists|reflexivity]. }
  eapply rtc_l; [|apply rtc_refl].
  apply (step_toggle _ Right); [by eexists|reflexivity].
Qed.

Lemma opening_on_phone_closes_the_other_witness :
  isOpen SampleSite.opened Left ∧
  (∀ o, sidebar SampleSite.opened Right = Some o → _collapsed o = Some true) ∧
  Left ∈ bodyClickListeners SampleSite.opened.
Proof.
  exact (opening_on_phone_closes_the_other SampleSite.phone Left
           (SampleSite.bar "left-sidebar") SampleSite.opened
           eq_refl eq_refl eq_refl ltac:(discriminate) eq_refl).
Defined.


Lemma collapsed_class_follows_state_witness :
  ∃ sb, sidebar SampleSite.switched Left = Some sb ∧ _collapsed sb = Some true ∧
        ("is-collapsed" ∈ classList (containerEl sb) ↔ true = true).
Proof.
  eexists. split; [reflexivity|]. split; [reflexivity|].
  exact (collapsed_class_follows_state SampleSite.phone SampleSite.switched
           sample_fresh sample_placed sample_run Left _ true eq_refl eq_refl).
Defined.



Example sidebars_example :
  (λ sb, _collapsed sb) <$> leftSidebar SampleSite.switched = Some (Some true) ∧
  (λ sb, _collapsed sb) <$> rightSidebar SampleSite.switched = Some (Some false) ∧
  bodyClickListeners SampleSite.switched = [Right] ∧
  (λ sb, classList (containerEl sb)) <$> leftSidebar SampleSite.switched
    = Some ["sidebar"; "is-collapsed"].
Proof. vm_compute. repeat split; reflexivity. Qed.

(** Without that: on a phone whose sidebars carry other ids, [isLeft] is
    false for both, so the sidebar in the left slot, when opened, closes
    the sidebar in the left slot, itself.  It ends collapsed, without
    the class [is-collapsed], and with its listener on the body. *)
Example renamed_sidebar_closes_itself :
  (λ site, ((λ sb, (_collapsed sb, classList (containerEl sb))) <$> leftSidebar site,
            bodyClickListeners site))
    <$> setCollapsed 2 SampleSite.renamed Left false =
    Some (Some (Some true, ["sidebar"]), [Left]).
Proof. vm_compute. reflexivity. Qed.

End SidebarFacts.
